(** * OpenAdapt (puterbot): cursor localisation, grid localisation and the CRUD layer

    A shallow embedding of

    - [experiments/cursor/sample.py]: the estimate-render-query-vote-refine
      loop that narrows a search region down to a screen coordinate;
    - [experiments/cursor/grid.py]: the grid-cell localisation loop;
    - [openadapt/db/crud.py]: [_insert], the three event recorders and the
      event used as a lock around the database session.

    Conventions.  Python [int] is [Z].  A finite Python [float] is the
    rational it denotes ([Q]); arithmetic on it is exact, which is the case
    for the powers of two that [spread] takes.  [dict] is [gmap] where it is
    used as a map and a record where its keys are fixed.  The vision model,
    [random.random], the font metrics and numpy/scikit-learn are inputs of
    the model: every function that consults them takes their answers as an
    argument, so each definition below can be evaluated. *)

From Stdlib Require Import ZArith QArith Qround Qabs Qpower Lia Lqa.
From stdpp Require Import gmap strings list fin_maps pretty sorting.

Local Open Scope Z_scope.

(** ** Python values shared by the modules *)

(** [int(q)] on a float: truncation towards zero. *)
Definition py_int (q : Q) : Z :=
  if Qle_bool 0 q then Qfloor q else Qceiling q.

(** [l[k]] with Python's negative indices; [None] stands for [IndexError]. *)
Definition py_index {A} (l : list A) (k : Z) : option A :=
  let n := Z.of_nat (length l) in
  if (0 <=? k) && (k <? n) then l !! Z.to_nat k
  else if (- n <=? k) && (k <? 0) then l !! Z.to_nat (n + k)
  else None.

(** [l.pop()]: the last element and the rest; [None] stands for [IndexError]. *)
Definition py_pop {A} (l : list A) : option (A * list A) :=
  match last l with
  | Some a => Some (a, removelast l)
  | None => None
  end.

(** [max(a, b)] on floats: the first of the largest. *)
Definition py_max (a b : Q) : Q :=
  match (a ?= b)%Q with Lt => b | _ => a end.

(** [range(n)] *)
Definition range (n : Z) : list Z := Z.of_nat <$> seq 0 (Z.to_nat n).

(** The exceptions the modelled code can raise. *)
Inductive exn :=
| ParseFailure      (* whatever parse_code_snippet or result[...] raised *)
| NameError
| IndexError
| ValueError
| AssertionError.

(** * experiments/cursor/sample.py *)
Module Sample.

Definition NUM_CURSORS : Z := 2 ^ 2.
Definition SPREAD_REDUCTION_FACTOR : Q := 1 # 2.
Definition MAX_ITERATIONS : option Z := None.
Definition MAX_OVERLAP_RATIO : Q := 2 # 10.
Definition CONSENSUS_THRESHOLD : nat := 2.
Definition LABEL_SIZE_RATIO : Q := 4 # 100.

(** A cursor or a centre, [{'x': x, 'y': y}]. *)
Record position := Position { pos_x : Z; pos_y : Z }.

Definition grid_size : Z := Z.sqrt NUM_CURSORS.

(** One cell of the grid of [generate_cursors]: the body of the two loops.
    [rx] and [ry] are the two draws of [random.random()]. *)
Definition cursor_at (center : position) (spread : Q) (width height : Z)
    (jitter : Q) (i j : Z) (rx ry : Q) : position :=
  let cell_width := (inject_Z width * spread / inject_Z grid_size)%Q in
  let cell_height := (inject_Z height * spread / inject_Z grid_size)%Q in
  let start_x :=
    (inject_Z (pos_x center) - cell_width * inject_Z (grid_size - 1) / 2)%Q in
  let start_y :=
    (inject_Z (pos_y center) - cell_height * inject_Z (grid_size - 1) / 2)%Q in
  let x := py_int (start_x + inject_Z i * cell_width) in
  let y := py_int (start_y + inject_Z j * cell_height) in
  let x := x + py_int ((rx - (1 # 2)) * cell_width * jitter) in
  let y := y + py_int ((ry - (1 # 2)) * cell_height * jitter) in
  let x := Z.max 0 (Z.min (width - 1) x) in
  let y := Z.max 0 (Z.min (height - 1) y) in
  Position x y.

(** [generate_cursors(center, spread, width, height, jitter)].  [random k] is
    the value of the [k]-th call of [random.random()] made by this
    invocation; cell [(i, j)] makes calls [2 * (i * grid_size + j)] and the
    next one. *)
Definition generate_cursors (center : position) (spread : Q)
    (width height : Z) (jitter : Q) (random : nat -> Q) : list position :=
  i ← range grid_size;
  j ← range grid_size;
  let k := Z.to_nat (2 * (i * grid_size + j)) in
  [cursor_at center spread width height jitter i j (random k) (random (S k))].

Definition default_jitter : Q := 1 # 100.

(** *** PIL images

    An image object is known by its identity (a number); the store maps
    identities to pictures.  A picture is its size and the
    paints applied, oldest first, to what was loaded from disk.  Methods that
    return a new image allocate an identity; the methods of [ImageDraw.Draw]
    change the object they were created for. *)
Definition color := (Z * Z * Z)%type.
Definition rect := (Z * Z * Z * Z)%type.

Inductive paint :=
| Overlay (bg : color) (opacity : Z)
| Rectangle (r : rect) (fill : color)
| Text (tx ty : Q) (label : string) (fill : color).

Record picture := Picture { pic_size : Z * Z; pic_paints : list paint }.

#[export] Instance picture_inhabited : Inhabited picture := populate (Picture (0, 0) []).

Abbreviation store := (gmap nat picture).

(** A new object holding [content]. *)
Definition alloc (content : picture) (h : store) : nat * store :=
  let o := fresh (dom h) in (o, <[o := content]> h).

(** [image.copy()] and [image.convert(mode)]: a new object, same picture. *)
Definition image_copy (o : nat) (h : store) : nat * store := alloc (h !!! o) h.
Definition image_convert (o : nat) (h : store) : nat * store := alloc (h !!! o) h.

(** [Image.new("RGBA", size, colour)] *)
Definition image_new (size : Z * Z) (bg : color) (opacity : Z) (h : store)
  : nat * store := alloc (Picture size [Overlay bg opacity]) h.

(** [Image.alpha_composite(im1, im2)]: a new object, [im1] under [im2]. *)
Definition alpha_composite (o1 o2 : nat) (h : store) : nat * store :=
  let i1 := h !!! o1 in let i2 := h !!! o2 in
  alloc (Picture (pic_size i1) (pic_paints i1 ++ pic_paints i2)) h.

(** [ImageDraw.Draw(o).rectangle(...)] and [.text(...)]: in place. *)
Definition draw_on (o : nat) (p : paint) (h : store) : store :=
  let i := h !!! o in <[o := Picture (pic_size i) (pic_paints i ++ [p])]> h.

(** [max(labels, key=len)]: the first of the longest. *)
Definition max_by_len (labels : list string) : string :=
  fold_left
    (fun best l => if (String.length best <? String.length l)%nat then l else best)
    (tail labels) (hd EmptyString labels).

(** One step of the double loop that computes the overlap ratio. *)
Definition overlap_pair (rect1 rect2 : rect) (max_overlap_ratio : Q) : Q :=
  let '(a0, a1, a2, a3) := rect1 in
  let '(b0, b1, b2, b3) := rect2 in
  let overlap_width := Z.max 0 (Z.min a2 b2 - Z.max a0 b0) in
  let overlap_height := Z.max 0 (Z.min a3 b3 - Z.max a1 b1) in
  let overlap_area := overlap_width * overlap_height in
  let rect1_area := (a2 - a0) * (a3 - a1) in
  let rect2_area := (b2 - b0) * (b3 - b1) in
  let ratio1 :=
    if 0 <? rect1_area then (inject_Z overlap_area / inject_Z rect1_area)%Q else 0%Q in
  let ratio2 :=
    if 0 <? rect2_area then (inject_Z overlap_area / inject_Z rect2_area)%Q else 0%Q in
  py_max (py_max max_overlap_ratio ratio1) ratio2.

Definition enumerate {A} (l : list A) : list (nat * A) := zip (seq 0 (length l)) l.

Definition compute_max_overlap (rectangles : list rect) : Q :=
  fold_left
    (fun acc '(i, rect1) =>
       fold_left
         (fun acc '(j, rect2) =>
            if decide (i = j) then acc else overlap_pair rect1 rect2 acc)
         (enumerate rectangles) acc)
    (enumerate rectangles) 0%Q.

Section Render.

(** [draw.textbbox((0, 0), text, font=font)] for the Arial font of the given
    size: the metrics of the installed font. *)
Variable textbbox : Z -> string -> rect.

Definition bbox_w (b : rect) : Z := let '(b0, _, b2, _) := b in b2 - b0.
Definition bbox_h (b : rect) : Z := let '(_, b1, _, b3) := b in b3 - b1.

(** The label of cursor [i]: [labels[i] if labels else str(i + 1)].  An empty
    or absent [labels] is [[]]; [None] stands for [IndexError]. *)
Definition label_of (labels : list string) (i : nat) : option string :=
  match labels with
  | [] => Some (pretty (Z.of_nat i + 1))
  | _ => labels !! i
  end.

(** The body of the loop over the cursors: the rectangle of cursor [i] is
    drawn, then its label, and the rectangle is remembered. *)
Definition draw_cursor (o : nat) (font_size rect_width rect_height : Z)
    (inner_color label_color : color) (label : string) (coords : position)
    (h : store) : rect * store :=
  let x := pos_x coords in
  let y := pos_y coords in
  let r := (x - rect_width `div` 2, y - rect_height `div` 2,
            x + rect_width `div` 2, y + rect_height `div` 2) in
  let h := draw_on o (Rectangle r inner_color) h in
  let label_bbox := textbbox font_size label in
  let label_w := bbox_w label_bbox in
  let label_h := bbox_h label_bbox in
  let h := draw_on o
             (Text (inject_Z x - inject_Z label_w / 2)
                   (inject_Z y - inject_Z label_h / 2) label label_color) h in
  (r, h).

Fixpoint draw_cursors (o : nat) (font_size rect_width rect_height : Z)
    (inner_color label_color : color) (labels : list string)
    (cursors : list (nat * position)) (h : store)
  : option (list rect * store) :=
  match cursors with
  | [] => Some ([], h)
  | (i, coords) :: rest =>
      label ← label_of labels i;
      let '(r, h) := draw_cursor o font_size rect_width rect_height
                       inner_color label_color label coords h in
      '(rs, h) ← draw_cursors o font_size rect_width rect_height
                   inner_color label_color labels rest h;
      Some (r :: rs, h)
  end.

(** [draw_labelled_cursors(image, cursors, inner_color, label_color,
    bg_color, bg_transparency, labels, padding)]: the new image and the
    maximum overlap ratio; [None] stands for the [IndexError] of a [labels]
    shorter than [cursors]. *)
Definition draw_labelled_cursors (image : nat) (cursors : list position)
    (inner_color label_color bg_color : color) (bg_transparency : Q)
    (labels : list string) (padding : Z) (h : store)
  : option (nat * Q * store) :=
  let size := pic_size (h !!! image) in
  let '(image, h) := image_convert image h in
  let bg_opacity := py_int (255 * bg_transparency) in
  let '(overlay, h) := image_new size bg_color bg_opacity h in
  let '(image, h) := alpha_composite image overlay h in
  let '(image, h) := image_convert image h in
  let min_dimension := Z.min (fst size) (snd size) in
  let font_size := py_int (inject_Z min_dimension * LABEL_SIZE_RATIO) in
  let max_label :=
    match labels with
    | [] => pretty (Z.of_nat (length cursors))
    | _ => max_by_len labels
    end in
  let max_label_bbox := textbbox font_size max_label in
  let rect_width := bbox_w max_label_bbox + padding in
  let rect_height := bbox_h max_label_bbox + padding in
  '(rectangles, h) ← draw_cursors image font_size rect_width rect_height
                       inner_color label_color labels (enumerate cursors) h;
  Some (image, compute_max_overlap rectangles, h).

Definition default_bg_color : color := (0, 0, 0).
Definition default_bg_transparency : Q := 25 # 100.
Definition default_padding : Z := 10.

End Render.

(** *** Votes: [collections.Counter]

    A counter keeps its keys in the order of their first insertion, and
    [most_common(1)] returns the first key among those of largest count. *)
Fixpoint counter_add (v : Z) (c : list (Z * nat)) : list (Z * nat) :=
  match c with
  | [] => [(v, 1%nat)]
  | (k, n) :: c' => if decide (k = v) then (k, S n) :: c' else (k, n) :: counter_add v c'
  end.

Definition Counter (votes : list Z) : list (Z * nat) :=
  fold_left (fun c v => counter_add v c) votes [].

Definition most_common_1 (c : list (Z * nat)) : option (Z * nat) :=
  match c with
  | [] => None
  | kn :: c' =>
      Some (fold_left (fun best kn => if (snd best <? snd kn)%nat then kn else best) c' kn)
  end.

(** *** The search loop of [main] *)

(** The value bound to [closest] by the [try] block. [PyNumber z] is any
    value [v] with [int(v) = z], [PyText] any value on which [int] raises. *)
Inductive pyval := PyNone | PyNumber (z : Z) | PyText.

(** What the [try] block makes of the answer of the vision model. *)
Inductive response :=
| Unparsable                 (* parse_code_snippet or result['closest'] raises *)
| Closest (v : pyval).

(** What one pass of the inner loop reads from outside. *)
Record pass_input := PassInput { random : nat -> Q; reply : response }.

(** The effects of the loop, in the order in which they happen. *)
Inductive event :=
| Generate (c : position) (sp : Q) (cs : list position)
| Render (base copy : nat) (cs : list position) (rendered : nat) (overlap_ratio : Q)
| Query (rendered : nat)
| Retry (c : position) (sp : Q)
| Vote (label : Z)
| Refine (c : position) (sp : Q).

(** The local variables of [main] that the loop reads or writes, the store
    of images and the log of effects. [closest] is [None] until it is bound;
    [cursors] is [[]] until it is bound. *)
Record state := State {
  center : position;
  spread : Q;
  iteration : Z;
  identified_locations : list position;
  exceptions : list exn;
  center_history : list position;
  spread_history : list Q;
  votes : list Z;
  max_overlap_ratio : Q;
  cursors : list position;
  closest : option pyval;
  heap : store;
  trace : list event
}.

Inductive pass_result :=
| PassContinue (s : state)
| PassBreak (most_common : Z * nat) (s : state)
| PassRaise (e : exn) (s : state).

Inductive end_result :=
| EndNext (s : state)
| EndBreak (s : state)
| EndRaise (e : exn) (s : state).

Inductive exit := MaxIterations | Overlap.

Inductive outcome :=
| Running (s : state)                (* the next answer has not come yet *)
| Exited (why : exit) (s : state)    (* a [break] of the outer loop *)
| Raised (e : exn) (s : state).

Section Main.

Variable textbbox : Z -> string -> rect.
(** The screenshot after [load_and_downsample_image] and
    [increase_contrast], and the colour [maximally_different_color] found. *)
Variable screenshot : picture.
Variable inner_color : color.
Variable max_iterations : option Z.

Definition image : nat := 0%nat.
Definition label_color : color := (255, 255, 255).
Definition width : Z := fst (pic_size screenshot).
Definition height : Z := snd (pic_size screenshot).

Definition initial : state :=
  {| center := Position (width `div` 2) (height `div` 2);
     spread := 1;
     iteration := 1;
     identified_locations := [];
     exceptions := [];
     center_history := [];
     spread_history := [];
     votes := [];
     max_overlap_ratio := 0;
     cursors := [];
     closest := None;
     heap := {[ image := screenshot ]};
     trace := [] |}.

(** Lines 246-247 and 274-277: the test on [MAX_ITERATIONS], then the
    resets at the head of an iteration. [None] is the [break]. *)
Definition iteration_begin (s : state) : option state :=
  let stop :=
    match max_iterations with
    | Some m => negb (m =? 0) && (m <? iteration s)
    | None => false
    end in
  if stop then None
  else Some {| center := center s; spread := spread s; iteration := iteration s;
               identified_locations := identified_locations s;
               exceptions := exceptions s;
               center_history := center_history s ++ [center s];
               spread_history := spread_history s ++ [spread s];
               votes := [];
               max_overlap_ratio := 0;
               cursors := cursors s; closest := closest s;
               heap := heap s; trace := trace s |}.

(** Lines 279-291: the cursors are generated, drawn on a copy of the
    screenshot, and the picture is sent to the model. *)
Definition render (random : nat -> Q) (s : state) : option state :=
  let cs := generate_cursors (center s) (spread s) width height default_jitter random in
  let '(copy, h) := image_copy image (heap s) in
  '(cursor_image, overlap_ratio, h) ←
     draw_labelled_cursors textbbox copy cs inner_color label_color
       default_bg_color default_bg_transparency [] default_padding h;
  Some {| center := center s; spread := spread s; iteration := iteration s;
          identified_locations := identified_locations s;
          exceptions := exceptions s;
          center_history := center_history s;
          spread_history := spread_history s;
          votes := votes s;
          max_overlap_ratio := py_max overlap_ratio (max_overlap_ratio s);
          cursors := cs; closest := closest s;
          heap := h;
          trace := trace s ++ [Generate (center s) (spread s) cs;
                               Render image copy cs cursor_image overlap_ratio;
                               Query cursor_image] |}.

(** Lines 293-298: the [try] block. *)
Definition parse (r : response) (s : state) : state :=
  {| center := center s; spread := spread s; iteration := iteration s;
     identified_locations := identified_locations s;
     exceptions :=
       match r with Unparsable => exceptions s ++ [ParseFailure] | Closest _ => exceptions s end;
     center_history := center_history s;
     spread_history := spread_history s;
     votes := votes s; max_overlap_ratio := max_overlap_ratio s;
     cursors := cursors s;
     closest := match r with Unparsable => closest s | Closest v => Some v end;
     heap := heap s; trace := trace s |}.

(** Lines 300-304: back to the previous level. *)
Definition retry (s : state) : pass_result :=
  match py_pop (center_history s), py_pop (spread_history s) with
  | Some (c, ch), Some (sp, sh) =>
      PassContinue
        {| center := c; spread := sp; iteration := iteration s;
           identified_locations := identified_locations s;
           exceptions := exceptions s;
           center_history := ch; spread_history := sh;
           votes := votes s; max_overlap_ratio := max_overlap_ratio s;
           cursors := cursors s; closest := closest s;
           heap := heap s; trace := trace s ++ [Retry c sp] |}
  | _, _ => PassRaise IndexError s
  end.

(** Lines 305-309: the vote and the test for a consensus. *)
Definition vote (z : Z) (s : state) : pass_result :=
  let votes' := votes s ++ [z] in
  let s' :=
    {| center := center s; spread := spread s; iteration := iteration s;
       identified_locations := identified_locations s;
       exceptions := exceptions s;
       center_history := center_history s;
       spread_history := spread_history s;
       votes := votes'; max_overlap_ratio := max_overlap_ratio s;
       cursors := cursors s; closest := closest s;
       heap := heap s; trace := trace s ++ [Vote z] |} in
  match most_common_1 (Counter votes') with
  | None => PassRaise IndexError s'
  | Some most_common =>
      if (CONSENSUS_THRESHOLD <=? snd most_common)%nat
      then PassBreak most_common s'
      else PassContinue s'
  end.

(** One pass of the inner loop, lines 279-309. *)
Definition inner_pass (inp : pass_input) (s : state) : pass_result :=
  match render (random inp) s with
  | None => PassRaise IndexError s
  | Some s =>
      let s := parse (reply inp) s in
      match closest s with
      | None => PassRaise NameError s
      | Some PyNone => retry s
      | Some PyText => PassRaise ValueError s
      | Some (PyNumber z) => vote z s
      end
  end.

(** Lines 310-319: after the inner loop. *)
Definition iteration_end (most_common : Z * nat) (s : state) : end_result :=
  let closest_number := fst most_common in
  match py_index (cursors s) (closest_number - 1) with
  | None => EndRaise IndexError s
  | Some identified_location =>
      let spread' := (spread s * SPREAD_REDUCTION_FACTOR)%Q in
      let refined it :=
        {| center := identified_location; spread := spread'; iteration := it;
           identified_locations := identified_locations s ++ [identified_location];
           exceptions := exceptions s;
           center_history := center_history s;
           spread_history := spread_history s;
           votes := votes s; max_overlap_ratio := max_overlap_ratio s;
           cursors := cursors s; closest := closest s;
           heap := heap s;
           trace := trace s ++ [Refine identified_location spread'] |} in
      match (max_overlap_ratio s ?= MAX_OVERLAP_RATIO)%Q with
      | Gt => EndBreak (refined (iteration s))
      | _ => EndNext (refined (iteration s + 1))
      end
  end.

(** The two loops, from a state at the head of the inner loop, driven by the
    answers that have come so far. *)
Fixpoint run (inputs : list pass_input) (s : state) : outcome :=
  match inputs with
  | [] => Running s
  | inp :: inputs =>
      match inner_pass inp s with
      | PassRaise e s => Raised e s
      | PassContinue s => run inputs s
      | PassBreak most_common s =>
          match iteration_end most_common s with
          | EndRaise e s => Raised e s
          | EndBreak s => Exited Overlap s
          | EndNext s =>
              match iteration_begin s with
              | None => Exited MaxIterations s
              | Some s => run inputs s
              end
          end
      end
  end.

(** The loop of [main], lines 245-319. *)
Definition main_loop (inputs : list pass_input) : outcome :=
  match iteration_begin initial with
  | None => Exited MaxIterations initial
  | Some s => run inputs s
  end.

End Main.

(** [main] with the constants of the module. *)
Definition main (textbbox : Z -> string -> rect) (screenshot : picture)
    (inner_color : color) (inputs : list pass_input) : outcome :=
  main_loop textbbox screenshot inner_color MAX_ITERATIONS inputs.

(** *** [maximally_different_color]

    numpy and scikit-learn are outside the repository: the generator behind
    [np.random], the shuffle, the clustering and the distance are taken as
    they come.  The global generator is threaded through the function, so
    that what the result depends on can be stated. *)
Section Colour.

(** The state of numpy's global generator, [np.random.seed] and
    [np.random.shuffle]. *)
Variable rng : Type.
Variable seed : Z -> rng.
Variable shuffle : list color -> rng -> list color * rng.
(** [KMeans(n_clusters, random_state).fit(X).cluster_centers_]; [None] when
    scikit-learn raises (fewer samples than clusters). *)
Variable kmeans : Z -> Z -> list color -> option (list (Q * Q * Q)).
(** One entry of [cdist(..., metric='euclidean')]. *)
Variable euclidean : color -> Q * Q * Q -> Q.
(** [np.array(image.convert('RGB')).reshape(-1, 3)] *)
Variable pixels : picture -> list color.

(** [range(0, 256, 8)] *)
Definition levels : list Z := (fun k => 8 * k) <$> range 32.

Definition all_colors : list color :=
  r ← levels; g ← levels; b ← levels; [(r, g, b)].

(** [np.argmax]: the index of the first of the largest entries. *)
Definition argmax (l : list Q) : nat :=
  match l with
  | [] => 0%nat
  | q :: l' =>
      fst (fold_left
             (fun '(best, bq, i) q' =>
                match (bq ?= q')%Q with
                | Lt => (i, q', S i)
                | _ => (best, bq, S i)
                end)
             l' (0%nat, q, 1%nat)).1
  end.

(** Lines 33-38: at most [sample_size] pixels, picked by a seeded shuffle. *)
Definition sample_colors (np_img : list color) (sample_size : Z) (g : rng)
  : list color * rng :=
  if sample_size <? Z.of_nat (length np_img) then
    let g := seed 42 in
    let '(np_img, g) := shuffle np_img g in
    (take (Z.to_nat sample_size) np_img, g)
  else (np_img, g).

Definition maximally_different_color (image : picture)
    (sample_size n_clusters : Z) (g : rng) : option color * rng :=
  let np_img := pixels image in
  let '(sampled_colors, g) := sample_colors np_img sample_size g in
  match kmeans n_clusters 42 sampled_colors with
  | None => (None, g)
  | Some cluster_centers =>
      let sum_distances :=
        (fun c => foldr Qplus 0%Q (euclidean c <$> cluster_centers)) <$> all_colors in
      let max_dist_index := argmax sum_distances in
      (all_colors !! max_dist_index, g)
  end.

End Colour.

End Sample.

(** * experiments/cursor/grid.py *)
Module Grid.

Definition GRID_SIZE : Z := 25.

(** Grid cells are [(row, col)] tuples, compared as Python compares tuples. *)
Definition tuple_le (a b : Z * Z) : Prop :=
  a.1 < b.1 ∨ (a.1 = b.1 ∧ a.2 ≤ b.2).

#[export] Instance tuple_le_dec : RelDecision tuple_le.
Proof. intros a b. unfold tuple_le. apply _. Defined.

(** [sorted(result["coordinates"])] *)
Definition sorted (l : list (Z * Z)) : list (Z * Z) := merge_sort tuple_le l.


(** What [parse_code_snippet(response)] and [result["coordinates"]] give:
    the cells named by the model, or an exception. *)
Definition response := option (list (Z * Z)).

(** The variables of [main] that the loop writes; [highlighted] is what
    [grid_image_with_target] shows ([None] before the first answer). *)
Record state := State {
  coordinates : list (Z * Z);
  all_coordinates : list (list (Z * Z));
  highlighted : option (list (Z * Z))
}.

Inductive outcome :=
| Running (s : state)     (* the next answer has not come yet *)
| Stopped (s : state)     (* the [break] *)
| Raised (e : exn) (s : state).

Definition initial : state :=
  {| coordinates := []; all_coordinates := []; highlighted := None |}.

(** The loop of [main], lines 140-195, driven by the answers of the model. *)
Fixpoint run (responses : list response) (s : state) : outcome :=
  match responses with
  | [] => Running s
  | None :: _ => Raised ParseFailure s
  | Some cells :: responses =>
      let coordinates := sorted cells in
      if decide (coordinates ∈ all_coordinates s) then
        Stopped {| coordinates := coordinates;
                   all_coordinates := all_coordinates s;
                   highlighted := Some coordinates |}
      else
        run responses {| coordinates := coordinates;
                         all_coordinates := all_coordinates s ++ [coordinates];
                         highlighted := Some coordinates |}
  end.

Definition main (responses : list response) : outcome := run responses initial.

End Grid.

(** * openadapt/db/crud.py *)
Module Crud.

Definition BATCH_SIZE : nat := 1.

(** The values stored in event dictionaries and rows. *)
Inductive value :=
| VNone
| VInt (z : Z)
| VFloat (q : Q)
| VStr (s : string)
| VBool (b : bool).

(** [dict[str, Any]]: event data and rows. *)
Abbreviation record := (gmap string value).

(** An ORM class, as far as [_insert] looks at it: its name and the names
    of [table.__table__.columns], in order. *)
Record table := Table { table_name : string; columns : list string }.

Record Recording := { id : Z; timestamp : Q }.

(** The module-level buffers. *)
Inductive buffer :=
| action_events | screenshots | window_events | performance_stats | memory_stats.

#[export] Instance buffer_eq_dec : EqDecision buffer.
Proof. solve_decision. Defined.

(** The module state: the contents of the buffers, the rows handed to
    [db.execute(sa.insert(table), rows)] and committed, oldest first, the
    event [lock], the session [db] and the sessions closed so far. *)
Record state := State {
  buffers : buffer -> list record;
  inserted : list (table * record);
  lock : bool;
  db : nat;
  closed : list nat
}.

Definition initial : state :=
  {| buffers := fun _ => []; inserted := []; lock := true; db := 0%nat; closed := [] |}.

(** One turn of the loop [for key in db_obj] of [_insert]. *)
Definition take_column (acc : record * record) (key : string) : record * record :=
  let '(db_obj, event_data) := acc in
  match event_data !! key with
  | Some val => (<[key := val]> db_obj, delete key event_data)
  | None => (db_obj, event_data)
  end.

(** [{column.name: None for column in table.__table__.columns}] *)
Definition empty_row (t : table) : record :=
  list_to_map ((fun c => (c, VNone)) <$> columns t).

(** [_insert(event_data, table, buffer)]; the result of [db.execute] is not
    modelled. *)
Definition _insert (event_data : record) (t : table) (b : option buffer)
    (st : state) : exn + state :=
  let '(db_obj, event_data) :=
    fold_left take_column (columns t) (empty_row t, event_data) in
  if decide (event_data = ∅) then
    let bufs :=
      match b with
      | Some b => fun b' => if decide (b' = b) then buffers st b ++ [db_obj] else buffers st b'
      | None => buffers st
      end in
    let full :=
      match b with
      | Some b => (BATCH_SIZE <=? length (bufs b))%nat
      | None => true
      end in
    if full then
      let to_insert :=
        match b with
        | Some b => match bufs b with [] => [db_obj] | rows => rows end
        | None => [db_obj]
        end in
      let bufs :=
        match b with
        | Some b => fun b' => if decide (b' = b) then [] else bufs b'
        | None => bufs
        end in
      inr {| buffers := bufs;
             inserted := inserted st ++ ((fun r => (t, r)) <$> to_insert);
             lock := lock st; db := db st; closed := closed st |}
    else
      inr {| buffers := bufs; inserted := inserted st;
             lock := lock st; db := db st; closed := closed st |}
  else inl AssertionError.

(** [{**event_data, "timestamp": ..., "recording_id": ...,
    "recording_timestamp": ...}] *)
Definition with_provenance (recording : Recording) (event_timestamp : value)
    (event_data : record) : record :=
  <["recording_timestamp" := VFloat (timestamp recording)]>
    (<["recording_id" := VInt (id recording)]>
       (<["timestamp" := event_timestamp]> event_data)).

Section Recorders.

(** The ORM classes of [openadapt.models]. *)
Variables ActionEvent Screenshot WindowEvent : table.

Definition insert_action_event (recording : Recording) (event_timestamp : value)
    (event_data : record) (st : state) : exn + state :=
  _insert (with_provenance recording event_timestamp event_data)
    ActionEvent (Some action_events) st.

Definition insert_screenshot (recording : Recording) (event_timestamp : value)
    (event_data : record) (st : state) : exn + state :=
  _insert (with_provenance recording event_timestamp event_data)
    Screenshot (Some screenshots) st.

Definition insert_window_event (recording : Recording) (event_timestamp : value)
    (event_data : record) (st : state) : exn + state :=
  _insert (with_provenance recording event_timestamp event_data)
    WindowEvent (Some window_events) st.

End Recorders.

(** [new_session()]: the session is closed and replaced. Sessions are
    numbered in the order of their creation. *)
Definition new_session (st : state) : state :=
  {| buffers := buffers st; inserted := inserted st; lock := lock st;
     db := S (db st); closed := closed st ++ [db st] |}.

(** [lock] is an [asyncio.Event].  [lock.wait()] returns [True] at once when
    the event is set; otherwise the caller is suspended until [lock.set()]
    wakes it, and [wait] then returns [True] without looking at the event
    again.  [lock.set()] sets the event and wakes every caller suspended in
    [wait]; [lock.clear()] clears the event.

    [acquire_db_lock()] up to its suspension point: on a set event the call
    runs to its end, clearing the event and returning [True]; on a cleared
    event the caller is suspended in [lock.wait()]. *)
Inductive acquiring :=
| Acquired (result : bool) (st : state)
| Suspended.

Definition clear (st : state) : state :=
  {| buffers := buffers st; inserted := inserted st;
     lock := false; db := db st; closed := closed st |}.

Definition acquire_db_lock (st : state) : acquiring :=
  if lock st then Acquired true (clear st) else Suspended.

(** The rest of [acquire_db_lock()] for a caller that [lock.set()] has
    woken: [lock.wait()] returns, the event is cleared and the call returns
    [True]. *)
Definition acquire_db_lock_resumed (st : state) : bool * state :=
  (true, clear st).

(** [release_db_lock()] *)
Definition release_db_lock (st : state) : state :=
  new_session {| buffers := buffers st; inserted := inserted st;
                 lock := true; db := db st; closed := closed st |}.

(** The state machine of the lock.  Callers are numbered.  A caller holds
    the lock from the completion of its [acquire_db_lock] to the next
    [release_db_lock]; [waiting] lists the callers suspended in
    [lock.wait()], oldest first, each with the state of its future: woken
    by a [lock.set()] or not.  A call of [acquire_db_lock] completes at
    once or suspends the caller; the event loop resumes a caller that has
    been woken; [release_db_lock] wakes all the suspended callers. *)
Inductive action := Acquire (who : nat) | Resume (who : nat) | Release.

Record world := World {
  module : state;
  waiting : list (nat * bool);
  holders : list nat
}.

Definition step (a : action) (w : world) : option world :=
  match a with
  | Acquire who =>
      match acquire_db_lock (module w) with
      | Acquired _ st => Some (World st (waiting w) (who :: holders w))
      | Suspended => Some (World (module w) (waiting w ++ [(who, false)]) (holders w))
      end
  | Resume who =>
      if decide ((who, true) ∈ waiting w) then
        let '(_, st) := acquire_db_lock_resumed (module w) in
        Some (World st (filter (fun x => x.1 <> who) (waiting w)) (who :: holders w))
      else None
  | Release =>
      Some (World (release_db_lock (module w))
              ((fun x => (x.1, true)) <$> waiting w) [])
  end.

(** The actions in order; [None] when one of them cannot happen: the event
    loop resumes no caller that is not suspended and woken. *)
Fixpoint steps (l : list action) (w : world) : option world :=
  match l with
  | [] => Some w
  | a :: l => w ← step a w; steps l w
  end.

Definition reachable (w : world) : Prop :=
  ∃ l, steps l (World initial [] []) = Some w.

End Crud.


(** * experiments/cursor/sample.py: the final picture *)
Module SampleFinal.
Import Sample.

(** [range(a, b)] *)
Definition range_from (a b : Z) : list Z := (fun k => a + k) <$> range (b - a).

Section Final.

Variable textbbox : Z -> string -> rect.
Variable inner_color : color.

(** Lines 321-330 of [main]: the picture of the identified locations, drawn
    on a copy of the screenshot; [None] stands for [IndexError].  The calls
    of [show] and [save] that follow do not change the images. *)
Definition final_picture (s : state) : option (nat * store) :=
  let '(final_image, h) := image_copy image (heap s) in
  let labels :=
    pretty <$> range_from 1 (Z.of_nat (length (identified_locations s)) + 1) in
  '(final_image_with_cursors, overlap_ratio, h) ←
     draw_labelled_cursors textbbox final_image (identified_locations s)
       inner_color label_color default_bg_color default_bg_transparency
       labels default_padding h;
  Some (final_image_with_cursors, h).

End Final.

End SampleFinal.


(** * experiments/cursor/grid.py: the pictures *)
Module GridDrawing.
Import Grid.

(** What the functions that draw the grid can raise: the division by a
    [grid_size] of 0, the [ValueError] of line 54 of [add_grid_labels], or
    whatever [ImageFont.truetype] raises for a size that it refuses. *)
Inductive grid_exn := ZeroDivisionError | NoSuitableFontSize | FontNotLoaded.



Section FontSize.

(** [ImageFont.truetype("Arial.ttf", size)] succeeds; the bounding box of a
    text in the font of a size. *)
Variable loads : Z -> bool.
Variable textbbox : Z -> string -> Z * Z * Z * Z.

(** Lines 43-48: every label of the grid fits a cell. *)
Definition fits (width height grid_size font_size : Z) : bool :=
  forallb
    (fun i =>
       let '(_, _, w, h) := textbbox font_size (pretty (i + 1)) in
       negb ((width `div` grid_size <? w) || (height `div` grid_size <? h)))
    (range grid_size).

(** Lines 42-54, from a font loaded at [font_size].  [fuel] bounds the
    number of turns of the loop, which ends when the size reaches 0:
    [Z.to_nat font_size] turns are enough. *)
Fixpoint shrink (fuel : nat) (width height grid_size font_size : Z) : grid_exn + Z :=
  if fits width height grid_size font_size then inr font_size
  else
    let font_size := font_size - 1 in
    if negb (loads font_size) then inl FontNotLoaded
    else if font_size <=? 0 then inl NoSuitableFontSize
    else
      match fuel with
      | O => inl NoSuitableFontSize
      | S fuel => shrink fuel width height grid_size font_size
      end.

(** Lines 38-54 of [add_grid_labels]: the font size of the labels. *)
Definition label_font_size (width height grid_size : Z) : grid_exn + Z :=
  if grid_size =? 0 then inl ZeroDivisionError
  else
    let max_font_size :=
      Z.min ((height `div` grid_size) `div` 2) ((width `div` grid_size) `div` 2) in
    if loads max_font_size
    then shrink (Z.to_nat max_font_size) width height grid_size max_font_size
    else inl FontNotLoaded.

End FontSize.

End GridDrawing.


(** * openadapt/db/crud.py: stop sequences *)
Module StopSequences.

(** *** [filter_stop_sequences] *)

(** An action event, as far as [filter_stop_sequences] reads it. *)
Record action_event := ActionEvent {
  name : string;
  canonical_key_char : option string;
  canonical_key_name : option string
}.

(** [key == s] for an attribute that may be [None]. *)
Definition key_is (key : option string) (s : string) : bool :=
  bool_decide (key = Some s).

(** [key in sequence] *)
Definition key_in (key : option string) (sequence : list string) : bool :=
  match key with
  | Some s => bool_decide (s ∈ sequence)
  | None => false
  end.

(** Lines 388-392: the test for ctrl c on the last two events. *)
Definition ends_with_ctrl_c (action_events : list action_event) : bool :=
  match reverse action_events with
  | last :: before :: _ =>
      key_is (canonical_key_char last) "c" && key_is (canonical_key_name before) "ctrl"
  | _ => false
  end.

(** Lines 411-432: the inner loop for one stop sequence, over the events
    from the last to the first. [index] is [stop_sequence_indices[i]]; the
    result is its value and that of [num_to_remove] when the loop ends. *)
Fixpoint scan (sequence : list string) (backwards : list action_event)
    (index : Z) (num_to_remove : nat) : exn + Z * nat :=
  match backwards with
  | [] => inr (index, num_to_remove)
  | e :: backwards =>
      match py_index sequence index with
      | None => inl IndexError
      | Some key =>
          if (key_is (canonical_key_char e) key || key_is (canonical_key_name e) key)
             && bool_decide (name e = "press")
          then scan sequence backwards (index - 1) (S num_to_remove)
          else if bool_decide (name e = "release")
                  && (key_in (canonical_key_char e) sequence
                      || key_in (canonical_key_name e) sequence)
          then scan sequence backwards index (S num_to_remove)
          else inr (index, num_to_remove)
      end
  end.

(** Lines 402-438: the loop over the stop sequences; [Some n] when one of
    them is found, with the number of events to remove. *)
Fixpoint find_sequence (sequences : list (list string))
    (backwards : list action_event) (num_to_remove : nat) : exn + option nat :=
  match sequences with
  | [] => inr None
  | sequence :: sequences =>
      match scan sequence backwards (Z.of_nat (length sequence) - 1) num_to_remove with
      | inl e => inl e
      | inr (index, num_to_remove) =>
          if index =? -1 then inr (Some num_to_remove)
          else find_sequence sequences backwards num_to_remove
      end
  end.

(** [n] times [action_events.pop()]. *)
Fixpoint pop_n {A} (n : nat) (l : list A) : exn + list A :=
  match n with
  | O => inr l
  | S n =>
      match py_pop l with
      | Some (_, l) => pop_n n l
      | None => inl IndexError
      end
  end.

(** [filter_stop_sequences(action_events)], with [config.STOP_SEQUENCES];
    the result is the list as the call leaves it. *)
Definition filter_stop_sequences (STOP_SEQUENCES : list (list string))
    (action_events : list action_event) : exn + list action_event :=
  if ends_with_ctrl_c action_events then pop_n 2 action_events
  else
    match find_sequence STOP_SEQUENCES (reverse action_events) 0 with
    | inl e => inl e
    | inr None => inr action_events
    | inr (Some num_to_remove) => pop_n num_to_remove action_events
    end.

End StopSequences.


(** * openadapt/db/crud.py: statistics and post-processing *)
Module CrudEvents.
Import Crud.

(** *** [post_process_events] *)
Section PostProcess.

(** The type of the timestamps, with the equality of dictionary keys. *)
Context {K : Type} `{Countable K}.





End PostProcess.

(** *** The other recorders *)
Section Stats.

Variables PerformanceStat MemoryStat : table.

(** The dictionary that [insert_perf_stat] builds. *)
Definition event_perf_stat (recording : Recording)
    (event_type start_time end_time : value) : record :=
  <["end_time" := end_time]>
    (<["start_time" := start_time]>
       (<["event_type" := event_type]>
          (<["recording_id" := VInt (id recording)]>
             {[ "recording_timestamp" := VFloat (timestamp recording) ]}))).

Definition insert_perf_stat (recording : Recording)
    (event_type start_time end_time : value) (st : state) : exn + state :=
  _insert (event_perf_stat recording event_type start_time end_time)
    PerformanceStat (Some performance_stats) st.

(** The dictionary that [insert_memory_stat] builds. *)
Definition memory_stat (recording : Recording)
    (memory_usage_bytes timestamp' : value) : record :=
  <["timestamp" := timestamp']>
    (<["memory_usage_bytes" := memory_usage_bytes]>
       (<["recording_id" := VInt (id recording)]>
          {[ "recording_timestamp" := VFloat (timestamp recording) ]})).

Definition insert_memory_stat (recording : Recording)
    (memory_usage_bytes timestamp' : value) (st : state) : exn + state :=
  _insert (memory_stat recording memory_usage_bytes timestamp')
    MemoryStat (Some memory_stats) st.

End Stats.

(** *** A session that raises *)

(** What the session does with the rows that [_insert] hands it: it stores
    them, or [db.execute] or [db.commit] raises. *)
Inductive session := Stores | Raises.

(** The ways in which a call of [_insert] ends, with the module state it
    leaves: it returns; the assertion fails, before anything is written;
    or the session raises, after the row has been appended to the buffer
    and before the buffer is cleared. *)
Inductive ending :=
| Returned (st : state)
| Asserted
| Refused (st : state).

(** [_insert(event_data, table, buffer)] on a session that stores or
    raises. *)
Definition _insert_on (answer : session) (event_data : record) (t : table)
    (b : option buffer) (st : state) : ending :=
  let '(db_obj, event_data) :=
    fold_left take_column (columns t) (empty_row t, event_data) in
  if decide (event_data = ∅) then
    let bufs :=
      match b with
      | Some b => fun b' => if decide (b' = b) then buffers st b ++ [db_obj] else buffers st b'
      | None => buffers st
      end in
    let full :=
      match b with
      | Some b => (BATCH_SIZE <=? length (bufs b))%nat
      | None => true
      end in
    if full then
      match answer with
      | Raises =>
          Refused {| buffers := bufs; inserted := inserted st;
                     lock := lock st; db := db st; closed := closed st |}
      | Stores =>
          let to_insert :=
            match b with
            | Some b => match bufs b with [] => [db_obj] | rows => rows end
            | None => [db_obj]
            end in
          let bufs :=
            match b with
            | Some b => fun b' => if decide (b' = b) then [] else bufs b'
            | None => bufs
            end in
          Returned {| buffers := bufs;
                      inserted := inserted st ++ ((fun r => (t, r)) <$> to_insert);
                      lock := lock st; db := db st; closed := closed st |}
      end
    else
      Returned {| buffers := bufs; inserted := inserted st;
                  lock := lock st; db := db st; closed := closed st |}
  else Asserted.

(** A call of one of the five recorders. *)
Inductive call :=
| ActionCall (recording : Recording) (event_timestamp : value) (event_data : record)
| ScreenshotCall (recording : Recording) (event_timestamp : value) (event_data : record)
| WindowCall (recording : Recording) (event_timestamp : value) (event_data : record)
| PerfCall (recording : Recording) (event_type start_time end_time : value)
| MemoryCall (recording : Recording) (memory_usage_bytes timestamp' : value).

Section Calls.

Variables ActionEvent Screenshot WindowEvent PerformanceStat MemoryStat : table.

(** The table a call writes to, its buffer, and the dictionary it hands to
    [_insert]. *)
Definition table_of (c : call) : table :=
  match c with
  | ActionCall _ _ _ => ActionEvent
  | ScreenshotCall _ _ _ => Screenshot
  | WindowCall _ _ _ => WindowEvent
  | PerfCall _ _ _ _ => PerformanceStat
  | MemoryCall _ _ _ => MemoryStat
  end.

Definition buffer_of (c : call) : buffer :=
  match c with
  | ActionCall _ _ _ => action_events
  | ScreenshotCall _ _ _ => screenshots
  | WindowCall _ _ _ => window_events
  | PerfCall _ _ _ _ => performance_stats
  | MemoryCall _ _ _ => memory_stats
  end.

Definition data_of (c : call) : record :=
  match c with
  | ActionCall r t d | ScreenshotCall r t d | WindowCall r t d => with_provenance r t d
  | PerfCall r e s f => event_perf_stat r e s f
  | MemoryCall r m t => memory_stat r m t
  end.

(** A call on a session that stores: the recorders as defined above. *)
Definition perform (c : call) (st : state) : exn + state :=
  match c with
  | ActionCall r t d => insert_action_event ActionEvent r t d st
  | ScreenshotCall r t d => insert_screenshot Screenshot r t d st
  | WindowCall r t d => insert_window_event WindowEvent r t d st
  | PerfCall r e s f => insert_perf_stat PerformanceStat r e s f st
  | MemoryCall r m t => insert_memory_stat MemoryStat r m t st
  end.

(** A call on a session that stores or raises. *)
Definition perform_on (answer : session) (c : call) (st : state) : ending :=
  _insert_on answer (data_of c) (table_of c) (Some (buffer_of c)) st.

(** A history of calls, each with what the session does in it.  The result
    is the module state and the calls that returned, in order. *)
Fixpoint perform_all (calls : list (call * session)) (st : state)
    : state * list call :=
  match calls with
  | [] => (st, [])
  | (c, answer) :: calls =>
      match perform_on answer c st with
      | Returned st' => let '(st'', done) := perform_all calls st' in (st'', c :: done)
      | Asserted => perform_all calls st
      | Refused st' => perform_all calls st'
      end
  end.

End Calls.

End CrudEvents.


(** * Python lists *)
Module PyFacts.

Lemma py_pop_snoc {A} (l : list A) (a : A) : py_pop (l ++ [a]) = Some (a, l).
Proof. unfold py_pop. by rewrite last_snoc, removelast_last. Qed.

Lemma py_pop_Some {A} (l : list A) a rest :
  py_pop l = Some (a, rest) <-> l = rest ++ [a].
Proof.
  split; [|intros ->; apply py_pop_snoc].
  destruct l as [|x l _] using rev_ind; [done|].
  rewrite py_pop_snoc. by intros [= -> ->].
Qed.


Lemma py_index_elem_of {A} (l : list A) k x : py_index l k = Some x -> x ∈ l.
Proof.
  unfold py_index.
  destruct ((0 <=? k) && (k <? Z.of_nat (length l)));
    [apply list_elem_of_lookup_2|].
  destruct ((- Z.of_nat (length l) <=? k) && (k <? 0));
    [apply list_elem_of_lookup_2|done].
Qed.


Lemma py_index_last {A} (l : list A) : py_index l (-1) = last l.
Proof.
  unfold py_index. destruct l as [|a l _] using rev_ind; [done|].
  rewrite last_snoc, length_app, Nat.add_1_r.
  replace (0 <=? -1) with false by done. cbn [andb].
  replace (- Z.of_nat (S (length l)) <=? -1) with true by (symmetry; apply Z.leb_le; lia).
  cbn [andb]. replace (Z.to_nat (Z.of_nat (S (length l)) + -1)) with (length l) by lia.
  by rewrite list_lookup_middle.
Qed.

Lemma py_index_end {A} (l : list A) :
  py_index l (Z.of_nat (length l) - 1) = last l.
Proof.
  destruct l as [|a l _] using rev_ind; [done|].
  rewrite last_snoc, length_app, Nat.add_1_r. unfold py_index.
  rewrite length_app, Nat.add_1_r.
  replace (0 <=? Z.of_nat (S (length l)) - 1) with true by (symmetry; apply Z.leb_le; lia).
  replace (Z.of_nat (S (length l)) - 1 <? Z.of_nat (S (length l))) with true
    by (symmetry; apply Z.ltb_lt; lia).
  cbn [andb]. replace (Z.to_nat (Z.of_nat (S (length l)) - 1)) with (length l) by lia.
  by rewrite list_lookup_middle.
Qed.

Lemma py_index_in_range {A} (l : list A) k :
  0 <= k < Z.of_nat (length l) -> is_Some (py_index l k).
Proof.
  intros Hk. unfold py_index.
  replace (0 <=? k) with true by (symmetry; apply Z.leb_le; lia).
  replace (k <? Z.of_nat (length l)) with true by (symmetry; apply Z.ltb_lt; lia).
  cbn [andb]. apply lookup_lt_is_Some. lia.
Qed.

Lemma py_index_before_last {A} (l : list A) a b :
  py_index (l ++ [a; b]) (-2) = Some a.
Proof.
  unfold py_index. rewrite length_app. cbn [length].
  replace (0 <=? -2) with false by done. cbn [andb].
  replace (- Z.of_nat (length l + 2) <=? -2) with true by (symmetry; apply Z.leb_le; lia).
  cbn [andb]. replace (Z.to_nat (Z.of_nat (length l + 2) + -2)) with (length l) by lia.
  by apply list_lookup_middle.
Qed.

(** [l[k]] read with the positions of the list: an index from [0] counts
    from the head, an index from [- len(l)] to [-1] from the end, and any
    other index is out of range. *)
Lemma py_index_lookup {A} (l : list A) (k : Z) :
  let n := Z.of_nat (length l) in
  match py_index l k with
  | Some a =>
      0 <= k < n /\ l !! Z.to_nat k = Some a \/
      - n <= k < 0 /\ l !! Z.to_nat (n + k) = Some a
  | None => k < - n \/ n <= k
  end.
Proof.
  cbn zeta. unfold py_index.
  destruct (Z.leb_spec 0 k), (Z.ltb_spec k (Z.of_nat (length l))); cbn [andb].
  - destruct (l !! Z.to_nat k) as [a|] eqn:E; [left; split; [lia|done]|].
    apply lookup_ge_None in E. lia.
  - destruct (Z.leb_spec (- Z.of_nat (length l)) k), (Z.ltb_spec k 0); cbn [andb]; lia.
  - destruct (Z.leb_spec (- Z.of_nat (length l)) k), (Z.ltb_spec k 0); cbn [andb];
      try lia.
    destruct (l !! Z.to_nat (Z.of_nat (length l) + k)) as [a|] eqn:E;
      [right; split; [lia|done]|].
    apply lookup_ge_None in E. lia.
  - lia.
Qed.

End PyFacts.


(** * Properties of the cursor search *)
Module SampleFacts.
Import Sample PyFacts.

Lemma py_int_floor q : (0 <= q)%Q -> py_int q = Qfloor q.
Proof. intros H. unfold py_int. apply Qle_bool_iff in H. by rewrite H. Qed.

Lemma py_int_ceiling q : (q < 0)%Q -> py_int q = Qceiling q.
Proof.
  intros H. unfold py_int. destruct (Qle_bool 0 q) eqn:E; [|done].
  apply Qle_bool_iff in E. lra.
Qed.

(** Truncation moves a float by less than one, towards zero. *)
Lemma py_int_near q : (Qabs (inject_Z (py_int q) - q) < 1)%Q.
Proof.
  destruct (Qlt_le_dec q 0) as [Hq|Hq].
  - rewrite py_int_ceiling by done.
    pose proof (Qle_ceiling q). pose proof (Qceiling_lt q) as Hc.
    unfold Z.sub in Hc. rewrite inject_Z_plus in Hc.
    change (inject_Z (- (1))) with (- (1))%Q in Hc.
    apply Qabs_case; intros; lra.
  - rewrite py_int_floor by done.
    pose proof (Qfloor_le q). pose proof (Qlt_floor q) as Hf.
    rewrite inject_Z_plus in Hf. change (inject_Z 1) with 1%Q in Hf.
    apply Qabs_case; intros; lra.
Qed.

Lemma py_int_abs q : (Qabs (inject_Z (py_int q)) <= Qabs q)%Q.
Proof.
  destruct (Qlt_le_dec q 0) as [Hq|Hq].
  - rewrite py_int_ceiling by done.
    pose proof (Qle_ceiling q).
    assert (Qceiling q <= 0)%Z.
    { change 0%Z with (Qceiling 0). apply Qceiling_resp_le. lra. }
    assert (inject_Z (Qceiling q) <= 0)%Q by (change 0%Q with (inject_Z 0); by rewrite <- Zle_Qle).
    rewrite !Qabs_neg by lra. lra.
  - rewrite py_int_floor by done.
    pose proof (Qfloor_le q).
    assert (0 <= Qfloor q)%Z.
    { change 0%Z with (Qfloor 0). by apply Qfloor_resp_le. }
    assert (0 <= inject_Z (Qfloor q))%Q by (change 0%Q with (inject_Z 0); by rewrite <- Zle_Qle).
    rewrite !Qabs_pos by lra. lra.
Qed.


Lemma generate_cursors_cells center spread width height jitter random :
  generate_cursors center spread width height jitter random =
  [ cursor_at center spread width height jitter 0 0 (random 0%nat) (random 1%nat);
    cursor_at center spread width height jitter 0 1 (random 2%nat) (random 3%nat);
    cursor_at center spread width height jitter 1 0 (random 4%nat) (random 5%nat);
    cursor_at center spread width height jitter 1 1 (random 6%nat) (random 7%nat) ].
Proof. reflexivity. Qed.






(** *** Votes *)

(** How many times [label] has been voted. *)
Definition tally (label : Z) (votes : list Z) : nat :=
  length (filter (fun v => v = label) votes).

Fixpoint counter_get (k : Z) (c : list (Z * nat)) : nat :=
  match c with
  | [] => 0
  | (k', n) :: c' => if decide (k' = k) then n else counter_get k c'
  end.

Lemma counter_get_add k v c :
  counter_get k (counter_add v c) =
  if decide (v = k) then S (counter_get k c) else counter_get k c.
Proof.
  induction c as [|[k' n] c IH]; cbn.
  - repeat case_decide; congruence.
  - repeat (case_decide; cbn); subst; try congruence; rewrite IH;
      repeat case_decide; congruence.
Qed.

Lemma Counter_snoc votes v : Counter (votes ++ [v]) = counter_add v (Counter votes).
Proof. unfold Counter. by rewrite fold_left_app. Qed.

Lemma tally_snoc label votes v :
  tally label (votes ++ [v]) =
  if decide (v = label) then S (tally label votes) else tally label votes.
Proof.
  unfold tally. rewrite filter_app, length_app.
  rewrite filter_cons, filter_nil. case_decide; cbn; lia.
Qed.

(** The counter counts. *)
Lemma counter_get_Counter k votes : counter_get k (Counter votes) = tally k votes.
Proof.
  induction votes as [|v votes IH] using rev_ind; [done|].
  rewrite Counter_snoc, counter_get_add, tally_snoc, IH. done.
Qed.

Lemma counter_add_keys v c :
  (counter_add v c).*1 = if decide (v ∈ c.*1) then c.*1 else c.*1 ++ [v].
Proof.
  induction c as [|[k n] c IH]; cbn.
  - case_decide as H; [by apply elem_of_nil in H|done].
  - destruct (decide (k = v)) as [->|Hk]; cbn.
    + rewrite decide_True by apply list_elem_of_here. done.
    + rewrite IH. destruct (decide (v ∈ c.*1)) as [Hv|Hv].
      * rewrite decide_True by (by apply list_elem_of_further). done.
      * rewrite decide_False; [done|].
        rewrite elem_of_cons. intros [?|?]; congruence.
Qed.

Lemma Counter_NoDup votes : NoDup (Counter votes).*1.
Proof.
  induction votes as [|v votes IH] using rev_ind; [constructor|].
  rewrite Counter_snoc, counter_add_keys. case_decide as Hv; [done|].
  apply NoDup_app. split; [done|]. split; [|apply NoDup_singleton].
  intros k Hk Hk'. apply list_elem_of_singleton in Hk'. congruence.
Qed.

Lemma counter_get_entry k n c :
  NoDup c.*1 -> (k, n) ∈ c -> counter_get k c = n.
Proof.
  induction c as [|[k' n'] c IH]; cbn; intros Hnd Hin.
  - by apply elem_of_nil in Hin.
  - apply NoDup_cons in Hnd as [Hk' Hnd].
    apply elem_of_cons in Hin as [Heq|Hin].
    + inversion Heq; subst. by rewrite decide_True.
    + case_decide as Hk; [|by apply IH].
      subst. exfalso. apply Hk'. apply list_elem_of_fmap. by exists (k, n).
Qed.

Lemma counter_get_absent k c : k ∉ c.*1 -> counter_get k c = 0%nat.
Proof.
  induction c as [|[k' n'] c IH]; cbn; [done|].
  rewrite not_elem_of_cons. intros [Hk Hc]. rewrite decide_False by done. auto.
Qed.

Lemma counter_get_present k c : k ∈ c.*1 -> (k, counter_get k c) ∈ c.
Proof.
  induction c as [|[k' n'] c IH]; cbn; intros Hin.
  - by apply elem_of_nil in Hin.
  - case_decide as Hk; [subst; apply list_elem_of_here|].
    apply elem_of_cons in Hin as [?|Hin]; [congruence|].
    apply list_elem_of_further. auto.
Qed.

(** [most_common(1)] is an entry of the counter with the largest count. *)
Lemma most_common_1_max c kn :
  most_common_1 c = Some kn -> kn ∈ c /\ forall kn', kn' ∈ c -> (snd kn' <= snd kn)%nat.
Proof.
  destruct c as [|kn0 c]; [done|]. unfold most_common_1. intros [= <-].
  set (pick := fun best kn : Z * nat => if (snd best <? snd kn)%nat then kn else best).
  assert (Hfold : forall l b,
    (fold_left pick l b = b \/ fold_left pick l b ∈ l) /\
    (snd b <= snd (fold_left pick l b))%nat /\
    forall kn', kn' ∈ l -> (snd kn' <= snd (fold_left pick l b))%nat).
  { induction l as [|a l IH]; intros b; cbn.
    - split; [by left|]. split; [lia|]. intros ? H. by apply elem_of_nil in H.
    - destruct (IH (pick b a)) as (Hin & Hle & Hall).
      assert (snd b <= snd (pick b a) /\ snd a <= snd (pick b a))%nat as [Hb Ha].
      { unfold pick. destruct (Nat.ltb_spec (snd b) (snd a)); lia. }
      split; [|split; [lia|]].
      + destruct Hin as [->|Hin]; [|right; by apply list_elem_of_further].
        unfold pick. destruct (snd b <? snd a)%nat;
          [right; apply list_elem_of_here|by left].
      + intros kn' [->|Hkn']%elem_of_cons; [lia|auto]. }
  destruct (Hfold c kn0) as (Hin & Hle & Hall). split.
  - destruct Hin as [->|Hin];
      [apply list_elem_of_here|by apply list_elem_of_further].
  - intros kn' [->|Hkn']%elem_of_cons; auto.
Qed.

Lemma most_common_1_Counter votes label n :
  most_common_1 (Counter votes) = Some (label, n) ->
  n = tally label votes /\ forall l, (tally l votes <= n)%nat.
Proof.
  intros [Hin Hmax]%most_common_1_max. split.
  - rewrite <- counter_get_Counter. symmetry.
    apply counter_get_entry; [apply Counter_NoDup|done].
  - intros l. rewrite <- counter_get_Counter.
    destruct (decide (l ∈ (Counter votes).*1)) as [Hl|Hl].
    + apply (Hmax (l, _)), counter_get_present, Hl.
    + rewrite counter_get_absent by done. lia.
Qed.

(** *** The store of images *)

Lemma alloc_lookup content h o h' k v :
  alloc content h = (o, h') -> h !! k = Some v -> h' !! k = Some v /\ o <> k.
Proof.
  unfold alloc. intros [= <- <-] Hk.
  assert (fresh (dom h) <> k) as Hne.
  { intros <-. apply (is_fresh (dom h)). apply elem_of_dom. eauto. }
  by rewrite lookup_insert_ne.
Qed.

Lemma draw_on_lookup o p h k : o <> k -> draw_on o p h !! k = h !! k.
Proof. intros Hne. unfold draw_on. by rewrite lookup_insert_ne. Qed.

Lemma draw_cursors_lookup textbbox o fs rw rh ic lc labels cs h rs h' k :
  draw_cursors textbbox o fs rw rh ic lc labels cs h = Some (rs, h') ->
  o <> k -> h' !! k = h !! k.
Proof.
  revert h rs. induction cs as [|[i coords] cs IH]; intros h rs; cbn.
  - by intros [= _ <-].
  - destruct (label_of labels i) as [label|]; cbn; [|done].
    destruct (draw_cursors _ _ _ _ _ _ _ _ cs _) as [[rs' h'']|] eqn:Hrest; cbn; [|done].
    intros [= _ <-] Hne. rewrite (IH _ _ Hrest Hne).
    by rewrite !draw_on_lookup.
Qed.

(** [draw_labelled_cursors] draws on an image of its own: whatever was in
    the store is as it was. *)
Lemma draw_labelled_cursors_lookup textbbox o cs ic lc bg bt labels pad h img ov h' k v :
  draw_labelled_cursors textbbox o cs ic lc bg bt labels pad h = Some (img, ov, h') ->
  h !! k = Some v -> h' !! k = Some v /\ img <> k.
Proof.
  unfold draw_labelled_cursors.
  destruct (image_convert o h) as [o1 h1] eqn:H1.
  destruct (image_new _ _ _ h1) as [o2 h2] eqn:H2.
  destruct (alpha_composite o1 o2 h2) as [o3 h3] eqn:H3.
  destruct (image_convert o3 h3) as [o4 h4] eqn:H4.
  destruct (draw_cursors _ _ _ _ _ _ _ _ _ _) as [[rs h5]|] eqn:H5; cbn; [|done].
  intros [= <- _ <-] Hk.
  destruct (alloc_lookup _ _ _ _ _ _ H1 Hk) as [Hk1 _].
  destruct (alloc_lookup _ _ _ _ _ _ H2 Hk1) as [Hk2 _].
  destruct (alloc_lookup _ _ _ _ _ _ H3 Hk2) as [Hk3 _].
  destruct (alloc_lookup _ _ _ _ _ _ H4 Hk3) as [Hk4 Hne].
  split; [|done]. by rewrite (draw_cursors_lookup _ _ _ _ _ _ _ _ _ _ _ _ _ H5 Hne).
Qed.

(** Without [labels] every cursor has a label: no [IndexError]. *)
Lemma draw_cursors_unlabelled textbbox o fs rw rh ic lc cs h :
  is_Some (draw_cursors textbbox o fs rw rh ic lc [] cs h).
Proof.
  revert h. induction cs as [|[i coords] cs IH]; intros h; cbn; [eauto|].
  destruct (IH (draw_on o
    (Text (inject_Z (pos_x coords) - inject_Z (bbox_w (textbbox fs (pretty (Z.of_nat i + 1)))) / 2)
          (inject_Z (pos_y coords) - inject_Z (bbox_h (textbbox fs (pretty (Z.of_nat i + 1)))) / 2)
          (pretty (Z.of_nat i + 1)) lc)
    (draw_on o (Rectangle (pos_x coords - rw `div` 2, pos_y coords - rh `div` 2,
                           pos_x coords + rw `div` 2, pos_y coords + rh `div` 2) ic) h)))
    as [[rs h'] ->].
  cbn. eauto.
Qed.

(** *** One pass of the inner loop *)
Section Loop.

Context (textbbox : Z -> string -> rect) (screenshot : picture)
        (inner_color : color) (max_iterations : option Z).

Local Abbreviation render := (render textbbox screenshot inner_color).
Local Abbreviation inner_pass := (inner_pass textbbox screenshot inner_color).
Local Abbreviation iteration_begin := (iteration_begin max_iterations).
Local Abbreviation run := (run textbbox screenshot inner_color max_iterations).
Local Abbreviation main_loop := (main_loop textbbox screenshot inner_color max_iterations).
Local Abbreviation width := (width screenshot).
Local Abbreviation height := (height screenshot).
Local Abbreviation initial := (initial screenshot).

(** What [render] leaves alone and what it writes. *)
Lemma render_fields random s s1 :
  render random s = Some s1 ->
  center s1 = center s /\ spread s1 = spread s /\ iteration s1 = iteration s /\
  identified_locations s1 = identified_locations s /\
  center_history s1 = center_history s /\ spread_history s1 = spread_history s /\
  votes s1 = votes s /\ closest s1 = closest s /\ exceptions s1 = exceptions s /\
  cursors s1 =
    generate_cursors (center s) (spread s) width height default_jitter random.
Proof.
  unfold Sample.render. destruct (image_copy _ _) as [copy h].
  destruct (draw_labelled_cursors _ _ _ _ _ _ _ _ _ _) as [[[ci ov] h']|];
    [|done].
  cbn. intros [= <-]. cbn. tauto.
Qed.

Lemma parse_fields r s :
  center (parse r s) = center s /\ spread (parse r s) = spread s /\
  iteration (parse r s) = iteration s /\
  identified_locations (parse r s) = identified_locations s /\
  center_history (parse r s) = center_history s /\
  spread_history (parse r s) = spread_history s /\
  votes (parse r s) = votes s /\ cursors (parse r s) = cursors s /\
  max_overlap_ratio (parse r s) = max_overlap_ratio s /\
  heap (parse r s) = heap s /\ trace (parse r s) = trace s.
Proof. cbn. tauto. Qed.

(** The ways out of a pass. *)
Lemma inner_pass_cases inp s :
  (exists e s', inner_pass inp s = PassRaise e s') \/
  exists s1, render (random inp) s = Some s1 /\
    let s2 := parse (reply inp) s1 in
    (closest s2 = Some PyNone /\ inner_pass inp s = retry s2) \/
    (exists z, closest s2 = Some (PyNumber z) /\ inner_pass inp s = vote z s2).
Proof.
  unfold Sample.inner_pass.
  destruct (render (random inp) s) as [s1|]; [|left; eauto].
  destruct (closest (parse (reply inp) s1)) as [[| z |]|] eqn:Hc;
    try (left; eauto; fail); right; exists s1; cbn zeta; rewrite Hc; eauto.
Qed.

Lemma retry_fields s s' :
  retry s = PassContinue s' ->
  votes s' = votes s /\ identified_locations s' = identified_locations s /\
  iteration s' = iteration s /\ cursors s' = cursors s /\
  max_overlap_ratio s' = max_overlap_ratio s /\ heap s' = heap s /\
  py_pop (center_history s) = Some (center s', center_history s') /\
  py_pop (spread_history s) = Some (spread s', spread_history s') /\
  trace s' = trace s ++ [Retry (center s') (spread s')].
Proof.
  unfold retry.
  destruct (py_pop (center_history s)) as [[c ch]|];
    destruct (py_pop (spread_history s)) as [[sp sh]|]; try done.
  intros [= <-]. cbn. tauto.
Qed.

Lemma retry_not_break s mc s' : retry s <> PassBreak mc s'.
Proof.
  unfold retry.
  destruct (py_pop (center_history s)) as [[c ch]|];
    destruct (py_pop (spread_history s)) as [[sp sh]|]; done.
Qed.

(** What a vote writes. *)
Definition cast (z : Z) (s s' : state) : Prop :=
  votes s' = votes s ++ [z] /\ center s' = center s /\ spread s' = spread s /\
  iteration s' = iteration s /\
  identified_locations s' = identified_locations s /\
  center_history s' = center_history s /\
  spread_history s' = spread_history s /\
  cursors s' = cursors s /\ max_overlap_ratio s' = max_overlap_ratio s /\
  heap s' = heap s /\ trace s' = trace s ++ [Vote z] /\ closest s' = closest s.

Lemma vote_cases z s :
  exists mc s', most_common_1 (Counter (votes s')) = Some mc /\ cast z s s' /\
    ((CONSENSUS_THRESHOLD <= snd mc)%nat /\ vote z s = PassBreak mc s' \/
     (snd mc < CONSENSUS_THRESHOLD)%nat /\ vote z s = PassContinue s').
Proof.
  unfold vote.
  destruct (most_common_1 (Counter (votes s ++ [z]))) as [mc|] eqn:Hmc.
  - destruct (Nat.leb_spec CONSENSUS_THRESHOLD (snd mc)) as [Hle|Hlt].
    + eexists mc, _. split; [|split].
      3: { left. split; [exact Hle|reflexivity]. }
      all: first [exact Hmc | by repeat split].
    + eexists mc, _. split; [|split].
      3: { right. split; [exact Hlt|reflexivity]. }
      all: first [exact Hmc | by repeat split].
  - exfalso. rewrite Counter_snoc in Hmc.
    destruct (Counter (votes s)) as [|[k n] c]; cbn in Hmc; [done|].
    case_decide; done.
Qed.

(** What the end of an iteration writes. *)
Definition refined (loc : position) (s s' : state) : Prop :=
  center s' = loc /\ (spread s' = spread s * SPREAD_REDUCTION_FACTOR)%Q /\
  identified_locations s' = identified_locations s ++ [loc] /\
  center_history s' = center_history s /\
  spread_history s' = spread_history s /\
  votes s' = votes s /\ cursors s' = cursors s /\ closest s' = closest s /\
  max_overlap_ratio s' = max_overlap_ratio s /\ heap s' = heap s /\
  trace s' = trace s ++ [Refine loc (spread s')].

Lemma iteration_end_cases mc s :
  (py_index (cursors s) (fst mc - 1) = None /\
   iteration_end mc s = EndRaise IndexError s) \/
  exists loc s', py_index (cursors s) (fst mc - 1) = Some loc /\ refined loc s s' /\
    ((MAX_OVERLAP_RATIO < max_overlap_ratio s)%Q /\ iteration s' = iteration s /\
       iteration_end mc s = EndBreak s' \/
     (max_overlap_ratio s <= MAX_OVERLAP_RATIO)%Q /\ iteration s' = iteration s + 1 /\
       iteration_end mc s = EndNext s').
Proof.
  unfold iteration_end.
  destruct (py_index (cursors s) (fst mc - 1)) as [loc|]; [right|left; done].
  exists loc.
  destruct (max_overlap_ratio s ?= MAX_OVERLAP_RATIO)%Q eqn:Hcmp.
  - eexists. split; [done|]. split.
    2: { right. split; [|split; [|reflexivity]]; [|done].
         apply Qeq_alt in Hcmp. rewrite Hcmp. apply Qle_refl. }
    by repeat split.
  - eexists. split; [done|]. split.
    2: { right. split; [|split; [|reflexivity]]; [|done].
         apply Qlt_alt in Hcmp. by apply Qlt_le_weak. }
    by repeat split.
  - eexists. split; [done|]. split.
    2: { left. split; [|split; [|reflexivity]]; [|done].
         by apply Qgt_alt in Hcmp. }
    by repeat split.
Qed.


(** *** The two loops *)

(** Induction over the passes of a run on answers that satisfy [A]: [P]
    holds at the head of every pass and [Q] of whatever comes out. *)
Lemma run_ind (A : pass_input -> Prop) (P : state -> Prop) (Q : outcome -> Prop) :
  (forall s, P s -> Q (Running s)) ->
  (forall inp s, A inp -> P s ->
     match inner_pass inp s with
     | PassRaise e s' => Q (Raised e s')
     | PassContinue s' => P s'
     | PassBreak mc s1 =>
         match iteration_end mc s1 with
         | EndRaise e s' => Q (Raised e s')
         | EndBreak s' => Q (Exited Overlap s')
         | EndNext s2 =>
             match iteration_begin s2 with
             | None => Q (Exited MaxIterations s2)
             | Some s3 => P s3
             end
         end
     end) ->
  forall inputs s, Forall A inputs -> P s -> Q (run inputs s).
Proof.
  intros Hrun Hstep inputs.
  induction inputs as [|inp inputs IH]; intros s HA Hs; cbn; [auto|].
  apply Forall_cons in HA as [Hinp HA].
  specialize (Hstep inp s Hinp Hs).
  destruct (inner_pass inp s) as [s'|mc s1|e s']; [auto| |auto].
  destruct (iteration_end mc s1) as [s2|s'|e s']; [|auto|auto].
  destruct (iteration_begin s2) as [s3|]; auto.
Qed.

Lemma iteration_begin_cases s :
  (iteration_begin s = None /\
   exists m, max_iterations = Some m /\ m <> 0 /\ m < iteration s) \/
  exists s', iteration_begin s = Some s' /\
    center s' = center s /\ spread s' = spread s /\ iteration s' = iteration s /\
    identified_locations s' = identified_locations s /\
    center_history s' = center_history s ++ [center s] /\
    spread_history s' = spread_history s ++ [spread s] /\
    votes s' = [] /\ closest s' = closest s /\ heap s' = heap s /\
    trace s' = trace s /\
    match max_iterations with
    | Some m => m = 0 \/ iteration s <= m
    | None => True
    end /\
    max_overlap_ratio s' = 0%Q.
Proof.
  unfold Sample.iteration_begin. destruct max_iterations as [m|]; cbn.
  - destruct (Z.eqb_spec m 0) as [->|Hm]; cbn.
    + right. eexists. split; [done|]. repeat split; by left.
    + destruct (Z.ltb_spec m (iteration s)).
      * left. split; [done|]. by exists m.
      * right. eexists. split; [done|]. repeat split; by right.
  - right. eexists. split; [done|]. by repeat split.
Qed.

(** Once the outer loop has been left, later answers are not read. *)
Lemma run_exited_app inputs more s why s' :
  run inputs s = Exited why s' -> run (inputs ++ more) s = Exited why s'.
Proof.
  revert s. induction inputs as [|inp inputs IH]; intros s; cbn; [done|].
  destruct (inner_pass inp s) as [s1|mc s1|e s1]; [auto| |done].
  destruct (iteration_end mc s1) as [s2|s2|e s2]; [|done|done].
  destruct (iteration_begin s2) as [s3|]; auto.
Qed.


(** *** The spread *)

Lemma reduction_succ n :
  (SPREAD_REDUCTION_FACTOR ^ Z.of_nat (S n) ==
   SPREAD_REDUCTION_FACTOR ^ Z.of_nat n * SPREAD_REDUCTION_FACTOR)%Q.
Proof.
  rewrite Nat2Z.inj_succ. unfold Z.succ. rewrite Qpower_plus by done. reflexivity.
Qed.

Lemma reduction_pos n : (0 < SPREAD_REDUCTION_FACTOR ^ Z.of_nat n)%Q.
Proof.
  induction n as [|n IH]; [done|]. rewrite reduction_succ.
  unfold SPREAD_REDUCTION_FACTOR in *. lra.
Qed.

Lemma reduction_lt n n' :
  (n < n')%nat ->
  (SPREAD_REDUCTION_FACTOR ^ Z.of_nat n' < SPREAD_REDUCTION_FACTOR ^ Z.of_nat n)%Q.
Proof.
  induction 1 as [|n' Hle IH]; rewrite reduction_succ.
  - pose proof (reduction_pos n). unfold SPREAD_REDUCTION_FACTOR in *. lra.
  - pose proof (reduction_pos n'). unfold SPREAD_REDUCTION_FACTOR in *. lra.
Qed.

(** The state that an outcome carries, when the loop has not raised. *)
Definition reaches (o : outcome) (s : state) : Prop :=
  o = Running s \/ exists why, o = Exited why s.


(** *** The log of a run *)

(** What every pass logs first: the cursors generated for the region
    [(c, sp)], their picture [img] drawn from a copy of the screenshot with
    its overlap ratio [ov], and the query with that picture. *)
Definition pass_events (c : position) (sp : Q) (cs : list position)
    (copy img : nat) (ov : Q) : list event :=
  [Generate c sp cs; Render image copy cs img ov; Query img].

Lemma render_effects random s s1 pic :
  render random s = Some s1 -> heap s !! image = Some pic ->
  exists copy img ov, copy <> image /\ img <> image /\
    (forall k v, heap s !! k = Some v -> heap s1 !! k = Some v) /\
    heap s1 !! copy = Some pic /\
    max_overlap_ratio s1 = py_max ov (max_overlap_ratio s) /\
    trace s1 = trace s ++ pass_events (center s) (spread s) (cursors s1) copy img ov.
Proof.
  unfold Sample.render. destruct (image_copy image (heap s)) as [copy h] eqn:Hcopy.
  destruct (draw_labelled_cursors _ _ _ _ _ _ _ _ _ _) as [[[img ov] h']|] eqn:Hdraw;
    [|done].
  cbn. intros [= <-] Himg. cbn.
  destruct (alloc_lookup _ _ _ _ _ _ Hcopy Himg) as [Himg1 Hne1].
  destruct (draw_labelled_cursors_lookup _ _ _ _ _ _ _ _ _ _ _ _ _ _ _ Hdraw Himg1)
    as [Himg2 Hne2].
  assert (Hnew : h !! copy = Some pic).
  { unfold image_copy, alloc in Hcopy. injection Hcopy as <- <-.
    rewrite lookup_insert_eq. f_equal.
    unfold lookup_total, map_lookup_total. by rewrite Himg. }
  exists copy, img, ov. split; [done|]. split; [done|]. split; [|split; [|done]].
  - intros k v Hk. destruct (alloc_lookup _ _ _ _ _ _ Hcopy Hk) as [Hk1 _].
    by destruct (draw_labelled_cursors_lookup _ _ _ _ _ _ _ _ _ _ _ _ _ _ _ Hdraw Hk1).
  - by destruct (draw_labelled_cursors_lookup _ _ _ _ _ _ _ _ _ _ _ _ _ _ _ Hdraw Hnew).
Qed.

Lemma render_total random s : is_Some (render random s).
Proof.
  unfold Sample.render, draw_labelled_cursors.
  destruct (image_copy image (heap s)) as [copy h].
  destruct (image_convert copy h) as [o1 h1].
  destruct (image_new _ _ _ h1) as [o2 h2].
  destruct (alpha_composite o1 o2 h2) as [o3 h3].
  destruct (image_convert o3 h3) as [o4 h4].
  match goal with |- context [draw_cursors ?t ?o ?fs ?rw ?rh ?ic ?lc [] ?cs ?h] =>
    destruct (draw_cursors_unlabelled t o fs rw rh ic lc cs h) as [[rs h5] ->] end.
  cbn. eauto.
Qed.

(** The cursors of a pass are those that [generate_cursors] makes of the
    centre and the spread, for some draws of [random.random()]. *)
Definition generated (c : position) (sp : Q) (cs : list position) : Prop :=
  exists random, cs = generate_cursors c sp width height default_jitter random.

(** The logs of the loop at the head of a pass, with the search region, the
    votes of the iteration and the two histories as they are there (every
    iteration begins by appending the centre and the spread to them).  A
    pass generates, renders and queries, in this order, and then either
    steps back ([Retry]) or votes.  The step back takes the last entry off
    each history and makes them the centre and the spread; no vote is cast.
    The region is refined right after the vote that brings a label to the
    threshold, and at no other time. *)
Inductive ordered :
  list event -> position -> Q -> list Z -> list position -> list Q -> Prop :=
| ordered_start :
    ordered [] (center initial) (spread initial) []
      [center initial] [spread initial]
| ordered_retry t c sp vs ch sh cs copy img ov c' sp' :
    ordered t c sp vs (ch ++ [c']) (sh ++ [sp']) ->
    generated c sp cs -> copy <> image -> img <> image ->
    ordered (t ++ pass_events c sp cs copy img ov ++ [Retry c' sp']) c' sp' vs ch sh
| ordered_vote t c sp vs ch sh cs copy img ov z :
    ordered t c sp vs ch sh ->
    generated c sp cs -> copy <> image -> img <> image ->
    (forall l, tally l (vs ++ [z]) < CONSENSUS_THRESHOLD)%nat ->
    ordered (t ++ pass_events c sp cs copy img ov ++ [Vote z]) c sp (vs ++ [z]) ch sh
| ordered_refine t c sp vs ch sh cs copy img ov z loc :
    ordered t c sp vs ch sh ->
    generated c sp cs -> copy <> image -> img <> image ->
    (CONSENSUS_THRESHOLD <= tally z (vs ++ [z]))%nat ->
    py_index cs (z - 1) = Some loc ->
    ordered (t ++ pass_events c sp cs copy img ov
               ++ [Vote z; Refine loc (sp * SPREAD_REDUCTION_FACTOR)])
      loc (sp * SPREAD_REDUCTION_FACTOR)%Q []
      (ch ++ [loc]) (sh ++ [(sp * SPREAD_REDUCTION_FACTOR)%Q]).

(** The log of a run that raised: an ordered log and the pass under way. *)
Definition interrupted (t : list event) : Prop :=
  exists t0 c sp vs ch sh, ordered t0 c sp vs ch sh /\
    (t = t0 \/
     exists cs copy img ov, generated c sp cs /\ copy <> image /\ img <> image /\
       (t = t0 ++ pass_events c sp cs copy img ov \/
        exists z, t = t0 ++ pass_events c sp cs copy img ov ++ [Vote z])).

(** The overlap ratios logged since the last refinement, oldest first, and
    the largest of them as the loop computes it. *)
Definition note_overlap (acc : list Q) (e : event) : list Q :=
  match e with
  | Render _ _ _ _ ov => acc ++ [ov]
  | Refine _ _ => []
  | _ => acc
  end.

Definition iteration_overlaps (t : list event) : list Q := fold_left note_overlap t [].

Definition largest (ovs : list Q) : Q := fold_left (fun m ov => py_max ov m) ovs 0%Q.

Lemma iteration_overlaps_pass t c sp cs copy img ov rest :
  Forall (fun e => match e with Vote _ | Retry _ _ => True | _ => False end) rest ->
  iteration_overlaps (t ++ pass_events c sp cs copy img ov ++ rest) =
  iteration_overlaps t ++ [ov].
Proof.
  intros Hrest. unfold iteration_overlaps. rewrite !fold_left_app. cbn.
  induction Hrest as [|e rest He _ IH]; cbn; [done|].
  destruct e; try done.
Qed.

Lemma largest_snoc ovs ov : largest (ovs ++ [ov]) = py_max ov (largest ovs).
Proof. unfold largest. by rewrite fold_left_app. Qed.

(** Every picture was rendered from a copy of the screenshot object, and
    the copies still hold the picture of the screenshot. *)
Definition copies_intact (t : list event) (h : store) : Prop :=
  forall b copy cs img ov,
    Render b copy cs img ov ∈ t -> b = image /\ h !! copy = Some screenshot.

Lemma copies_intact_app t h rest :
  copies_intact t h ->
  Forall (fun e => match e with Render _ _ _ _ _ => False | _ => True end) rest ->
  copies_intact (t ++ rest) h.
Proof.
  intros Ht Hrest b copy cs img ov [Hin|Hin]%elem_of_app;
    [exact (Ht _ _ _ _ _ Hin)|].
  rewrite Forall_forall in Hrest. by apply Hrest in Hin.
Qed.

Lemma copies_intact_pass t h h' c sp cs copy img ov :
  copies_intact t h ->
  (forall k v, h !! k = Some v -> h' !! k = Some v) ->
  h' !! copy = Some screenshot ->
  copies_intact (t ++ pass_events c sp cs copy img ov) h'.
Proof.
  intros Ht Hkeep Hcopy b copy' cs' img' ov' [Hin|Hin]%elem_of_app.
  - destruct (Ht _ _ _ _ _ Hin) as [-> Hc]. split; [done|]. by apply Hkeep.
  - unfold pass_events in Hin. rewrite !elem_of_cons, elem_of_nil in Hin.
    destruct Hin as [[=]|[[= -> -> -> -> ->]|[[=]|[]]]]. done.
Qed.

(** What holds at the head of every pass. *)
Definition at_head (s : state) : Prop :=
  heap s !! image = Some screenshot /\
  ordered (trace s) (center s) (spread s) (votes s)
    (center_history s) (spread_history s) /\
  (forall l, (tally l (votes s) < CONSENSUS_THRESHOLD)%nat) /\
  max_overlap_ratio s = largest (iteration_overlaps (trace s)) /\
  copies_intact (trace s) (heap s).

(** What holds of whatever comes out of the loop. *)
Definition at_exit (o : outcome) : Prop :=
  match o with
  | Running s => at_head s
  | Exited why s =>
      heap s !! image = Some screenshot /\
      (exists vs, ordered (trace s) (center s) (spread s) vs
                    (center_history s ++ [center s])
                    (spread_history s ++ [spread s])) /\
      (why = Overlap ->
       exists t loc sp, trace s = t ++ [Refine loc sp] /\
         max_overlap_ratio s = largest (iteration_overlaps t)) /\
      copies_intact (trace s) (heap s)
  | Raised _ s =>
      heap s !! image = Some screenshot /\ interrupted (trace s) /\
      copies_intact (trace s) (heap s)
  end.

Lemma run_log inputs s : at_head s -> at_exit (run inputs s).
Proof.
  apply (run_ind (fun _ => True)); [done| |by apply Forall_true].
  clear s. intros inp s _ (Hheap & Hord & Hlt & Hmax & Hci).
  unfold Sample.inner_pass.
  destruct (render_total (random inp) s) as [s1 Hr]. rewrite Hr.
  destruct (render_effects _ _ _ _ Hr Hheap)
    as (copy & img & ov & Hcopy & Himg & Hkeep & Hnew & Hmax1 & Htr1).
  pose proof (Hkeep _ _ Hheap) as Hheap1.
  assert (Hci1 : copies_intact (trace s1) (heap s1)).
  { rewrite Htr1. by apply (copies_intact_pass _ (heap s)). }
  apply render_fields in Hr as (Hc1 & Hsp1 & _ & _ & Hch1 & Hsh1 & Hv1 & _ & _ & Hcs1).
  assert (Hgen : generated (center s) (spread s) (cursors s1))
    by (by exists (random inp)).
  set (s2 := parse (reply inp) s1).
  assert (Hint : interrupted (trace s2)).
  { exists (trace s), (center s), (spread s), (votes s),
      (center_history s), (spread_history s). split; [done|].
    right. exists (cursors s1), copy, img, ov. split; [done|]. split; [done|].
    split; [done|]. by left. }
  destruct (closest s2) as [[| z |]|] eqn:Hcl; [| |done|done].
  - (* closest is None *)
    destruct (retry s2) as [s3| |] eqn:Hretry;
      [|by apply retry_not_break in Hretry|].
    + apply retry_fields in Hretry
        as (Hv3 & _ & _ & _ & Hmax3 & Hheap3 & Hch3 & Hsh3 & Htr3).
      assert (Hci3 : copies_intact (trace s3) (heap s3)).
      { rewrite Htr3, Hheap3. apply copies_intact_app; [exact Hci1|].
        by repeat constructor. }
      change (trace s2) with (trace s1) in Htr3. rewrite Htr1, <- app_assoc in Htr3.
      change (votes s2) with (votes s1) in Hv3. rewrite Hv1 in Hv3.
      change (max_overlap_ratio s2) with (max_overlap_ratio s1) in Hmax3.
      change (center_history s2) with (center_history s1) in Hch3.
      change (spread_history s2) with (spread_history s1) in Hsh3.
      rewrite Hch1 in Hch3. rewrite Hsh1 in Hsh3.
      apply py_pop_Some in Hch3, Hsh3.
      split; [by rewrite Hheap3|]. split; [|split; [|split; [|done]]].
      * rewrite Htr3, Hv3. apply ordered_retry; try done.
        by rewrite <- Hch3, <- Hsh3.
      * intros l. rewrite Hv3. apply Hlt.
      * rewrite Hmax3, Hmax1, Hmax, Htr3.
        rewrite iteration_overlaps_pass by (by repeat constructor).
        by rewrite largest_snoc.
    + unfold retry in Hretry.
      destruct (py_pop (center_history s2)) as [[??]|];
        destruct (py_pop (spread_history s2)) as [[??]|];
        inversion Hretry; subst; done.
  - (* a vote *)
    destruct (vote_cases z s2) as (mc & s3 & Hmc & Hcast & Hvote).
    destruct Hcast
      as (Hv3 & Hc3 & Hsp3 & _ & _ & Hch3 & Hsh3 & Hcs3 & Hmax3 & Hheap3 & Htr3 & _).
    assert (Hci3 : copies_intact (trace s3) (heap s3)).
    { rewrite Htr3, Hheap3. apply copies_intact_app; [exact Hci1|].
      by repeat constructor. }
    change (votes s2) with (votes s1) in Hv3. rewrite Hv1 in Hv3.
    change (center s2) with (center s1) in Hc3. rewrite Hc1 in Hc3.
    change (spread s2) with (spread s1) in Hsp3. rewrite Hsp1 in Hsp3.
    change (center_history s2) with (center_history s1) in Hch3. rewrite Hch1 in Hch3.
    change (spread_history s2) with (spread_history s1) in Hsh3. rewrite Hsh1 in Hsh3.
    change (cursors s2) with (cursors s1) in Hcs3.
    change (trace s2) with (trace s1) in Htr3. rewrite Htr1, <- app_assoc in Htr3.
    change (heap s2) with (heap s1) in Hheap3.
    change (max_overlap_ratio s2) with (max_overlap_ratio s1) in Hmax3.
    assert (Hmax3' : max_overlap_ratio s3 = largest (iteration_overlaps (trace s3))).
    { rewrite Hmax3, Hmax1, Hmax, Htr3.
      rewrite iteration_overlaps_pass by (by repeat constructor).
      by rewrite largest_snoc. }
    destruct mc as [label n].
    pose proof (most_common_1_Counter _ _ _ Hmc) as [Hn Hmost].
    rewrite Hv3 in Hn, Hmost.
    destruct Hvote as [[Hle ->]|[Hlt' ->]]; cbn in Hle || cbn in Hlt'.
    2: { split; [by rewrite Hheap3|]. split; [|split; [|done]].
         - rewrite Htr3, Hc3, Hsp3, Hv3, Hch3, Hsh3.
           apply ordered_vote; try done.
           intros l. specialize (Hmost l). lia.
         - intros l. rewrite Hv3. specialize (Hmost l). lia. }
    assert (label = z) as ->.
    { destruct (decide (z = label)) as [|Hne]; [done|exfalso].
      rewrite tally_snoc, decide_False in Hn by done.
      specialize (Hlt label). lia. }
    destruct (iteration_end_cases (z, n) s3)
      as [[_ ->]|(loc & s4 & Hidx & Href & Hend)].
    { split; [by rewrite Hheap3|]. split; [|done].
      exists (trace s), (center s), (spread s), (votes s),
        (center_history s), (spread_history s). split; [done|].
      right. exists (cursors s1), copy, img, ov. split; [done|]. split; [done|].
      split; [done|]. right. by exists z. }
    destruct Href
      as (Hc4 & Hsp4 & _ & Hch4 & Hsh4 & Hv4 & _ & _ & Hmax4 & Hheap4 & Htr4).
    assert (Hci4 : copies_intact (trace s4) (heap s4)).
    { rewrite Htr4, Hheap4. apply copies_intact_app; [exact Hci3|].
      by repeat constructor. }
    assert (Hord4 : ordered (trace s4) (center s4) (spread s4) []
                      (center_history s4 ++ [center s4])
                      (spread_history s4 ++ [spread s4])).
    { rewrite Hch4, Hsh4, Hch3, Hsh3.
      rewrite Htr4, Hsp4, Hc4, Htr3, Hsp3, <- !app_assoc. cbn [app].
      rewrite Hcs3 in Hidx.
      change ([Generate (center s) (spread s) (cursors s1);
               Render image copy (cursors s1) img ov; Query img; Vote z;
               Refine loc (spread s * SPREAD_REDUCTION_FACTOR)%Q])
        with (pass_events (center s) (spread s) (cursors s1) copy img ov
                ++ [Vote z; Refine loc (spread s * SPREAD_REDUCTION_FACTOR)%Q]).
      eapply ordered_refine; try done. by rewrite <- Hn. }
    assert (Hheap' : heap s4 !! image = Some screenshot) by (by rewrite Hheap4, Hheap3).
    destruct Hend as [(_ & _ & ->)|(_ & _ & ->)].
    { split; [done|]. split; [by exists []|]. split; [|done]. intros _.
      exists (trace s3), loc, (spread s4). split; [done|]. by rewrite Hmax4. }
    destruct (iteration_begin_cases s4)
      as [[-> _]|(s5 & -> & Hc5 & Hsp5 & _ & _ & Hch5 & Hsh5 & Hv5 & _ & Hheap5 & Htr5 & _ & Hmax5)].
    { split; [done|]. split; [by exists []|]. done. }
    split; [by rewrite Hheap5|]. split; [|split; [|split]].
    + by rewrite Htr5, Hc5, Hsp5, Hv5, Hch5, Hsh5.
    + intros l. rewrite Hv5. cbn. unfold CONSENSUS_THRESHOLD. lia.
    + rewrite Hmax5, Htr5, Htr4. unfold iteration_overlaps.
      by rewrite fold_left_app.
    + by rewrite Htr5, Hheap5.
Qed.

Lemma main_log inputs : at_exit (main_loop inputs).
Proof.
  assert (Hnone : copies_intact [] (heap initial)).
  { intros b copy cs img ov Hin. by apply elem_of_nil in Hin. }
  unfold Sample.main_loop.
  destruct (iteration_begin_cases initial)
    as [[-> _]|(s0 & -> & Hc & Hsp & _ & _ & Hch & Hsh & Hv & _ & Hheap & Htr & _ & Hmax)].
  - split; [apply lookup_singleton_eq|]. split; [exists []; apply ordered_start|done].
  - apply run_log. split; [rewrite Hheap; apply lookup_singleton_eq|].
    split; [|split; [|split]].
    + rewrite Htr, Hc, Hsp, Hv, Hch, Hsh. apply ordered_start.
    + intros l. rewrite Hv. cbn. unfold CONSENSUS_THRESHOLD. lia.
    + by rewrite Hmax, Htr.
    + by rewrite Htr, Hheap.
Qed.

(** *** The loop, as specified *)

(** C1. A pass of the inner loop leaves it only with a label voted at least
    [CONSENSUS_THRESHOLD] = 2 times in this iteration: the label it leaves
    with is the first entry of [Counter(votes).most_common(1)], its count is
    the number of votes cast for it and no label has more; a pass that votes
    and stays in the loop leaves every label under the threshold.  The
    location identified after the loop is [cursors[label - 1]], taken from
    the four cursors generated in the last pass: for a label from 1 to
    [NUM_CURSORS] it is the cursor of that number, counted from 1 in the
    order of generation, so that such a label always identifies a
    location; for a label from -3 to 0 Python's negative index counts from
    the end of the list; any other label raises [IndexError].  The location
    becomes the centre and is what the iteration appends.  At the head of
    every pass of a run no label has reached the threshold. *)
Theorem consensus_by_counting inp s :
  (forall mc s', inner_pass inp s = PassBreak mc s' ->
     most_common_1 (Counter (votes s')) = Some mc /\
     snd mc = tally (fst mc) (votes s') /\
     (CONSENSUS_THRESHOLD <= snd mc)%nat /\
     (forall l, tally l (votes s') <= snd mc)%nat /\
     cursors s' =
       generate_cursors (center s) (spread s) width height default_jitter (random inp) /\
     length (cursors s') = Z.to_nat NUM_CURSORS /\
     match iteration_end mc s' with
     | EndNext s'' | EndBreak s'' =>
         identified_locations s'' = identified_locations s' ++ [center s''] /\
         (1 <= fst mc <= NUM_CURSORS /\
            cursors s' !! Z.to_nat (fst mc - 1) = Some (center s'') \/
          1 - NUM_CURSORS <= fst mc <= 0 /\
            cursors s' !! Z.to_nat (fst mc - 1 + NUM_CURSORS) = Some (center s''))
     | EndRaise e _ =>
         e = IndexError /\ (fst mc < 1 - NUM_CURSORS \/ NUM_CURSORS < fst mc)
     end) /\
  (forall s', inner_pass inp s = PassContinue s' ->
     (forall l, tally l (votes s) < CONSENSUS_THRESHOLD)%nat ->
     (forall l, tally l (votes s') < CONSENSUS_THRESHOLD)%nat) /\
  (forall inputs s0, main_loop inputs = Running s0 ->
     forall l, (tally l (votes s0) < CONSENSUS_THRESHOLD)%nat).
Proof.
  assert (Hhead : forall inputs s0, main_loop inputs = Running s0 ->
            forall l, (tally l (votes s0) < CONSENSUS_THRESHOLD)%nat).
  { intros inputs s0 Hs0. pose proof (main_log inputs) as Hlog.
    rewrite Hs0 in Hlog. apply Hlog. }
  match goal with
  | |- ?A /\ ?B /\ _ =>
      cut (A /\ B);
      [intros [? ?]; split; [assumption|split; [assumption|exact Hhead]]|]
  end.
  clear Hhead.
  destruct (inner_pass_cases inp s) as [(e & s0 & Hp)|(s1 & Hr & Hcase)].
  { split; intros; congruence. }
  apply render_fields in Hr as (Hc & Hsp & _ & _ & _ & _ & Hv & _ & _ & Hcs).
  pose proof (parse_fields (reply inp) s1) as (_ & _ & _ & _ & _ & _ & Hv' & Hcs' & _).
  cbn zeta in Hcase. destruct Hcase as [[_ Hp]|(z & _ & Hp)]; rewrite Hp.
  - split; [intros mc s' H; by apply retry_not_break in H|].
    intros s' (Hvs & _)%retry_fields Hlt l. rewrite Hvs, Hv', Hv. apply Hlt.
  - destruct (vote_cases z (parse (reply inp) s1))
      as (mc & s2 & Hmc & Hcast & [[Hle Hvote]|[Hlt Hvote]]);
      rewrite Hvote; (split; [intros mc' s' [= <- <-] | intros s' [= <-]]).
    + destruct mc as [label n].
      pose proof (most_common_1_Counter _ _ _ Hmc) as [Hn Hmax].
      destruct Hcast as (_ & _ & _ & _ & _ & _ & _ & Hcs2 & _).
      assert (Hgen : cursors s2 =
        generate_cursors (center s) (spread s) width height default_jitter (random inp))
        by congruence.
      assert (Hlen : length (cursors s2) = Z.to_nat NUM_CURSORS).
      { by rewrite Hgen, generate_cursors_cells. }
      split; [done|]. split; [done|]. split; [done|]. split; [done|].
      split; [done|]. split; [done|].
      pose proof (py_index_lookup (cursors s2) (label - 1)) as Hidx.
      rewrite Hlen in Hidx. change (Z.of_nat (Z.to_nat NUM_CURSORS)) with NUM_CURSORS in Hidx.
      cbn [fst].
      destruct (iteration_end_cases (label, n) s2)
        as [[Hnone ->]|(loc & s3 & Hsome & Href & [(_ & _ & ->)|(_ & _ & ->)])];
        cbn [fst] in *.
      * split; [done|]. rewrite Hnone in Hidx. lia.
      * destruct Href as (-> & _ & -> & _). split; [done|].
        rewrite Hsome in Hidx.
        destruct Hidx as [[? ?]|[? ?]]; [left|right]; (split; [lia|]); [done|].
        by replace (label - 1 + NUM_CURSORS) with (NUM_CURSORS + (label - 1)) by lia.
      * destruct Href as (-> & _ & -> & _). split; [done|].
        rewrite Hsome in Hidx.
        destruct Hidx as [[? ?]|[? ?]]; [left|right]; (split; [lia|]); [done|].
        by replace (label - 1 + NUM_CURSORS) with (NUM_CURSORS + (label - 1)) by lia.
    + intros _ l. destruct mc as [label n].
      pose proof (most_common_1_Counter _ _ _ Hmc) as [Hn Hmax].
      specialize (Hmax l). cbn in Hlt. lia.
Qed.

(** C2. The outer loop is left by a [break] in two ways only: at the end of
    an iteration whose maximum overlap ratio is above [MAX_OVERLAP_RATIO]
    = 0.2, or at the head of an iteration when [MAX_ITERATIONS] is set (not
    [None], not 0) and the iteration count is above it; once it is left no
    further answer is read.  The end of an iteration appends one identified
    location and then tests the overlap: it leaves the loop exactly when the
    ratio is above 0.2, and otherwise counts the iteration, so that the
    number of locations is the number of completed iterations.  The ratio
    tested is the largest of the overlap ratios of the pictures rendered
    in the iteration. *)
Theorem outer_loop_exit inputs :
  (forall why s, main_loop inputs = Exited why s ->
     match why with
     | Overlap => (MAX_OVERLAP_RATIO < max_overlap_ratio s)%Q
     | MaxIterations =>
         exists m, max_iterations = Some m /\ m <> 0 /\ m < iteration s
     end /\
     forall more, main_loop (inputs ++ more) = Exited why s) /\
  (forall mc s,
     match iteration_end mc s with
     | EndBreak s' =>
         (MAX_OVERLAP_RATIO < max_overlap_ratio s)%Q /\
         exists loc, identified_locations s' = identified_locations s ++ [loc]
     | EndNext s' =>
         (max_overlap_ratio s <= MAX_OVERLAP_RATIO)%Q /\
         exists loc, identified_locations s' = identified_locations s ++ [loc]
     | EndRaise _ s' => s' = s
     end) /\
  (forall s, main_loop inputs = Running s ->
     iteration s = Z.of_nat (length (identified_locations s)) + 1) /\
  (forall s, main_loop inputs = Exited Overlap s ->
     iteration s = Z.of_nat (length (identified_locations s)) /\
     exists t loc sp, trace s = t ++ [Refine loc sp] /\
       max_overlap_ratio s = largest (iteration_overlaps t)) /\
  (forall s, main_loop inputs = Running s ->
     max_overlap_ratio s = largest (iteration_overlaps (trace s))).
Proof.
  pose proof (main_log inputs) as Hlog.
  assert (Hend : forall mc s,
    match iteration_end mc s with
    | EndBreak s' =>
        (MAX_OVERLAP_RATIO < max_overlap_ratio s)%Q /\
        exists loc, identified_locations s' = identified_locations s ++ [loc]
    | EndNext s' =>
        (max_overlap_ratio s <= MAX_OVERLAP_RATIO)%Q /\
        exists loc, identified_locations s' = identified_locations s ++ [loc]
    | EndRaise _ s' => s' = s
    end).
  { intros mc s.
    destruct (iteration_end_cases mc s)
      as [[_ ->]|(loc & s' & _ & Href & [(Hov & _ & ->)|(Hov & _ & ->)])];
      [done| |]; destruct Href as (_ & _ & Hids & _); eauto. }
  set (P := fun s : state =>
    iteration s = Z.of_nat (length (identified_locations s)) + 1).
  set (Q := fun o : outcome =>
    match o with
    | Running s => P s
    | Exited Overlap s =>
        (MAX_OVERLAP_RATIO < max_overlap_ratio s)%Q /\
        iteration s = Z.of_nat (length (identified_locations s))
    | Exited MaxIterations s =>
        exists m, max_iterations = Some m /\ m <> 0 /\ m < iteration s
    | Raised _ _ => True
    end).
  assert (Hrun : forall inputs s, P s -> Q (run inputs s)).
  { intros inputs' s. apply (run_ind (fun _ => True)); [done| |by apply Forall_true].
    clear s. intros inp s _ Hs.
    destruct (inner_pass_cases inp s) as [(e & s0 & ->)|(s1 & Hr & Hcase)]; [done|].
    apply render_fields in Hr as (_ & _ & Hit & Hids & _).
    pose proof (parse_fields (reply inp) s1) as (_ & _ & Hit' & Hids' & _).
    cbn zeta in Hcase. destruct Hcase as [[_ ->]|(z & _ & ->)].
    - destruct (retry (parse (reply inp) s1)) as [s'| |] eqn:Hretry; [|by apply retry_not_break in Hretry|done].
      apply retry_fields in Hretry as (_ & Hids2 & Hit2 & _).
      unfold P in *. congruence.
    - destruct (vote_cases z (parse (reply inp) s1))
        as (mc & s2 & _ & Hcast & [[_ ->]|[_ ->]]);
        destruct Hcast as (_ & _ & _ & Hit2 & Hids2 & _);
        [|unfold P in *; congruence].
      assert (P s2) as Hs2 by (unfold P in *; congruence).
      destruct (iteration_end_cases mc s2)
        as [[_ ->]|(loc & s3 & _ & Href & [(Hov & Hit3 & ->)|(Hov & Hit3 & ->)])];
        [done| |]; destruct Href as (_ & _ & Hids3 & _ & _ & _ & _ & _ & Hmax & _).
      + cbn. rewrite Hmax. split; [done|].
        rewrite Hit3, Hids3, length_app. cbn. unfold P in Hs2. lia.
      + destruct (iteration_begin_cases s3)
          as [[-> Hm]|(s4 & -> & _ & _ & Hit4 & Hids4 & _)]; [done|].
        unfold P in *. rewrite Hit4, Hids4, Hit3, Hids3, length_app. cbn. lia. }
  assert (Hmain : Q (main_loop inputs)).
  { unfold Sample.main_loop.
    destruct (iteration_begin_cases initial)
      as [[-> Hm]|(s0 & -> & _ & _ & Hit & Hids & _)]; [done|].
    apply Hrun. unfold P. by rewrite Hit, Hids. }
  split; [|split; [exact Hend|split; [|split]]].
  - intros why s Hex. rewrite Hex in Hmain. split.
    + destruct why; [done|]. apply Hmain.
    + intros more. revert Hex. unfold Sample.main_loop.
      destruct (iteration_begin initial); [apply run_exited_app|done].
  - intros s Hex. by rewrite Hex in Hmain.
  - intros s Hex. rewrite Hex in Hmain, Hlog. split; [apply Hmain|].
    by apply Hlog.
  - intros s Hex. rewrite Hex in Hlog. apply Hlog.
Qed.

(** *** Steps back *)

(** The steps back that a log records: those since the last refinement,
    and the most that any one iteration has taken. *)
Definition note_step_back (acc : nat * nat) (e : event) : nat * nat :=
  match e with
  | Retry _ _ => (S acc.1, Nat.max (S acc.1) acc.2)
  | Refine _ _ => (0%nat, acc.2)
  | _ => acc
  end.

Definition steps_back (t : list event) : nat * nat :=
  fold_left note_step_back t (0%nat, 0%nat).

Definition most_steps_back (t : list event) : nat := (steps_back t).2.

Lemma steps_back_snoc t e : steps_back (t ++ [e]) = note_step_back (steps_back t) e.
Proof. unfold steps_back. by rewrite fold_left_app. Qed.

Lemma render_steps_back random s s1 :
  render random s = Some s1 -> steps_back (trace s1) = steps_back (trace s).
Proof.
  unfold Sample.render. destruct (image_copy _ _) as [copy h].
  destruct (draw_labelled_cursors _ _ _ _ _ _ _ _ _ _) as [[[ci ov] h']|];
    [|done].
  cbn. intros [= <-]. cbn [trace]. unfold steps_back. by rewrite fold_left_app.
Qed.

(** A history of spreads in which no entry is below a later one. *)
Inductive stacked : list Q -> Prop :=
| stacked_nil : stacked []
| stacked_snoc sh y :
    stacked sh -> Forall (fun x => (y <= x)%Q) sh -> stacked (sh ++ [y]).

Lemma stacked_inv sh y :
  stacked (sh ++ [y]) -> stacked sh /\ Forall (fun x => (y <= x)%Q) sh.
Proof.
  inversion 1 as [E|sh' y' Hsh Hall E].
  - by destruct sh.
  - by apply app_inj_tail in E as [-> ->].
Qed.

(** What holds of the spread at the head of a pass.  While no iteration has
    stepped back twice the spread is [0.5 ^ n] after [n] iterations and
    every older level of the history is above it: the level on top is the
    one that the iteration began with, until the iteration steps back.
    Once an iteration has stepped back twice the spread is above
    [0.5 ^ n], for good. *)
Definition level (s : state) : Prop :=
  let n := length (identified_locations s) in
  let r := (steps_back (trace s)).1 in
  let m := (steps_back (trace s)).2 in
  (r <= m)%nat /\ stacked (spread_history s) /\
  ((m <= 1)%nat /\ (spread s == SPREAD_REDUCTION_FACTOR ^ Z.of_nat n)%Q /\
     match r with
     | O => exists sh y, spread_history s = sh ++ [y] /\ (y == spread s)%Q /\
              Forall (fun x => (spread s < x)%Q) sh
     | S _ => Forall (fun x => (spread s < x)%Q) (spread_history s)
     end \/
   (2 <= m)%nat /\ (SPREAD_REDUCTION_FACTOR ^ Z.of_nat n < spread s)%Q /\
     Forall (fun x => (spread s <= x)%Q) (spread_history s)).

(** What holds of the spread wherever the loop stands or has been left. *)
Definition verdict (s : state) : Prop :=
  let n := length (identified_locations s) in
  (most_steps_back (trace s) <= 1)%nat /\
    (spread s == SPREAD_REDUCTION_FACTOR ^ Z.of_nat n)%Q \/
  (2 <= most_steps_back (trace s))%nat /\
    (SPREAD_REDUCTION_FACTOR ^ Z.of_nat n < spread s)%Q.

Lemma level_verdict s : level s -> verdict s.
Proof.
  unfold level, verdict, most_steps_back. cbn zeta.
  intros (_ & _ & [(? & ? & _)|(? & ? & _)]); [by left|by right].
Qed.

Lemma run_level inputs s :
  level s ->
  match run inputs s with
  | Running s' => level s'
  | Exited _ s' => verdict s'
  | Raised _ _ => True
  end.
Proof.
  apply (run_ind (fun _ => True)
           level
           (fun o => match o with
                     | Running s' => level s'
                     | Exited _ s' => verdict s'
                     | Raised _ _ => True
                     end)); [done| |by apply Forall_true].
  clear s. intros inp s _ Hs.
  destruct (inner_pass_cases inp s) as [(e & s0 & ->)|(s1 & Hr & Hcase)]; [done|].
  pose proof (render_steps_back _ _ _ Hr) as Hsb1.
  apply render_fields in Hr as (_ & Hsp1 & _ & Hids1 & _ & Hsh1 & _).
  assert (Hs2 : level (parse (reply inp) s1)).
  { unfold level in *. cbn [trace parse identified_locations spread spread_history].
    by rewrite Hsb1, Hids1, Hsp1, Hsh1. }
  clear Hs Hsb1 Hsp1 Hids1 Hsh1.
  cbn zeta in Hcase. set (s2 := parse (reply inp) s1) in *. clearbody s2.
  destruct Hcase as [[_ ->]|(z & _ & ->)].
  - (* a step back *)
    destruct (retry s2) as [s3| |] eqn:Hretry;
      [|by apply retry_not_break in Hretry|done].
    apply retry_fields in Hretry as (_ & Hids3 & _ & _ & _ & _ & _ & Hsh3 & Htr3).
    apply py_pop_Some in Hsh3.
    unfold level in *. cbn zeta in *.
    rewrite Htr3, steps_back_snoc, Hids3. cbn [note_step_back fst snd].
    destruct (steps_back (trace s2)) as [r m]. cbn [fst snd] in *.
    destruct Hs2 as (Hrm & Hst & Hcase). rewrite Hsh3 in Hst, Hcase.
    apply stacked_inv in Hst as [Hst Hall].
    split; [lia|]. split; [exact Hst|].
    destruct Hcase as [(Hm & Hsp & Hr)|(Hm & Hsp & Hr)].
    + destruct r as [|r].
      * left. destruct Hr as (sh & y & E & Hy & Hsh).
        apply app_inj_tail in E as [<- <-].
        split; [lia|]. split; [by rewrite Hy|].
        eapply Forall_impl; [exact Hsh|]. intros x Hx. cbn in Hx. by rewrite Hy.
      * right. apply Forall_app in Hr as [Hr Hy].
        rewrite Forall_singleton in Hy. split; [lia|]. split; [|exact Hall].
        rewrite <- Hsp. exact Hy.
    + right. apply Forall_app in Hr as [Hr Hy]. rewrite Forall_singleton in Hy.
      split; [lia|]. split; [|exact Hall]. eapply Qlt_le_trans; [exact Hsp|exact Hy].
  - (* a vote *)
    destruct (vote_cases z s2) as (mc & s3 & _ & Hcast & Hvote).
    destruct Hcast as (_ & _ & Hsp3 & _ & Hids3 & _ & Hsh3 & _ & _ & _ & Htr3 & _).
    assert (Hs3 : level s3).
    { unfold level in *. cbn zeta in *.
      rewrite Htr3, steps_back_snoc, Hids3, Hsp3, Hsh3. exact Hs2. }
    destruct Hvote as [[_ ->]|[_ ->]]; [|exact Hs3].
    clear Hs2 Hsp3 Hids3 Hsh3 Htr3.
    destruct (iteration_end_cases mc s3)
      as [[_ ->]|(loc & s4 & _ & Href & Hend)]; [done|].
    destruct Href as (_ & Hsp4 & Hids4 & _ & Hsh4 & _ & _ & _ & _ & _ & Htr4).
    pose proof (reduction_pos (length (identified_locations s3))) as Hpos.
    assert (Hs4 :
      let n := length (identified_locations s4) in
      let m := (steps_back (trace s4)).2 in
      (steps_back (trace s4)).1 = 0%nat /\
      stacked (spread_history s4 ++ [spread s4]) /\
      ((m <= 1)%nat /\ (spread s4 == SPREAD_REDUCTION_FACTOR ^ Z.of_nat n)%Q /\
         Forall (fun x => (spread s4 < x)%Q) (spread_history s4) \/
       (2 <= m)%nat /\ (SPREAD_REDUCTION_FACTOR ^ Z.of_nat n < spread s4)%Q /\
         Forall (fun x => (spread s4 <= x)%Q) (spread_history s4))).
    { unfold level in Hs3. cbn zeta in *.
      rewrite Htr4, steps_back_snoc, Hids4, Hsh4, Hsp4, length_app, Nat.add_1_r.
      cbn [note_step_back fst snd]. rewrite reduction_succ.
      destruct (steps_back (trace s3)) as [r m]. cbn [fst snd] in *.
      destruct Hs3 as (Hrm & Hst & Hcase).
      assert (Hhalf : forall x, (spread s3 <= x)%Q -> (0 < spread s3)%Q ->
                (spread s3 * SPREAD_REDUCTION_FACTOR < x)%Q).
      { intros x Hx H0. unfold SPREAD_REDUCTION_FACTOR. lra. }
      split; [done|].
      destruct Hcase as [(Hm & Hsp & Hr)|(Hm & Hsp & Hr)].
      - assert (H0 : (0 < spread s3)%Q) by (by rewrite Hsp).
        assert (Hall : Forall (fun x => (spread s3 <= x)%Q) (spread_history s3)).
        { destruct r as [|r].
          - destruct Hr as (sh & y & -> & Hy & Hsh). apply Forall_app. split.
            + eapply Forall_impl; [exact Hsh|]. intros x Hx. by apply Qlt_le_weak.
            + apply Forall_singleton. rewrite Hy. apply Qle_refl.
          - eapply Forall_impl; [exact Hr|]. intros x Hx. by apply Qlt_le_weak. }
        assert (Hbelow : Forall (fun x => (spread s3 * SPREAD_REDUCTION_FACTOR < x)%Q)
                           (spread_history s3)).
        { eapply Forall_impl; [exact Hall|]. intros x Hx. by apply Hhalf. }
        split.
        { apply stacked_snoc; [done|]. eapply Forall_impl; [exact Hbelow|].
          intros x Hx. by apply Qlt_le_weak. }
        left. split; [done|]. split; [by rewrite Hsp|done].
      - assert (H0 : (0 < spread s3)%Q) by (eapply Qlt_trans; [exact Hpos|exact Hsp]).
        assert (Hbelow : Forall (fun x => (spread s3 * SPREAD_REDUCTION_FACTOR < x)%Q)
                           (spread_history s3)).
        { eapply Forall_impl; [exact Hr|]. intros x Hx. by apply Hhalf. }
        assert (Hweak : Forall (fun x => (spread s3 * SPREAD_REDUCTION_FACTOR <= x)%Q)
                           (spread_history s3)).
        { eapply Forall_impl; [exact Hbelow|]. intros x Hx. by apply Qlt_le_weak. }
        split; [by apply stacked_snoc|].
        right. split; [done|]. split; [|done].
        unfold SPREAD_REDUCTION_FACTOR in *. lra. }
    assert (Hv4 : verdict s4).
    { unfold verdict, most_steps_back. cbn zeta in *.
      destruct Hs4 as (_ & _ & [(? & ? & _)|(? & ? & _)]); [by left|by right]. }
    destruct Hend as [(_ & _ & ->)|(_ & _ & ->)]; [exact Hv4|].
    destruct (iteration_begin_cases s4)
      as [[-> _]|(s5 & -> & _ & Hsp5 & _ & Hids5 & _ & Hsh5 & _ & _ & _ & Htr5 & _)];
      [exact Hv4|].
    unfold level. cbn zeta in *. rewrite Htr5, Hids5, Hsp5, Hsh5.
    destruct Hs4 as (-> & Hst & Hcase). split; [lia|]. split; [exact Hst|].
    destruct Hcase as [(Hm & Hsp & Hr)|(Hm & Hsp & Hr)].
    + left. split; [done|]. split; [done|]. by eexists _, _.
    + right. split; [done|]. split; [done|]. apply Forall_app. split; [done|].
      apply Forall_singleton, Qle_refl.
Qed.

Lemma main_level inputs s : reaches (main_loop inputs) s -> verdict s.
Proof.
  assert (Hinit : verdict initial).
  { left. split; [cbn; lia|done]. }
  assert (Hmain : match main_loop inputs with
                  | Running s' | Exited _ s' => verdict s'
                  | Raised _ _ => True
                  end).
  { unfold Sample.main_loop.
    destruct (iteration_begin_cases initial)
      as [[-> _]|(s0 & -> & _ & Hsp & _ & Hids & _ & Hsh & _ & _ & _ & Htr & _)];
      [exact Hinit|].
    pose proof (run_level inputs s0) as Hrun.
    destruct (run inputs s0) as [s'|why s'|e s'];
      [apply level_verdict| |done]; apply Hrun.
    all: unfold level; cbn zeta; rewrite Htr, Hids, Hsp, Hsh; cbn.
    all: split; [lia|]; (split; [apply (stacked_snoc []); [constructor|constructor]|]).
    all: left; split; [lia|]; split; [done|]; by exists [], 1%Q. }
  intros [Ho|[why Ho]]; by rewrite Ho in Hmain.
Qed.

(** C3, amended. The end of an iteration puts the identified location
    [cursors[label - 1]] in [center] and multiplies [spread] by
    [SPREAD_REDUCTION_FACTOR] = 0.5.  The spread after [n] completed
    iterations is [0.5 ^ n] exactly as long as no iteration has stepped
    back to the history more than once: the first step back of an
    iteration returns the level on which the iteration began, a second one
    an older level, and from then on the spread stays above [0.5 ^ n]; it
    is never below.  As long as no iteration has stepped back twice, the
    spread is strictly smaller after more iterations. *)
Theorem spread_halves inputs :
  (forall mc s,
     match iteration_end mc s with
     | EndNext s' | EndBreak s' =>
         py_index (cursors s) (fst mc - 1) = Some (center s') /\
         spread s' = (spread s * SPREAD_REDUCTION_FACTOR)%Q
     | EndRaise _ _ => True
     end) /\
  (forall s, reaches (main_loop inputs) s ->
     ((spread s ==
       SPREAD_REDUCTION_FACTOR ^ Z.of_nat (length (identified_locations s)))%Q <->
      (most_steps_back (trace s) <= 1)%nat) /\
     (SPREAD_REDUCTION_FACTOR ^ Z.of_nat (length (identified_locations s))
      <= spread s)%Q) /\
  (forall more s s',
     reaches (main_loop inputs) s -> reaches (main_loop (inputs ++ more)) s' ->
     (most_steps_back (trace s') <= 1)%nat ->
     (length (identified_locations s) < length (identified_locations s'))%nat ->
     (spread s' < spread s)%Q).
Proof.
  split; [|split].
  - intros mc s.
    destruct (iteration_end_cases mc s)
      as [[_ ->]|(loc & s' & Hidx & Href & [(_ & _ & ->)|(_ & _ & ->)])];
      [done| |]; destruct Href as (-> & -> & _); done.
  - intros s Hs. apply main_level in Hs as [[Hm Hsp]|[Hm Hsp]].
    + split; [done|]. rewrite Hsp. apply Qle_refl.
    + split; [|by apply Qlt_le_weak]. split; [|lia].
      intros Heq. rewrite Heq in Hsp. by apply Qlt_irrefl in Hsp.
  - intros more s s' Hs Hs' Hm Hlt.
    apply main_level in Hs', Hs. destruct Hs' as [[_ Hsp']|[? _]]; [|lia].
    rewrite Hsp'. apply (reduction_lt _ _) in Hlt.
    destruct Hs as [[_ Hsp]|[_ Hsp]]; [by rewrite Hsp|].
    eapply Qlt_trans; [exact Hlt|exact Hsp].
Qed.


End Loop.

(** *** Runs on concrete answers

    A font whose labels all measure 20 x 10, so that the rectangles are
    30 x 20 with the padding; blank screenshots; draws of [random.random()]
    that give no jitter; the model naming a cursor, or answering [None]. *)
Definition fixed_font (font_size : Z) (text : string) : rect := (0, 0, 20, 10).
Definition blank (w h : Z) : picture := Picture (w, h) [].
Definition says (z : Z) : pass_input := PassInput (fun _ => 1 # 2) (Closest (PyNumber z)).
Definition says_none : pass_input := PassInput (fun _ => 1 # 2) (Closest PyNone).
Definition grey : color := (128, 128, 128).

Definition state_of (o : outcome) : state :=
  match o with Running s | Exited _ s | Raised _ s => s end.

(** C1, on a 1000 x 800 screenshot: the second vote for cursor 3 leaves
    the inner loop and identifies the third of the four cursors generated,
    (750, 200); a vote for another cursor stays in the loop. *)
Lemma consensus_by_counting_witness :
  let s := state_of (main fixed_font (blank 1000 800) grey [says 3]) in
  (exists s',
     inner_pass fixed_font (blank 1000 800) grey (says 3) s = PassBreak (3, 2%nat) s' /\
     most_common_1 (Counter (votes s')) = Some (3, 2%nat) /\
     tally 3 (votes s') = 2%nat /\
     cursors s' =
       [Position 250 200; Position 250 600; Position 750 200; Position 750 600] /\
     match iteration_end (3, 2%nat) s' with
     | EndNext s'' | EndBreak s'' =>
         center s'' = Position 750 200 /\
         identified_locations s'' = identified_locations s' ++ [Position 750 200]
     | EndRaise _ _ => False
     end) /\
  (exists s',
     inner_pass fixed_font (blank 1000 800) grey (says 2) s = PassContinue s' /\
     forall l, (tally l (votes s') < 2)%nat).
Proof.
  intros s.
  destruct (consensus_by_counting fixed_font (blank 1000 800) grey None (says 3) s)
    as [Hbreak _].
  destruct (consensus_by_counting fixed_font (blank 1000 800) grey None (says 2) s)
    as (_ & Hcont & _).
  split.
  - assert (E : exists s',
      inner_pass fixed_font (blank 1000 800) grey (says 3) s = PassBreak (3, 2%nat) s').
    { vm_compute. eexists. reflexivity. }
    destruct E as [s' E]. exists s'. split; [exact E|].
    destruct (Hbreak _ _ E) as (Hmc & Hn & _ & _ & Hcs & _ & Hend).
    split; [exact Hmc|]. split; [symmetry; exact Hn|].
    assert (Hcs' : cursors s' =
      [Position 250 200; Position 250 600; Position 750 200; Position 750 600]).
    { rewrite Hcs. vm_compute. reflexivity. }
    split; [exact Hcs'|].
    destruct (iteration_end (3, 2%nat) s') as [s''|s''|e s''];
      cbn [fst] in Hend; rewrite ?Hcs' in Hend.
    + destruct Hend as [Hids [[_ Hloc]|[Hle _]]]; [|lia].
      injection Hloc as Hloc. by rewrite Hids, <- Hloc.
    + destruct Hend as [Hids [[_ Hloc]|[Hle _]]]; [|lia].
      injection Hloc as Hloc. by rewrite Hids, <- Hloc.
    + unfold NUM_CURSORS in Hend. destruct Hend as [_ [Hlt|Hlt]]; cbn in Hlt; lia.
  - destruct (inner_pass fixed_font (blank 1000 800) grey (says 2) s)
      as [s'|mc s'|e s'] eqn:E;
      [|vm_compute in E; discriminate E|vm_compute in E; discriminate E].
    exists s'. split; [reflexivity|].
    apply (Hcont s' eq_refl). intros l.
    assert (votes s = [3]) as -> by (vm_compute; reflexivity).
    unfold tally, CONSENSUS_THRESHOLD.
    rewrite filter_cons, filter_nil. case_decide; cbn; lia.
Defined.

(** C2, on a 100 x 80 screenshot: the cursors of the third iteration are
    some 12 pixels apart, their rectangles overlap by more than a fifth and
    the loop is left; a seventh answer is not read.  With [MAX_ITERATIONS]
    at 1 the loop is left at the head of the second iteration. *)
Lemma outer_loop_exit_witness :
  let inputs := [says 1; says 1; says 1; says 1; says 1; says 1] in
  (exists s,
     main_loop fixed_font (blank 100 80) grey None inputs = Exited Overlap s /\
     (MAX_OVERLAP_RATIO < max_overlap_ratio s)%Q /\
     main_loop fixed_font (blank 100 80) grey None (inputs ++ [says 2])
       = Exited Overlap s /\
     iteration s = 3 /\ length (identified_locations s) = 3%nat) /\
  (exists s m,
     main_loop fixed_font (blank 100 80) grey (Some 1) inputs
       = Exited MaxIterations s /\
     Some 1 = Some m /\ m <> 0 /\ m < iteration s).
Proof.
  intros inputs.
  destruct (outer_loop_exit fixed_font (blank 100 80) grey None inputs)
    as (Hexit & _ & _ & Hcount & _).
  destruct (outer_loop_exit fixed_font (blank 100 80) grey (Some 1) inputs)
    as (Hexit1 & _).
  split.
  - set (o := main_loop fixed_font (blank 100 80) grey None inputs) in *.
    assert (E : o = Exited Overlap (state_of o)) by (vm_compute; reflexivity).
    exists (state_of o). split; [exact E|].
    destruct (Hexit _ _ E) as [Hov Hmore]. split; [exact Hov|].
    split; [apply Hmore|]. destruct (Hcount _ E) as [-> _].
    split; vm_compute; reflexivity.
  - set (o := main_loop fixed_font (blank 100 80) grey (Some 1) inputs) in *.
    assert (E : o = Exited MaxIterations (state_of o)) by (vm_compute; reflexivity).
    destruct (Hexit1 _ _ E) as [(m & Hm & Hm0 & Hlt) _].
    exists (state_of o), m. auto.
Defined.

(** C3 as stated fails: after two votes for cursor 1, two answers [None] in
    the second iteration take the spread back to 1, and two more votes end
    the second iteration with a spread of 1/2, which is neither [0.5 ^ 2]
    nor smaller than the spread after the first iteration. *)
Lemma spread_after_retries :
  let o1 := main fixed_font (blank 1000 800) grey [says 1; says 1] in
  let o2 := main fixed_font (blank 1000 800) grey
              [says 1; says 1; says_none; says_none; says 1; says 1] in
  o1 = Running (state_of o1) /\ o2 = Running (state_of o2) /\
  length (identified_locations (state_of o1)) = 1%nat /\
  length (identified_locations (state_of o2)) = 2%nat /\
  (spread (state_of o1) == 1 # 2)%Q /\
  (spread (state_of o2) == 1 # 2)%Q /\
  ~ (spread (state_of o2) == SPREAD_REDUCTION_FACTOR ^ 2)%Q /\
  ~ (spread (state_of o2) < spread (state_of o1))%Q.
Proof.
  intros o1 o2.
  split; [vm_compute; reflexivity|]. split; [vm_compute; reflexivity|].
  split; [vm_compute; reflexivity|]. split; [vm_compute; reflexivity|].
  split; [vm_compute; reflexivity|]. split; [vm_compute; reflexivity|].
  split; intros H; vm_compute in H; discriminate H.
Qed.

(** C3, amended, on two iterations that each step back once before two
    votes agree: the spread is 1/2 after the first and 1/4 after the
    second. *)
Lemma spread_halves_witness :
  let inputs := [says_none; says 1; says 1] in
  let more := [says_none; says 2; says 2] in
  let o := main_loop fixed_font (blank 1000 800) grey None inputs in
  let o' := main_loop fixed_font (blank 1000 800) grey None (inputs ++ more) in
  reaches o (state_of o) /\ reaches o' (state_of o') /\
  most_steps_back (trace (state_of o')) = 1%nat /\
  length (identified_locations (state_of o')) = 2%nat /\
  (spread (state_of o') == SPREAD_REDUCTION_FACTOR ^ 2)%Q /\
  (spread (state_of o') < spread (state_of o))%Q.
Proof.
  intros inputs more o o'.
  assert (Ho : reaches o (state_of o)) by (left; vm_compute; reflexivity).
  assert (Ho' : reaches o' (state_of o')) by (left; vm_compute; reflexivity).
  assert (Hm : most_steps_back (trace (state_of o')) = 1%nat)
    by (vm_compute; reflexivity).
  assert (Hn : length (identified_locations (state_of o')) = 2%nat)
    by (vm_compute; reflexivity).
  destruct (spread_halves fixed_font (blank 1000 800) grey None (inputs ++ more))
    as (_ & Hclosed & _).
  destruct (spread_halves fixed_font (blank 1000 800) grey None inputs)
    as (_ & _ & Hless).
  split; [exact Ho|]. split; [exact Ho'|]. split; [exact Hm|]. split; [exact Hn|].
  split.
  - destruct (Hclosed (state_of o') Ho') as [[_ Hsp] _].
    rewrite Hn in Hsp. apply Hsp. rewrite Hm. lia.
  - apply (Hless more (state_of o) (state_of o') Ho Ho').
    + rewrite Hm. lia.
    + vm_compute. lia.
Defined.


(** *** The colour of the cursors *)
Section ColourFacts.

Context (rng : Type) (seed : Z -> rng)
        (shuffle : list color -> rng -> list color * rng)
        (kmeans : Z -> Z -> list color -> option (list (Q * Q * Q)))
        (euclidean : color -> Q * Q * Q -> Q)
        (pixels : picture -> list color).

Local Abbreviation maximally_different_color :=
  (maximally_different_color rng seed shuffle kmeans euclidean pixels).

Lemma levels_multiple r : r ∈ levels -> 0 <= r <= 248 /\ r `mod` 8 = 0.
Proof.
  unfold levels, range. rewrite list_elem_of_fmap. intros (k & -> & Hk).
  apply list_elem_of_fmap in Hk as (n & -> & Hn).
  apply elem_of_seq in Hn. change (Z.to_nat 32) with 32%nat in Hn.
  split; [lia|]. rewrite Z.mul_comm. apply Z_mod_mult.
Qed.

Lemma all_colors_levels r g b :
  (r, g, b) ∈ all_colors -> r ∈ levels /\ g ∈ levels /\ b ∈ levels.
Proof.
  unfold all_colors. rewrite list_elem_of_bind. intros (r' & Hin & Hr').
  apply list_elem_of_bind in Hin as (g' & Hin & Hg').
  apply list_elem_of_bind in Hin as (b' & Hin & Hb').
  apply list_elem_of_singleton in Hin as [= -> -> ->]. done.
Qed.

Lemma argmax_lt l : l <> [] -> (argmax l < length l)%nat.
Proof.
  destruct l as [|q l]; [done|]. intros _. unfold argmax.
  set (pick := fun '(best, bq, i) q' =>
    match (bq ?= q')%Q with Lt => (i, q', S i) | _ => (best, bq, S i) end).
  assert (H : forall l best bq i, (best < i)%nat ->
    let r := fold_left pick l (best, bq, i) in
    (r.1.1 < r.2)%nat /\ r.2 = (i + length l)%nat).
  { clear. induction l as [|q' l IH]; intros best bq i Hlt; cbn; [lia|].
    destruct (bq ?= q')%Q;
      (edestruct IH as [H1 H2]; [|split; [exact H1|rewrite H2; lia]]); lia. }
  destruct (H l 0%nat q 1%nat) as [H1 H2]; [lia|]. cbn in *. lia.
Qed.

Lemma all_colors_nonempty : all_colors <> [].
Proof. intros H. apply (f_equal (fun l => l !! 0%nat)) in H. discriminate H. Qed.

(** C10. The colour returned for a picture does not depend on the state of
    numpy's generator when the function is called: the generator is seeded
    with 42 before the only shuffle, and the clustering takes 42 as its own
    seed.  A colour is returned whenever the clustering gives its centres,
    and every component of it is one of 0, 8, ..., 248. *)
Theorem maximally_different_color_deterministic image sample_size n_clusters g1 g2 :
  fst (maximally_different_color image sample_size n_clusters g1) =
  fst (maximally_different_color image sample_size n_clusters g2) /\
  (is_Some (kmeans n_clusters 42
              (fst (sample_colors rng seed shuffle (pixels image) sample_size g1))) ->
   is_Some (fst (maximally_different_color image sample_size n_clusters g1))) /\
  forall r g b,
    fst (maximally_different_color image sample_size n_clusters g1) = Some (r, g, b) ->
    (0 <= r <= 248 /\ r `mod` 8 = 0) /\
    (0 <= g <= 248 /\ g `mod` 8 = 0) /\
    (0 <= b <= 248 /\ b `mod` 8 = 0).
Proof.
  assert (Hsample : forall g,
    fst (sample_colors rng seed shuffle (pixels image) sample_size g) =
    fst (sample_colors rng seed shuffle (pixels image) sample_size g2)).
  { intros g. unfold sample_colors.
    destruct (sample_size <? Z.of_nat (length (pixels image))); [|done].
    by destruct (shuffle (pixels image) (seed 42)). }
  unfold Sample.maximally_different_color.
  specialize (Hsample g1).
  destruct (sample_colors rng seed shuffle (pixels image) sample_size g1) as [sampled h1].
  destruct (sample_colors rng seed shuffle (pixels image) sample_size g2) as [sampled2 h2].
  cbn in Hsample. subst sampled2. cbn [fst].
  destruct (kmeans n_clusters 42 sampled) as [centers|]; cbn.
  - split; [done|]. split.
    + intros _. apply lookup_lt_is_Some_2.
      eapply Nat.lt_le_trans; [apply argmax_lt|].
      * intros H. apply fmap_nil_inv in H. by apply all_colors_nonempty.
      * by rewrite length_fmap.
    + intros r g' b Hidx.
      apply list_elem_of_lookup_2, all_colors_levels in Hidx as (Hr & Hg & Hb).
      auto using levels_multiple.
  - split; [done|]. split; [intros [? [=]]|done].
Qed.

End ColourFacts.

(** Stand-ins for numpy and scikit-learn, to run the function: a generator
    that counts its draws, a shuffle that reverses, a clustering that takes
    the first samples as centres and the city-block distance. *)
Definition counting_seed (z : Z) : nat := Z.to_nat z.
Definition reversing_shuffle (l : list color) (g : nat) : list color * nat :=
  (reverse l, S g).
Definition first_samples (n_clusters random_state : Z) (samples : list color)
  : option (list (Q * Q * Q)) :=
  if Z.of_nat (length samples) <? n_clusters then None
  else Some ((fun '(r, g, b) => (inject_Z r, inject_Z g, inject_Z b))
               <$> take (Z.to_nat n_clusters) samples).
Definition city_block (c : color) (p : Q * Q * Q) : Q :=
  let '(r, g, b) := c in
  let '(pr, pg, pb) := p in
  (Qabs (inject_Z r - pr) + Qabs (inject_Z g - pg) + Qabs (inject_Z b - pb))%Q.
Definition two_dark_pixels (image : picture) : list color := [(0, 0, 0); (10, 20, 30)].

(** C10, on a picture of two dark pixels: the colour is the brightest of
    the grid, whatever the generator has drawn before. *)
Lemma maximally_different_color_witness :
  fst (maximally_different_color nat counting_seed reversing_shuffle first_samples
         city_block two_dark_pixels (blank 2 1) 1000 2 0%nat) = Some (248, 248, 248) /\
  fst (maximally_different_color nat counting_seed reversing_shuffle first_samples
         city_block two_dark_pixels (blank 2 1) 1000 2 7%nat) = Some (248, 248, 248) /\
  248 `mod` 8 = 0.
Proof.
  destruct (maximally_different_color_deterministic nat counting_seed
              reversing_shuffle first_samples city_block two_dark_pixels
              (blank 2 1) 1000 2 0%nat 7%nat) as (Hsame & _ & Hlevels).
  assert (E : fst (maximally_different_color nat counting_seed reversing_shuffle
                     first_samples city_block two_dark_pixels (blank 2 1) 1000 2 0%nat)
              = Some (248, 248, 248)) by (vm_compute; reflexivity).
  split; [exact E|]. split; [rewrite <- Hsame; exact E|].
  apply (Hlevels 248 248 248 E).
Defined.

End SampleFacts.

(** * Properties of the grid search *)
Module GridFacts.
Import Grid.

#[local] Instance tuple_le_total : Total tuple_le.
Proof. intros [a1 a2] [b1 b2]. unfold tuple_le. cbn. lia. Qed.

#[local] Instance tuple_le_trans : Transitive tuple_le.
Proof. intros [a1 a2] [b1 b2] [c1 c2]. unfold tuple_le. cbn. lia. Qed.

(** [sorted] sorts: the cells of the answer, in the order of tuples. *)
Lemma sorted_spec cells :
  StronglySorted tuple_le (sorted cells) /\ sorted cells ≡ₚ cells.
Proof.
  split; [apply StronglySorted_merge_sort; apply _|apply merge_sort_Permutation].
Qed.

Lemma run_app_running l1 l2 s s' :
  run l1 s = Running s' -> run (l1 ++ l2) s = run l2 s'.
Proof.
  revert s. induction l1 as [|[cells|] l1 IH]; intros s; cbn.
  - by intros [= ->].
  - case_decide; [done|apply IH].
  - done.
Qed.

(** Answers that differ from one another and from the history are all
    appended, and the loop goes on. *)
Lemma run_distinct cells s :
  NoDup (all_coordinates s ++ (sorted <$> cells)) ->
  exists s', run (Some <$> cells) s = Running s' /\
    all_coordinates s' = all_coordinates s ++ (sorted <$> cells) /\
    coordinates s' = default (coordinates s) (last (sorted <$> cells)).
Proof.
  revert s. induction cells as [|c cells IH]; intros s Hnd; cbn.
  - exists s. by rewrite app_nil_r.
  - rewrite fmap_cons in Hnd.
    assert (Hc : sorted c ∉ all_coordinates s).
    { apply NoDup_app in Hnd as (_ & Hdisj & _). intros Hin.
      apply (Hdisj _ Hin). apply list_elem_of_here. }
    rewrite decide_False by done.
    edestruct IH as (s' & Hrun & Hall & Hcoord).
    2: { exists s'. split; [exact Hrun|]. cbn in Hall, Hcoord.
         split; [by rewrite Hall, <- app_assoc|].
         rewrite Hcoord. destruct (sorted <$> cells) as [|a l] eqn:E; [done|].
         rewrite last_cons_cons.
         destruct (proj2 (last_is_Some (a :: l))) as [x ->]; done. }
    cbn. by rewrite <- app_assoc.
Qed.

(** What has come out of a run, read backwards. *)
Lemma run_history responses s :
  NoDup (all_coordinates s) ->
  match run responses s with
  | Running s' =>
      exists cells, responses = Some <$> cells /\
        all_coordinates s' = all_coordinates s ++ (sorted <$> cells) /\
        NoDup (all_coordinates s')
  | Stopped s' =>
      exists cells r rest, responses = (Some <$> cells) ++ Some r :: rest /\
        all_coordinates s' = all_coordinates s ++ (sorted <$> cells) /\
        NoDup (all_coordinates s') /\
        sorted r ∈ all_coordinates s' /\ coordinates s' = sorted r
  | Raised e s' =>
      exists cells rest, responses = (Some <$> cells) ++ None :: rest /\
        e = ParseFailure
  end.
Proof.
  revert s. induction responses as [|[c|] responses IH]; intros s Hnd; cbn.
  - exists []. by rewrite app_nil_r.
  - case_decide as Hc.
    + exists [], c, responses. cbn. by rewrite app_nil_r.
    + set (s1 := {| coordinates := sorted c;
                    all_coordinates := all_coordinates s ++ [sorted c];
                    highlighted := Some (sorted c) |}).
      assert (Hnd1 : NoDup (all_coordinates s1)).
      { cbn. apply NoDup_app. split; [done|]. split; [|apply NoDup_singleton].
        intros x Hx ->%list_elem_of_singleton. done. }
      specialize (IH s1 Hnd1).
      destruct (run responses s1) as [s'|s'|e s'].
      * destruct IH as (cells & -> & Hall & Hnd').
        exists (c :: cells). cbn in Hall. split; [done|].
        split; [by rewrite Hall, <- app_assoc|done].
      * destruct IH as (cells & r & rest & -> & Hall & Hnd' & Hin & Hco).
        exists (c :: cells), r, rest. cbn in Hall. split; [done|].
        split; [by rewrite Hall, <- app_assoc|done].
      * destruct IH as (cells & rest & -> & ->). by exists (c :: cells), rest.
  - by exists [], responses.
Qed.

(** C7. The loop of [main] in grid.py goes on as long as the sorted lists of
    cells returned by the model differ from one another, appending each to
    the history, and stops at the first answer whose sorted list is in the
    history; it stops in no other way than by such a repeat (or by the
    exception of an answer that cannot be parsed). *)
Theorem stops_at_first_repeat :
  (forall cells, NoDup (sorted <$> cells) ->
     (exists s, main (Some <$> cells) = Running s /\
        all_coordinates s = sorted <$> cells /\
        coordinates s = default [] (last (sorted <$> cells))) /\
     (forall r rest, sorted r ∈ sorted <$> cells ->
        exists s, main ((Some <$> cells) ++ Some r :: rest) = Stopped s /\
          all_coordinates s = sorted <$> cells /\ coordinates s = sorted r)) /\
  (forall responses s, main responses = Stopped s ->
     exists cells r rest, responses = (Some <$> cells) ++ Some r :: rest /\
       NoDup (sorted <$> cells) /\ sorted r ∈ sorted <$> cells /\
       all_coordinates s = sorted <$> cells /\ coordinates s = sorted r) /\
  (forall responses s, main responses = Running s ->
     exists cells, responses = Some <$> cells /\
       NoDup (sorted <$> cells) /\ all_coordinates s = sorted <$> cells).
Proof.
  split; [|split].
  - intros cells Hnd.
    destruct (run_distinct cells initial Hnd) as (s & Hrun & Hall & Hco).
    split; [by exists s|].
    intros r rest Hr. unfold main. rewrite (run_app_running _ _ _ _ Hrun). cbn.
    rewrite decide_True by (by rewrite Hall). eexists. by split.
  - intros responses s Hs.
    pose proof (run_history responses initial (NoDup_nil_2)) as H.
    unfold main in Hs. rewrite Hs in H.
    destruct H as (cells & r & rest & -> & Hall & Hnd & Hin & Hco).
    cbn in Hall. rewrite Hall in *. by exists cells, r, rest.
  - intros responses s Hs.
    pose proof (run_history responses initial (NoDup_nil_2)) as H.
    unfold main in Hs. rewrite Hs in H.
    destruct H as (cells & -> & Hall & Hnd).
    cbn in Hall. rewrite Hall in *. by exists cells.
Qed.

(** C7, on three answers: the third names the cells of the first in another
    order, and the loop stops there. *)
Lemma stops_at_first_repeat_witness :
  exists s,
    main ((Some <$> [[(3, 4); (1, 2)]; [(1, 2)]]) ++ Some [(1, 2); (3, 4)] :: [Some []])
      = Stopped s /\
    all_coordinates s = [[(1, 2); (3, 4)]; [(1, 2)]] /\
    coordinates s = [(1, 2); (3, 4)].
Proof.
  destruct stops_at_first_repeat as (Hfresh & Hstop & _).
  assert (Hnd : NoDup (sorted <$> [[(3, 4); (1, 2)]; [(1, 2)]])).
  { vm_compute. apply NoDup_cons. split; [|apply NoDup_singleton].
    rewrite list_elem_of_singleton. discriminate. }
  destruct (Hfresh _ Hnd) as [_ Hrep].
  destruct (Hrep [(1, 2); (3, 4)] [Some []]) as (s & Hs & Hall & Hco).
  { vm_compute. apply list_elem_of_here. }
  exists s. split; [exact Hs|]. split; [exact Hall|exact Hco].
Defined.

End GridFacts.

(** * Properties of the CRUD layer *)
Module CrudFacts.
Import Crud.

Ltac mem_cases :=
  repeat case_decide; try done; exfalso;
  repeat match goal with
         | H : _ ∈ _ :: _ |- _ => apply elem_of_cons in H as [?|?]
         end;
  try congruence; eauto using list_elem_of_here, list_elem_of_further.

Lemma empty_row_lookup t k :
  empty_row t !! k = if decide (k ∈ columns t) then Some VNone else None.
Proof.
  unfold empty_row. induction (columns t) as [|c cols IH]; cbn.
  - rewrite lookup_empty. by rewrite decide_False by apply not_elem_of_nil.
  - destruct (decide (c = k)) as [->|Hne].
    + rewrite lookup_insert_eq. by rewrite decide_True by apply list_elem_of_here.
    + rewrite lookup_insert_ne by done. rewrite IH.
      destruct (decide (k ∈ cols)) as [Hin|Hin].
      * by rewrite decide_True by (by apply list_elem_of_further).
      * rewrite decide_False; [done|]. rewrite elem_of_cons. intros [?|?]; congruence.
Qed.

(** The loop over the columns moves the values of the column keys from
    [event_data] to [db_obj] and leaves the rest of both as it was. *)
Lemma take_columns cols db_obj event_data :
  let '(db_obj', event_data') := fold_left take_column cols (db_obj, event_data) in
  forall k,
    db_obj' !! k =
      match event_data !! k with
      | Some v => if decide (k ∈ cols) then Some v else db_obj !! k
      | None => db_obj !! k
      end /\
    event_data' !! k = if decide (k ∈ cols) then None else event_data !! k.
Proof.
  revert db_obj event_data. induction cols as [|c cols IH]; intros db_obj event_data; cbn.
  - intros k. rewrite decide_False by apply not_elem_of_nil. by destruct (event_data !! k).
  - destruct (event_data !! c) as [vc|] eqn:Hc.
    + specialize (IH (<[c:=vc]> db_obj) (delete c event_data)).
      destruct (fold_left take_column cols _) as [db_obj' event_data'].
      intros k. destruct (IH k) as [Hdb Hev]. rewrite Hdb, Hev.
      destruct (decide (c = k)) as [<-|Hne].
      * rewrite lookup_delete_eq, lookup_insert_eq, Hc. mem_cases.
      * rewrite lookup_delete_ne, lookup_insert_ne by done.
        destruct (event_data !! k); mem_cases.
    + specialize (IH db_obj event_data).
      destruct (fold_left take_column cols _) as [db_obj' event_data'].
      intros k. destruct (IH k) as [Hdb Hev]. rewrite Hdb, Hev.
      destruct (decide (c = k)) as [<-|Hne].
      * rewrite Hc. mem_cases.
      * destruct (event_data !! k); mem_cases.
Qed.

(** The row that [_insert] builds when the assertion passes: the value of
    [event_data] for the columns it names, [None] for the other columns. *)
Definition row_of (event_data : record) (t : table) (row : record) : Prop :=
  forall k,
    row !! k =
      if decide (k ∈ columns t) then Some (default VNone (event_data !! k)) else None.

(** The effect of [_insert] on the state when the assertion passes: the row
    goes to the buffer, and, the batch being full at once, the buffer is
    emptied into the table. *)
Definition stored (t : table) (b : option buffer) (row : record) (st st' : state) : Prop :=
  inserted st' =
    inserted st ++ ((fun r => (t, r)) <$>
                      match b with Some b => buffers st b ++ [row] | None => [row] end) /\
  (forall b', buffers st' b' =
     if decide (Some b' = b) then [] else buffers st b') /\
  lock st' = lock st /\ db st' = db st /\ closed st' = closed st.

Lemma insert_cases event_data t b st :
  ((exists k, is_Some (event_data !! k) /\ k ∉ columns t) /\
   _insert event_data t b st = inl AssertionError) \/
  ((forall k, is_Some (event_data !! k) -> k ∈ columns t) /\
   exists row st', _insert event_data t b st = inr st' /\
     row_of event_data t row /\ stored t b row st st').
Proof.
  unfold _insert.
  pose proof (take_columns (columns t) (empty_row t) event_data) as Hcols.
  destruct (fold_left take_column (columns t) (empty_row t, event_data))
    as [db_obj rest].
  destruct (decide (rest = ∅)) as [->|Hrest].
  - right. split.
    { intros k [v Hk]. destruct (Hcols k) as [_ Hev].
      rewrite lookup_empty, Hk in Hev. by destruct (decide (k ∈ columns t)). }
    assert (Hrow : row_of event_data t db_obj).
    { intros k. destruct (Hcols k) as [Hdb Hev]. rewrite Hdb, empty_row_lookup.
      rewrite lookup_empty in Hev.
      destruct (decide (k ∈ columns t)); [|by rewrite <- Hev].
      by destruct (event_data !! k). }
    exists db_obj. destruct b as [b|].
    + rewrite decide_True by done.
      assert ((BATCH_SIZE <=? length (buffers st b ++ [db_obj]))%nat = true) as ->.
      { apply Nat.leb_le. rewrite length_app. unfold BATCH_SIZE. cbn. lia. }
      eexists. split; [reflexivity|]. split; [exact Hrow|].
      split; [|split; [|done]]; cbn.
      * by destruct (buffers st b ++ [db_obj]) eqn:E;
          [apply app_eq_nil in E as [_ [=]]|].
      * intros b'. repeat case_decide; congruence.
    + eexists. split; [reflexivity|]. split; [exact Hrow|].
      split; [done|]. split; [|done]. intros b'. by case_decide.
  - left. split; [|done].
    apply map_choose in Hrest as (k & v & Hk). exists k.
    destruct (Hcols k) as [_ Hev]. rewrite Hk in Hev.
    destruct (decide (k ∈ columns t)); [done|]. split; [|done]. by rewrite <- Hev.
Qed.

(** When every key is a column the assertion passes, and the row has the
    values of the event. *)
Lemma insert_passes event_data t b st :
  (forall k, is_Some (event_data !! k) -> k ∈ columns t) ->
  exists row st', _insert event_data t b st = inr st' /\
    stored t b row st st' /\
    (forall k v, event_data !! k = Some v -> row !! k = Some v) /\
    (forall k, k ∈ columns t -> event_data !! k = None -> row !! k = Some VNone) /\
    (forall k, k ∉ columns t -> row !! k = None).
Proof.
  intros Hcols.
  destruct (insert_cases event_data t b st)
    as [[(k & Hk & Hnot) _]|[Hall (row & st' & Hok & Hrow & Hst)]].
  { by apply Hcols in Hk. }
  exists row, st'. split; [done|]. split; [done|]. split; [|split].
  - intros k v Hk. rewrite (Hrow k), Hk.
    by rewrite decide_True by (apply Hall; eauto).
  - intros k Hin Hk. by rewrite (Hrow k), Hk, decide_True.
  - intros k Hnot. by rewrite (Hrow k), decide_False.
Qed.

(** C9. [_insert] raises [AssertionError] exactly when [event_data] has a key
    that is not a column of the table.  Otherwise the row that is buffered
    and inserted has the columns of the table as its keys, with the value
    of [event_data] for each of its keys and [None] for every other
    column. *)
Theorem insert_asserts_unknown_keys event_data t b st :
  (_insert event_data t b st = inl AssertionError <->
   exists k, is_Some (event_data !! k) /\ k ∉ columns t) /\
  ((forall k, is_Some (event_data !! k) -> k ∈ columns t) ->
   exists row st', _insert event_data t b st = inr st' /\
     stored t b row st st' /\
     (forall k v, event_data !! k = Some v -> row !! k = Some v) /\
     (forall k, k ∈ columns t -> event_data !! k = None -> row !! k = Some VNone) /\
     (forall k, k ∉ columns t -> row !! k = None)).
Proof.
  split; [|apply insert_passes].
  destruct (insert_cases event_data t b st)
    as [[(k & Hk & Hnot) Hraise]|[Hall (row & st' & Hok & _)]].
  - split; [by exists k|done].
  - rewrite Hok. split; [done|]. intros (k & Hk & Hnot). by apply Hall in Hk.
Qed.

(** A table with a few of the columns of an action event, and a recording. *)
Definition small_table : table :=
  Table "action_event"
    ["id"; "name"; "timestamp"; "recording_id"; "recording_timestamp"; "mouse_x"].
Definition a_recording : Recording := {| id := 7; timestamp := 3 # 2 |}.

(** C9, on a click with a known key and on an event with an unknown key. *)
Lemma insert_asserts_unknown_keys_witness :
  _insert {[ "bogus" := VInt 1 ]} small_table (Some action_events) initial
    = inl AssertionError /\
  exists row st',
    _insert {[ "name" := VStr "click" ]} small_table (Some action_events) initial
      = inr st' /\
    inserted st' = [(small_table, row)] /\
    row !! "name" = Some (VStr "click") /\ row !! "mouse_x" = Some VNone.
Proof.
  split.
  - apply (insert_asserts_unknown_keys {[ "bogus" := VInt 1 ]} small_table
             (Some action_events) initial).
    exists "bogus". split; [by rewrite lookup_singleton_eq|].
    unfold small_table. cbn. rewrite !not_elem_of_cons, elem_of_nil.
    repeat split; (discriminate || tauto).
  - destruct (insert_asserts_unknown_keys {[ "name" := VStr "click" ]} small_table
                (Some action_events) initial) as [_ Hok].
    destruct Hok as (row & st' & Hins & Hst & Hval & Hnone & _).
    { intros k [v Hk]. apply lookup_singleton_Some in Hk as [<- _].
      unfold small_table. cbn. apply list_elem_of_further, list_elem_of_here. }
    exists row, st'. split; [exact Hins|]. split; [apply Hst|]. split.
    + apply Hval. by rewrite lookup_singleton_eq.
    + apply Hnone; [|done]. unfold small_table. cbn.
      do 5 apply list_elem_of_further. apply list_elem_of_here.
Defined.

(** *** The recorders *)

Lemma with_provenance_lookup recording event_timestamp event_data :
  let data := with_provenance recording event_timestamp event_data in
  data !! "timestamp" = Some event_timestamp /\
  data !! "recording_id" = Some (VInt (id recording)) /\
  data !! "recording_timestamp" = Some (VFloat (timestamp recording)) /\
  forall k, k ∉ ["timestamp"; "recording_id"; "recording_timestamp"] ->
    data !! k = event_data !! k.
Proof.
  unfold with_provenance. cbn zeta. split; [|split; [|split]].
  - rewrite lookup_insert_ne by discriminate.
    rewrite lookup_insert_ne by discriminate. apply lookup_insert_eq.
  - rewrite lookup_insert_ne by discriminate. apply lookup_insert_eq.
  - apply lookup_insert_eq.
  - intros k Hk. rewrite !not_elem_of_cons in Hk. destruct Hk as (? & ? & ? & _).
    by rewrite !lookup_insert_ne by congruence.
Qed.

(** What a recorder does with a table [t] and its buffer [b] when every key
    of the event is a column. *)
Definition records (t : table) (b : buffer) (recording : Recording)
    (event_timestamp : value) (event_data : record) (st : state)
    (result : exn + state) : Prop :=
  exists row st', result = inr st' /\
    stored t (Some b) row st st' /\
    (buffers st b = [] -> inserted st' = inserted st ++ [(t, row)]) /\
    row !! "timestamp" = Some event_timestamp /\
    row !! "recording_id" = Some (VInt (id recording)) /\
    row !! "recording_timestamp" = Some (VFloat (timestamp recording)) /\
    (forall k v, k ∉ ["timestamp"; "recording_id"; "recording_timestamp"] ->
       event_data !! k = Some v -> row !! k = Some v) /\
    (forall k, k ∈ columns t ->
       k ∉ ["timestamp"; "recording_id"; "recording_timestamp"] ->
       event_data !! k = None -> row !! k = Some VNone) /\
    (forall k, k ∉ columns t -> row !! k = None).

(** The keys that a recorder hands to [_insert] are all columns: those of
    the event data and the three that it adds. *)
Definition known_keys (t : table) (event_data : record) : Prop :=
  (forall k, is_Some (event_data !! k) -> k ∈ columns t) /\
  "timestamp" ∈ columns t /\ "recording_id" ∈ columns t /\
  "recording_timestamp" ∈ columns t.

Lemma insert_records t b recording event_timestamp event_data st :
  (known_keys t event_data ->
   records t b recording event_timestamp event_data st
     (_insert (with_provenance recording event_timestamp event_data) t (Some b) st)) /\
  (~ known_keys t event_data ->
   _insert (with_provenance recording event_timestamp event_data) t (Some b) st
     = inl AssertionError).
Proof.
  pose proof (with_provenance_lookup recording event_timestamp event_data)
    as (Hd1 & Hd2 & Hd3 & Hd).
  split.
  - intros (Hkeys & Hts & Hid & Hrts).
    destruct (insert_passes
                (with_provenance recording event_timestamp event_data) t (Some b) st)
      as (row & st' & Hins & Hst & Hval & Hnone & Hout).
    { intros k Hk.
      destruct (decide (k ∈ ["timestamp"; "recording_id"; "recording_timestamp"]))
        as [Hin|Hin].
      - rewrite !elem_of_cons, elem_of_nil in Hin.
        destruct Hin as [->|[->|[->|[]]]]; done.
      - apply Hkeys. by rewrite <- Hd. }
    exists row, st'. split; [exact Hins|]. split; [exact Hst|].
    split; [|repeat split; auto].
    + intros Hb. destruct Hst as [-> _]. by rewrite Hb.
    + intros k v Hk Hv. apply Hval. by rewrite Hd.
    + intros k Hin Hk Hv. apply Hnone; [done|]. by rewrite Hd.
  - intros Hnot.
    destruct (insert_cases
                (with_provenance recording event_timestamp event_data) t (Some b) st)
      as [[_ Hraise]|[Hall _]]; [exact Hraise|].
    exfalso. apply Hnot. split; [|split; [|split]].
    + intros k Hk.
      destruct (decide (k ∈ ["timestamp"; "recording_id"; "recording_timestamp"]))
        as [Hin|Hin].
      * rewrite !elem_of_cons, elem_of_nil in Hin.
        destruct Hin as [->|[->|[->|[]]]]; apply Hall; by eexists.
      * apply Hall. by rewrite Hd.
    + apply Hall. by eexists.
    + apply Hall. by eexists.
    + apply Hall. by eexists.
Qed.

(** C8, amended. A call of [insert_action_event], [insert_screenshot] or
    [insert_window_event] inserts a row exactly when the keys of the event
    data and ['timestamp'], ['recording_id'] and ['recording_timestamp']
    are all columns of the table.  The row maps ['timestamp'] to the event
    timestamp, ['recording_id'] to the id of the recording,
    ['recording_timestamp'] to its timestamp, every other key of the event
    data to its value and every other column to [None]; it follows
    whatever was waiting in the buffer, which is nothing when the buffer
    was empty.  Every other call raises [AssertionError] and inserts
    nothing. *)
Theorem events_recorded_with_provenance (ActionEvent Screenshot WindowEvent : table)
    recording event_timestamp event_data st :
  ((known_keys ActionEvent event_data ->
    records ActionEvent action_events recording event_timestamp event_data st
      (insert_action_event ActionEvent recording event_timestamp event_data st)) /\
   (~ known_keys ActionEvent event_data ->
    insert_action_event ActionEvent recording event_timestamp event_data st
      = inl AssertionError)) /\
  ((known_keys Screenshot event_data ->
    records Screenshot screenshots recording event_timestamp event_data st
      (insert_screenshot Screenshot recording event_timestamp event_data st)) /\
   (~ known_keys Screenshot event_data ->
    insert_screenshot Screenshot recording event_timestamp event_data st
      = inl AssertionError)) /\
  ((known_keys WindowEvent event_data ->
    records WindowEvent window_events recording event_timestamp event_data st
      (insert_window_event WindowEvent recording event_timestamp event_data st)) /\
   (~ known_keys WindowEvent event_data ->
    insert_window_event WindowEvent recording event_timestamp event_data st
      = inl AssertionError)).
Proof. split; [|split]; apply insert_records. Qed.

(** C8 as stated fails: an event with a key that is not a column raises
    [AssertionError], and no row is inserted. *)
Lemma unknown_key_not_recorded :
  insert_action_event small_table a_recording (VInt 5) {[ "bogus" := VInt 1 ]} initial
    = inl AssertionError.
Proof. vm_compute. reflexivity. Qed.

(** C8, amended, on a click at time 5 of recording 7, and on the same click
    for a table without the column [recording_id]. *)
Lemma events_recorded_with_provenance_witness :
  known_keys small_table {[ "name" := VStr "click" ]} /\
  (exists row st',
     insert_action_event small_table a_recording (VInt 5)
       {[ "name" := VStr "click" ]} initial = inr st' /\
     inserted st' = [(small_table, row)] /\
     row !! "timestamp" = Some (VInt 5) /\
     row !! "recording_id" = Some (VInt 7) /\
     row !! "name" = Some (VStr "click")) /\
  ~ known_keys (Table "t" ["name"; "timestamp"]) {[ "name" := VStr "click" ]} /\
  insert_action_event (Table "t" ["name"; "timestamp"]) a_recording (VInt 5)
    {[ "name" := VStr "click" ]} initial = inl AssertionError.
Proof.
  assert (Hname : "name" ∉ ["timestamp"; "recording_id"; "recording_timestamp"]).
  { rewrite !not_elem_of_cons, elem_of_nil. repeat split; (discriminate || tauto). }
  assert (Hk : known_keys small_table {[ "name" := VStr "click" ]}).
  { split.
    - intros k [v Hk]. apply lookup_singleton_Some in Hk as [<- _].
      unfold small_table. cbn. apply list_elem_of_further, list_elem_of_here.
    - unfold small_table. cbn. repeat split.
      + do 2 apply list_elem_of_further. apply list_elem_of_here.
      + do 3 apply list_elem_of_further. apply list_elem_of_here.
      + do 4 apply list_elem_of_further. apply list_elem_of_here. }
  assert (Hn : ~ known_keys (Table "t" ["name"; "timestamp"])
                 {[ "name" := VStr "click" ]}).
  { intros (_ & _ & Hid & _). cbn in Hid.
    rewrite !elem_of_cons, elem_of_nil in Hid.
    destruct Hid as [Hid|[Hid|[]]]; discriminate Hid. }
  split; [exact Hk|].
  destruct (events_recorded_with_provenance small_table small_table small_table
              a_recording (VInt 5) {[ "name" := VStr "click" ]} initial)
    as [[Hrec _] _].
  destruct (events_recorded_with_provenance (Table "t" ["name"; "timestamp"])
              small_table small_table
              a_recording (VInt 5) {[ "name" := VStr "click" ]} initial)
    as [[_ Hraise] _].
  split; [|split; [exact Hn|exact (Hraise Hn)]].
  destruct (Hrec Hk) as (row & st' & Hins & _ & Hone & Hts & Hid & _ & Hval & _).
  exists row, st'. split; [exact Hins|]. split; [by apply Hone|].
  split; [exact Hts|]. split; [exact Hid|].
  apply Hval; [exact Hname|by rewrite lookup_singleton_eq].
Defined.

(** *** The lock *)

(** While the event is set nobody holds the lock; while it is cleared at
    most one caller does. *)
Definition lock_invariant (w : world) : Prop :=
  if lock (module w) then holders w = [] else (length (holders w) <= 1)%nat.

Definition is_resume (a : action) : bool :=
  match a with Resume _ => true | _ => false end.

(** A run that ends with no caller suspended and in which no caller was
    resumed has never suspended a caller, and has kept the invariant. *)
Lemma steps_unsuspended l w0 w :
  Forall (fun a => is_resume a = false) l ->
  steps l w0 = Some w -> waiting w = [] ->
  waiting w0 = [] /\ (lock_invariant w0 -> lock_invariant w).
Proof.
  intros Hl. revert w0. induction Hl as [|a l Ha _ IH]; intros w0; cbn [steps].
  - by intros [= <-].
  - destruct (step a w0) as [w1|] eqn:Hstep; cbn [mbind option_bind]; [|done].
    intros Hsteps Hw. destruct (IH w1 Hsteps Hw) as [Hw1 Hinv].
    unfold lock_invariant in *.
    destruct a as [who|who|]; [| done |]; cbn in Hstep.
    + unfold acquire_db_lock in Hstep. destruct (lock (module w0)).
      * injection Hstep as <-. cbn in *. split; [done|].
        intros Hh. apply Hinv. rewrite Hh. cbn. lia.
      * injection Hstep as <-. cbn in Hw1. by apply app_eq_nil in Hw1 as [_ [=]].
    + injection Hstep as <-. cbn in *. split; [by apply fmap_nil_inv in Hw1|].
      intros _. by apply Hinv.
Qed.

(** C6. On a set event [acquire_db_lock] completes at once, clears the
    event and returns [True]; on a cleared event the caller is suspended.
    [release_db_lock] sets the event and replaces the session.  A caller
    that has been woken completes whatever the event is by then, so that
    the lock does not exclude: after callers 2 and 3 have been suspended
    and one [release_db_lock] has woken them, both complete, caller 3 while
    the event is cleared and caller 2 holds the lock, and with no release
    between the two; and a caller that acquires between the release and the
    resumption of a woken caller holds the lock together with that caller.
    At most one caller holds the lock as long as no caller has been
    suspended. *)
Theorem lock_not_exclusive :
  (forall st,
     match acquire_db_lock st with
     | Acquired r st' => lock st = true /\ r = true /\ lock st' = false
     | Suspended => lock st = false
     end) /\
  (forall st,
     (acquire_db_lock_resumed st).1 = true /\
     lock (acquire_db_lock_resumed st).2 = false) /\
  (forall st,
     lock (release_db_lock st) = true /\
     db (release_db_lock st) <> db st /\
     closed (release_db_lock st) = closed st ++ [db st]) /\
  (exists w1 w2,
     steps [Acquire 1; Acquire 2; Acquire 3; Release; Resume 2]%nat
       (World initial [] []) = Some w1 /\
     lock (module w1) = false /\ holders w1 = [2%nat] /\
     step (Resume 3%nat) w1 = Some w2 /\ holders w2 = [3; 2]%nat) /\
  (exists w,
     steps [Acquire 1; Acquire 2; Release; Acquire 3; Resume 2]%nat
       (World initial [] []) = Some w /\
     holders w = [2; 3]%nat) /\
  (forall l w,
     Forall (fun a => is_resume a = false) l ->
     steps l (World initial [] []) = Some w -> waiting w = [] ->
     (length (holders w) <= 1)%nat).
Proof.
  split; [|split; [|split; [|split; [|split]]]].
  - intros st. unfold acquire_db_lock. by destruct (lock st).
  - done.
  - intros st. cbn. split; [done|]. split; [lia|done].
  - eexists _, _. split; [reflexivity|]. split; [reflexivity|].
    split; [reflexivity|]. split; reflexivity.
  - eexists. split; reflexivity.
  - intros l w Hl Hsteps Hw.
    destruct (steps_unsuspended l _ w Hl Hsteps Hw) as [_ Hinv].
    specialize (Hinv eq_refl). unfold lock_invariant in Hinv.
    destruct (lock (module w)); [rewrite Hinv; cbn; lia|done].
Qed.

End CrudFacts.


(** * experiments/cursor/sample.py: more of the loop *)
Module SampleRunFacts.
Import Sample SampleFacts PyFacts.

(** *** The overlap ratio *)

Lemma py_max_spec a b :
  (a <= py_max a b)%Q /\ (b <= py_max a b)%Q /\ (py_max a b = a \/ py_max a b = b).
Proof.
  unfold py_max. destruct (a ?= b)%Q eqn:E.
  - apply Qeq_alt in E. split; [lra|]. split; [lra|]. by left.
  - apply Qlt_alt in E. split; [lra|]. split; [lra|]. by right.
  - apply Qgt_alt in E. split; [lra|]. split; [lra|]. by left.
Qed.

(** The two ratios of a pair of rectangles lie between 0 and 1. *)
Lemma overlap_pair_ratios rect1 rect2 :
  exists q1 q2, (0 <= q1 <= 1)%Q /\ (0 <= q2 <= 1)%Q /\
    forall acc, overlap_pair rect1 rect2 acc = py_max (py_max acc q1) q2.
Proof.
  destruct rect1 as [[[a0 a1] a2] a3], rect2 as [[[b0 b1] b2] b3].
  unfold overlap_pair.
  set (ow := Z.max 0 (Z.min a2 b2 - Z.max a0 b0)).
  set (oh := Z.max 0 (Z.min a3 b3 - Z.max a1 b1)).
  assert (Hratio : forall w h, 0 <= ow <= Z.max 0 w -> 0 <= oh <= Z.max 0 h ->
    (0 <= (if 0 <? w * h then inject_Z (ow * oh) / inject_Z (w * h) else 0) <= 1)%Q).
  { intros w h Hw Hh. destruct (Z.ltb_spec 0 (w * h)) as [Hpos|]; [|lra].
    assert (0 <= ow * oh <= w * h) by nia.
    assert (0 < inject_Z (w * h))%Q by (change 0%Q with (inject_Z 0); by rewrite <- Zlt_Qlt).
    assert (0 <= inject_Z (ow * oh))%Q
      by (change 0%Q with (inject_Z 0); rewrite <- Zle_Qle; lia).
    assert (inject_Z (ow * oh) <= inject_Z (w * h))%Q by (rewrite <- Zle_Qle; lia).
    split.
    - apply Qle_shift_div_l; [done|]. lra.
    - apply Qle_shift_div_r; [done|]. lra. }
  eexists _, _. split; [|split; [|reflexivity]].
  - apply Hratio; unfold ow, oh; lia.
  - apply Hratio; unfold ow, oh; lia.
Qed.

Lemma overlap_pair_order rect1 rect2 acc :
  (0 <= acc)%Q ->
  (acc <= overlap_pair rect1 rect2 acc)%Q /\
  (overlap_pair rect1 rect2 0 <= overlap_pair rect1 rect2 acc)%Q /\
  (0 <= overlap_pair rect1 rect2 0 <= 1)%Q /\
  (overlap_pair rect1 rect2 acc == acc \/
   overlap_pair rect1 rect2 acc == overlap_pair rect1 rect2 0)%Q.
Proof.
  intros Hacc.
  destruct (overlap_pair_ratios rect1 rect2) as (q1 & q2 & Hq1 & Hq2 & Hpair).
  rewrite (Hpair acc), (Hpair 0%Q). clear Hpair.
  destruct (py_max_spec acc q1) as (Ha1 & Ha2 & Ha).
  destruct (py_max_spec (py_max acc q1) q2) as (Hb1 & Hb2 & Hb).
  destruct (py_max_spec 0 q1) as (Hc1 & Hc2 & Hc).
  destruct (py_max_spec (py_max 0 q1) q2) as (Hd1 & Hd2 & Hd).
  set (m1 := py_max acc q1) in *. set (m2 := py_max m1 q2) in *.
  set (n1 := py_max 0 q1) in *. set (n2 := py_max n1 q2) in *.
  assert (Hn1 : (n1 <= m1)%Q) by (destruct Hc as [-> | ->]; lra).
  assert (Hn2 : (n2 <= m2)%Q) by (destruct Hd as [-> | ->]; lra).
  split; [lra|]. split; [exact Hn2|]. split.
  - destruct Hd as [-> | ->]; [destruct Hc as [-> | ->]|]; lra.
  - destruct Hb as [Hb | Hb]; [destruct Ha as [Ha | Ha]|].
    + left. rewrite Hb, Ha. reflexivity.
    + right. rewrite Hb, Ha in *. lra.
    + right. rewrite Hb in *. lra.
Qed.

(** A fold that keeps the largest of the candidates that its elements
    offer. *)
Section FoldMax.
Context {X : Type} (step : Q -> X -> Q) (offers : X -> Q -> Prop).
Hypothesis step_order : forall acc x, (0 <= acc)%Q ->
  (acc <= step acc x)%Q /\
  (forall q, offers x q -> (q <= step acc x)%Q) /\
  ((step acc x == acc)%Q \/ exists q, offers x q /\ (step acc x == q)%Q).

Lemma fold_max l acc :
  (0 <= acc)%Q ->
  (acc <= fold_left step l acc)%Q /\
  (forall x q, x ∈ l -> offers x q -> (q <= fold_left step l acc)%Q) /\
  ((fold_left step l acc == acc)%Q \/
   exists x q, x ∈ l /\ offers x q /\ (fold_left step l acc == q)%Q).
Proof.
  revert acc. induction l as [|x l IH]; intros acc Hacc; cbn.
  - split; [lra|]. split; [|by left]. intros x q Hx. by apply elem_of_nil in Hx.
  - destruct (step_order acc x Hacc) as (Hge & Hoffer & Hcase).
    destruct (IH (step acc x)) as (IHge & IHoffer & IHcase); [lra|].
    split; [lra|]. split.
    + intros y q Hy Hq. apply elem_of_cons in Hy as [->|Hy].
      * specialize (Hoffer q Hq). lra.
      * by apply (IHoffer y).
    + destruct IHcase as [Heq|(y & q & Hy & Hq & Heq)].
      * destruct Hcase as [Heq'|(q & Hq & Heq')].
        -- left. by rewrite Heq.
        -- right. exists x, q. split; [apply list_elem_of_here|].
           split; [done|]. by rewrite Heq.
      * right. exists y, q. split; [by apply list_elem_of_further|]. done.
Qed.

End FoldMax.

Lemma elem_of_enumerate {A} (l : list A) i x :
  (i, x) ∈ enumerate l <-> l !! i = Some x.
Proof.
  unfold enumerate. rewrite list_elem_of_lookup. split.
  - intros (k & Hk). apply lookup_zip_with_Some in Hk as (i' & x' & [= <- <-] & Hi & Hx).
    apply lookup_seq in Hi as [-> _]. done.
  - intros Hx. exists i. apply lookup_zip_with_Some. exists i, x.
    split; [done|]. split; [|done]. apply lookup_seq. split; [done|].
    by apply lookup_lt_Some in Hx.
Qed.

Lemma compute_max_overlap_pairs rectangles :
  let m := compute_max_overlap rectangles in
  (forall i j rect1 rect2, i <> j ->
     rectangles !! i = Some rect1 -> rectangles !! j = Some rect2 ->
     (overlap_pair rect1 rect2 0 <= m)%Q) /\
  ((m == 0)%Q \/
   exists i j rect1 rect2, i <> j /\
     rectangles !! i = Some rect1 /\ rectangles !! j = Some rect2 /\
     (m == overlap_pair rect1 rect2 0)%Q).
Proof.
  intros m.
  set (inner := fun (i : nat) (rect1 : rect) (acc : Q) '((j, rect2) : nat * rect) =>
    if decide (i = j) then acc else overlap_pair rect1 rect2 acc).
  set (pairs := fun (i : nat) (rect1 : rect) '((j, rect2) : nat * rect) (q : Q) =>
    i <> j /\ q = overlap_pair rect1 rect2 0).
  set (outer := fun (acc : Q) '((i, rect1) : nat * rect) =>
    fold_left (inner i rect1) (enumerate rectangles) acc).
  set (rows := fun '((i, rect1) : nat * rect) (q : Q) =>
    exists j rect2, (j, rect2) ∈ enumerate rectangles /\ pairs i rect1 (j, rect2) q).
  assert (Hinner : forall i rect1 acc x, (0 <= acc)%Q ->
    (acc <= inner i rect1 acc x)%Q /\
    (forall q, pairs i rect1 x q -> (q <= inner i rect1 acc x)%Q) /\
    ((inner i rect1 acc x == acc)%Q \/
     exists q, pairs i rect1 x q /\ (inner i rect1 acc x == q)%Q)).
  { intros i rect1 acc [j rect2] Hacc. unfold inner, pairs.
    destruct (overlap_pair_order rect1 rect2 acc Hacc) as (H1 & H2 & H3 & H4).
    destruct (decide (i = j)) as [->|Hne].
    - split; [lra|]. split; [by intros q [? _]|]. left. reflexivity.
    - split; [done|]. split; [by intros q [_ ->]|].
      destruct H4 as [H4|H4]; [by left|]. right. eexists. split; [done|]. done. }
  assert (Houter : forall acc x, (0 <= acc)%Q ->
    (acc <= outer acc x)%Q /\
    (forall q, rows x q -> (q <= outer acc x)%Q) /\
    ((outer acc x == acc)%Q \/ exists q, rows x q /\ (outer acc x == q)%Q)).
  { intros acc [i rect1] Hacc. unfold outer, rows.
    destruct (fold_max (inner i rect1) (pairs i rect1) (Hinner i rect1)
                (enumerate rectangles) acc Hacc) as (H1 & H2 & H3).
    split; [done|]. split.
    - intros q (j & rect2 & Hin & Hq). by apply (H2 (j, rect2)).
    - destruct H3 as [H3|([j rect2] & q & Hin & Hq & H3)]; [by left|].
      right. exists q. split; [|done]. by exists j, rect2. }
  destruct (fold_max outer rows Houter (enumerate rectangles) 0%Q) as (H1 & H2 & H3);
    [lra|].
  change (fold_left outer (enumerate rectangles) 0%Q) with m in *.
  assert (Hpairs : forall i j rect1 rect2, i <> j ->
    rectangles !! i = Some rect1 -> rectangles !! j = Some rect2 ->
    (overlap_pair rect1 rect2 0 <= m)%Q).
  { intros i j rect1 rect2 Hne Hi Hj.
    apply (H2 (i, rect1)); [by apply elem_of_enumerate|].
    exists j, rect2. split; [by apply elem_of_enumerate|]. done. }
  assert (Hsome : (m == 0)%Q \/
    exists i j rect1 rect2, i <> j /\
      rectangles !! i = Some rect1 /\ rectangles !! j = Some rect2 /\
      (m == overlap_pair rect1 rect2 0)%Q).
  { destruct H3 as [H3|([i rect1] & q & Hin & (j & rect2 & Hin' & Hne & ->) & H3)];
      [by left|].
    right. exists i, j, rect1, rect2. split; [done|].
    split; [by apply elem_of_enumerate|]. split; [by apply elem_of_enumerate|]. done. }
  by split.
Qed.

(** The area of a rectangle [(x0, y0, x1, y1)], the area that two
    rectangles have in common, and the part of the first rectangle that the
    second one covers, which counts as 0 for a rectangle without a positive
    area. *)
Definition rect_area (r : rect) : Z :=
  let '(x0, y0, x1, y1) := r in (x1 - x0) * (y1 - y0).

Definition common_area (r1 r2 : rect) : Z :=
  let '(a0, a1, a2, a3) := r1 in
  let '(b0, b1, b2, b3) := r2 in
  Z.max 0 (Z.min a2 b2 - Z.max a0 b0) * Z.max 0 (Z.min a3 b3 - Z.max a1 b1).

Definition covered (r1 r2 : rect) : Q :=
  if 0 <? rect_area r1 then (inject_Z (common_area r1 r2) / inject_Z (rect_area r1))%Q
  else 0%Q.

Lemma overlap_pair_covered rect1 rect2 acc :
  overlap_pair rect1 rect2 acc =
  py_max (py_max acc (covered rect1 rect2)) (covered rect2 rect1).
Proof.
  destruct rect1 as [[[a0 a1] a2] a3], rect2 as [[[b0 b1] b2] b3].
  unfold overlap_pair, covered, common_area, rect_area.
  by rewrite (Z.min_comm b2 a2), (Z.max_comm b0 a0), (Z.min_comm b3 a3),
    (Z.max_comm b1 a1).
Qed.

Lemma covered_bounds rect1 rect2 : (0 <= covered rect1 rect2 <= 1)%Q.
Proof.
  destruct rect1 as [[[a0 a1] a2] a3], rect2 as [[[b0 b1] b2] b3].
  unfold covered, common_area, rect_area.
  set (ow := Z.max 0 (Z.min a2 b2 - Z.max a0 b0)).
  set (oh := Z.max 0 (Z.min a3 b3 - Z.max a1 b1)).
  destruct (Z.ltb_spec 0 ((a2 - a0) * (a3 - a1))) as [Hpos|]; [|lra].
  assert (0 <= ow * oh <= (a2 - a0) * (a3 - a1)) by (unfold ow, oh; nia).
  assert (0 < inject_Z ((a2 - a0) * (a3 - a1)))%Q
    by (change 0%Q with (inject_Z 0); by rewrite <- Zlt_Qlt).
  assert (0 <= inject_Z (ow * oh))%Q
    by (change 0%Q with (inject_Z 0); rewrite <- Zle_Qle; lia).
  assert (inject_Z (ow * oh) <= inject_Z ((a2 - a0) * (a3 - a1)))%Q
    by (rewrite <- Zle_Qle; lia).
  split.
  - apply Qle_shift_div_l; [done|]. lra.
  - apply Qle_shift_div_r; [done|]. lra.
Qed.

(** X1. The overlap ratio that [draw_labelled_cursors] returns is the
    largest, over the ordered pairs of distinct rectangles, of the part of
    the first rectangle that the second covers: the area that the two have
    in common over the area of the first, or 0 when the first has no
    positive area.  It is at least the ratio of every such pair, and it is
    the ratio of one of them or 0; it lies between 0 and 1, and is 0 when
    there are fewer than two rectangles. *)
Theorem compute_max_overlap_largest rectangles :
  let m := compute_max_overlap rectangles in
  (0 <= m <= 1)%Q /\
  (forall i j rect1 rect2, i <> j ->
     rectangles !! i = Some rect1 -> rectangles !! j = Some rect2 ->
     (covered rect1 rect2 <= m)%Q) /\
  ((m == 0)%Q \/
   exists i j rect1 rect2, i <> j /\
     rectangles !! i = Some rect1 /\ rectangles !! j = Some rect2 /\
     (m == covered rect1 rect2)%Q) /\
  ((length rectangles <= 1)%nat -> (m == 0)%Q).
Proof.
  intros m. destruct (compute_max_overlap_pairs rectangles) as [Hpairs Hsome].
  fold m in Hpairs, Hsome.
  assert (Hmax : forall rect1 rect2,
    (covered rect1 rect2 <= overlap_pair rect1 rect2 0)%Q /\
    (overlap_pair rect1 rect2 0 == 0 \/
     overlap_pair rect1 rect2 0 == covered rect1 rect2 \/
     overlap_pair rect1 rect2 0 == covered rect2 rect1)%Q).
  { intros rect1 rect2. rewrite overlap_pair_covered.
    destruct (py_max_spec 0 (covered rect1 rect2)) as (H1 & H2 & H3).
    destruct (py_max_spec (py_max 0 (covered rect1 rect2)) (covered rect2 rect1))
      as (H4 & H5 & H6).
    split; [lra|].
    destruct H6 as [-> | ->]; [|by right; right].
    destruct H3 as [-> | ->]; [by left|by right; left]. }
  assert (Hsome' : (m == 0)%Q \/
    exists i j rect1 rect2, i <> j /\
      rectangles !! i = Some rect1 /\ rectangles !! j = Some rect2 /\
      (m == covered rect1 rect2)%Q).
  { destruct Hsome as [?|(i & j & rect1 & rect2 & Hne & Hi & Hj & Hm)]; [by left|].
    destruct (Hmax rect1 rect2) as [_ [H0|[H1|H2]]].
    - left. by rewrite Hm.
    - right. exists i, j, rect1, rect2. by rewrite Hm.
    - right. exists j, i, rect2, rect1. split; [done|]. by rewrite Hm. }
  split; [|split; [|split; [exact Hsome'|]]].
  - destruct Hsome' as [->|(i & j & rect1 & rect2 & _ & _ & _ & ->)]; [lra|].
    apply covered_bounds.
  - intros i j rect1 rect2 Hne Hi Hj.
    destruct (Hmax rect1 rect2) as [Hle _].
    specialize (Hpairs i j rect1 rect2 Hne Hi Hj). lra.
  - intros Hlen.
    destruct Hsome' as [?|(i & j & rect1 & rect2 & Hne & Hi & Hj & _)]; [done|].
    apply lookup_lt_Some in Hi, Hj. lia.
Qed.


(** *** Where the cursors are *)

Definition inside (width height : Z) (p : position) : Prop :=
  0 <= pos_x p < width /\ 0 <= pos_y p < height.

Lemma generate_cursors_inside center spread width height jitter random :
  0 < width -> 0 < height ->
  Forall (inside width height)
    (generate_cursors center spread width height jitter random).
Proof.
  intros Hw Hh. rewrite generate_cursors_cells.
  repeat apply Forall_cons_2; [..|apply Forall_nil_2];
    unfold inside, cursor_at; cbn [pos_x pos_y]; lia.
Qed.

Definition is_retry (e : event) : bool :=
  match e with Retry _ _ => true | _ => false end.

(** The number of times that the loop has gone back to the previous
    level. *)
Definition retries (t : list event) : nat := length (filter is_retry t).

Lemma retries_app t t' : retries (t ++ t') = (retries t + retries t')%nat.
Proof. unfold retries. by rewrite filter_app, length_app. Qed.

Section LoopB.

Context (textbbox : Z -> string -> rect) (screenshot : picture)
        (inner_color : color) (max_iterations : option Z).

Local Abbreviation render := (render textbbox screenshot inner_color).
Local Abbreviation inner_pass := (inner_pass textbbox screenshot inner_color).
Local Abbreviation iteration_begin := (iteration_begin max_iterations).
Local Abbreviation run := (run textbbox screenshot inner_color max_iterations).
Local Abbreviation main_loop := (main_loop textbbox screenshot inner_color max_iterations).
Local Abbreviation width := (width screenshot).
Local Abbreviation height := (height screenshot).
Local Abbreviation initial := (initial screenshot).

(** X2. On a screenshot of positive width and height, whatever the model
    answers, every location that the loop has identified and the centre of
    the next region lie inside the screenshot. *)
Theorem identified_locations_inside inputs s :
  0 < width -> 0 < height ->
  reaches (main_loop inputs) s ->
  Forall (inside width height) (identified_locations s) /\
  inside width height (center s).
Proof.
  intros Hw Hh Hreach.
  set (P := fun s : state =>
    Forall (inside width height) (identified_locations s) /\
    inside width height (center s) /\
    Forall (inside width height) (center_history s)).
  set (Q := fun o : outcome =>
    match o with
    | Running s | Exited _ s =>
        Forall (inside width height) (identified_locations s) /\
        inside width height (center s)
    | Raised _ _ => True
    end).
  assert (Hrun : forall s, P s -> Q (run inputs s)).
  { intros s0. apply (run_ind _ _ _ _ (fun _ => True)); [by intros ? (? & ? & _)| |].
    2: { apply Forall_forall. done. }
    clear s0. intros inp s0 _ (Hids & Hc & Hch).
    destruct (inner_pass_cases textbbox screenshot inner_color inp s0)
      as [(e & s' & ->)|(s1 & Hr & Hcase)]; [done|].
    apply render_fields in Hr
      as (Hc1 & _ & _ & Hids1 & Hch1 & _ & _ & _ & _ & Hcs1).
    cbn zeta in Hcase. destruct Hcase as [[_ ->]|(z & _ & ->)].
    - destruct (retry (parse (reply inp) s1)) as [s2|mc s2|e s2] eqn:Hretry;
        [|by apply retry_not_break in Hretry|done].
      apply retry_fields in Hretry as (_ & Hids2 & _ & _ & _ & _ & Hpop & _).
      change (identified_locations (parse (reply inp) s1))
        with (identified_locations s1) in Hids2.
      change (center_history (parse (reply inp) s1)) with (center_history s1) in Hpop.
      apply py_pop_Some in Hpop. rewrite Hch1 in Hpop. rewrite Hpop in Hch.
      apply Forall_app in Hch as [Hch Hlast]. rewrite Forall_singleton in Hlast.
      split; [by rewrite Hids2, Hids1|]. by split.
    - destruct (vote_cases z (parse (reply inp) s1))
        as (mc & s2 & _ & Hcast & [[_ ->]|[_ ->]]);
        destruct Hcast as (_ & Hc2 & _ & _ & Hids2 & Hch2 & _ & Hcs2 & _);
        change (center (parse (reply inp) s1)) with (center s1) in Hc2;
        change (identified_locations (parse (reply inp) s1))
          with (identified_locations s1) in Hids2;
        change (center_history (parse (reply inp) s1)) with (center_history s1) in Hch2;
        change (cursors (parse (reply inp) s1)) with (cursors s1) in Hcs2.
      2: { split; [by rewrite Hids2, Hids1|]. split; [by rewrite Hc2, Hc1|].
           by rewrite Hch2, Hch1. }
      destruct (iteration_end_cases mc s2)
        as [[_ ->]|(loc & s3 & Hloc & Href & Hend)]; [done|].
      destruct Href as (Hc3 & _ & Hids3 & Hch3 & _).
      assert (Hin : inside width height loc).
      { apply py_index_elem_of in Hloc. rewrite Hcs2, Hcs1 in Hloc.
        pose proof (generate_cursors_inside (center s0) (spread s0) width height
                      default_jitter (random inp) Hw Hh) as Hall.
        rewrite Forall_forall in Hall. by apply Hall. }
      assert (Hs3 : Forall (inside width height) (identified_locations s3) /\
                    inside width height (center s3)).
      { rewrite Hids3, Hc3. split; [|done]. apply Forall_app. split.
        - by rewrite Hids2, Hids1.
        - by rewrite Forall_singleton. }
      destruct Hend as [(_ & _ & ->)|(_ & _ & ->)]; [exact Hs3|].
      destruct (iteration_begin_cases max_iterations s3)
        as [[-> _]|(s4 & -> & Hc4 & _ & _ & Hids4 & Hch4 & _)]; [exact Hs3|].
      destruct Hs3 as [Hs3 Hs3']. split; [by rewrite Hids4|].
      split; [by rewrite Hc4|]. rewrite Hch4. apply Forall_app. split.
      + by rewrite Hch3, Hch2, Hch1.
      + by rewrite Forall_singleton. }
  assert (Hmain : Q (main_loop inputs)).
  { unfold Sample.main_loop.
    assert (Hinit : inside width height (center initial)).
    { unfold inside. cbn [center pos_x pos_y Sample.initial].
      pose proof (Z.div_pos width 2). pose proof (Z.div_lt_upper_bound width 2 width).
      pose proof (Z.div_pos height 2). pose proof (Z.div_lt_upper_bound height 2 height).
      lia. }
    destruct (iteration_begin_cases max_iterations initial)
      as [[-> _]|(s0 & -> & Hc & _ & _ & Hids & Hch & _)]; [by split|].
    apply Hrun. split; [by rewrite Hids|]. split; [by rewrite Hc|].
    rewrite Hch. apply Forall_app. split; [apply Forall_nil_2|by rewrite Forall_singleton]. }
  destruct Hreach as [Ho|[why Ho]]; rewrite Ho in Hmain; exact Hmain.
Qed.

Lemma render_trace random s s1 :
  render random s = Some s1 -> retries (trace s1) = retries (trace s).
Proof.
  unfold Sample.render. destruct (image_copy _ _) as [copy h].
  destruct (draw_labelled_cursors _ _ _ _ _ _ _ _ _ _) as [[[ci ov] h']|];
    [|done].
  cbn. intros [= <-]. cbn [trace]. rewrite retries_app.
  change (retries [_; _; _]) with 0%nat. lia.
Qed.

Lemma run_running_app inputs more s s' :
  run inputs s = Running s' -> run (inputs ++ more) s = run more s'.
Proof.
  revert s. induction inputs as [|inp inputs IH]; intros s; cbn; [by intros [= ->]|].
  destruct (inner_pass inp s) as [s1|mc s1|e s1]; [auto| |done].
  destruct (iteration_end mc s1) as [s2|s2|e s2]; [|done|done].
  destruct (iteration_begin s2) as [s3|]; [auto|done].
Qed.

(** At the head of a pass one level of the history is left for each
    location identified, and one more, less the retries. *)
Definition levels_left (s : state) : Prop :=
  length (spread_history s) = length (center_history s) /\
  (length (center_history s) + retries (trace s) =
   1 + length (identified_locations s))%nat.

Lemma run_levels inputs s s' :
  levels_left s -> run inputs s = Running s' -> levels_left s'.
Proof.
  intros Hs Hrun.
  set (Q := fun o : outcome =>
    match o with Running s => levels_left s | _ => True end).
  cut (Q (run inputs s)); [by rewrite Hrun|].
  apply (run_ind _ _ _ _ (fun _ => True) levels_left); [done| |by apply Forall_forall|done].
  clear. intros inp s0 _ [Hlen Hcount].
  destruct (inner_pass_cases textbbox screenshot inner_color inp s0)
    as [(e & s' & ->)|(s1 & Hr & Hcase)]; [done|].
  pose proof (render_trace _ _ _ Hr) as Ht1.
  apply render_fields in Hr
    as (_ & _ & _ & Hids1 & Hch1 & Hsh1 & _).
  cbn zeta in Hcase. destruct Hcase as [[_ ->]|(z & _ & ->)].
  - destruct (retry (parse (reply inp) s1)) as [s2|mc s2|e s2] eqn:Hretry;
      [|by apply retry_not_break in Hretry|done].
    apply retry_fields in Hretry
      as (_ & Hids2 & _ & _ & _ & _ & Hpop & Hpop' & Ht2).
    change (identified_locations (parse (reply inp) s1))
      with (identified_locations s1) in Hids2.
    change (center_history (parse (reply inp) s1)) with (center_history s1) in Hpop.
    change (spread_history (parse (reply inp) s1)) with (spread_history s1) in Hpop'.
    change (trace (parse (reply inp) s1)) with (trace s1) in Ht2.
    apply py_pop_Some in Hpop. apply py_pop_Some in Hpop'.
    rewrite Hch1 in Hpop. rewrite Hsh1 in Hpop'.
    rewrite Hpop, Hpop' in *. rewrite !length_app in *. cbn [length] in *.
    split; [lia|]. rewrite Ht2, retries_app, Ht1, Hids2, Hids1.
    change (retries [Retry _ _]) with 1%nat. lia.
  - destruct (vote_cases z (parse (reply inp) s1))
      as (mc & s2 & _ & Hcast & [[_ ->]|[_ ->]]);
      destruct Hcast as (_ & _ & _ & _ & Hids2 & Hch2 & Hsh2 & _ & _ & _ & Ht2 & _);
      change (identified_locations (parse (reply inp) s1))
        with (identified_locations s1) in Hids2;
      change (center_history (parse (reply inp) s1)) with (center_history s1) in Hch2;
      change (spread_history (parse (reply inp) s1)) with (spread_history s1) in Hsh2;
      change (trace (parse (reply inp) s1)) with (trace s1) in Ht2.
    2: { split; [congruence|].
         rewrite Ht2, retries_app, Ht1, Hids2, Hids1, Hch2, Hch1.
         change (retries [Vote _]) with 0%nat. lia. }
    destruct (iteration_end_cases mc s2)
      as [[_ ->]|(loc & s3 & _ & Href & Hend)]; [done|].
    destruct Href as (_ & _ & Hids3 & Hch3 & Hsh3 & _ & _ & _ & _ & _ & Ht3).
    destruct Hend as [(_ & _ & ->)|(_ & _ & ->)]; [done|].
    destruct (iteration_begin_cases max_iterations s3)
      as [[-> _]|(s4 & -> & _ & _ & _ & Hids4 & Hch4 & Hsh4 & _ & _ & _ & Ht4 & _)];
      [done|].
    split.
    + rewrite Hch4, Hsh4, !length_app, Hch3, Hsh3, Hch2, Hsh2, Hch1, Hsh1. cbn. lia.
    + rewrite Hch4, Hids4, Ht4, Ht3, Hids3, !length_app, retries_app,
        Hch3, Ht2, retries_app, Ht1, Hids2, Hids1, Hch2, Hch1.
      change (retries [Vote _]) with 0%nat. change (retries [Refine _ _]) with 0%nat.
      cbn [length]. lia.
Qed.

(** X3. The loop can go back to the previous level at most once more than
    it has identified locations.  When the answer is ['closest': None] and
    the retries so far already number one more than the locations, the
    histories are empty and [center_history.pop()] raises [IndexError];
    otherwise the pass goes back one level, casts no vote and the loop goes
    on. *)
Theorem retry_budget inputs inp s :
  main_loop inputs = Running s -> reply inp = Closest PyNone ->
  (retries (trace s) <= 1 + length (identified_locations s))%nat /\
  if decide (retries (trace s) = 1 + length (identified_locations s))%nat
  then exists s', main_loop (inputs ++ [inp]) = Raised IndexError s'
  else exists s', main_loop (inputs ++ [inp]) = Running s' /\
         retries (trace s') = S (retries (trace s)) /\
         identified_locations s' = identified_locations s.
Proof.
  unfold Sample.main_loop.
  destruct (iteration_begin_cases max_iterations initial)
    as [[-> _]|(s0 & -> & _ & _ & _ & Hids & Hch & Hsh & _ & _ & _ & Ht & _)]; [done|].
  intros Hrun Hreply.
  assert (Hs : levels_left s).
  { apply (run_levels inputs s0); [|done]. split.
    - by rewrite Hch, Hsh.
    - by rewrite Hch, Ht, Hids. }
  destruct Hs as [Hlen Hcount]. split; [lia|].
  rewrite (run_running_app _ [inp] _ _ Hrun). cbn [Sample.run].
  unfold Sample.inner_pass.
  destruct (render_total textbbox screenshot inner_color (random inp) s) as [s1 Hr].
  rewrite Hr.
  pose proof (render_trace _ _ _ Hr) as Ht1.
  apply render_fields in Hr as (_ & _ & _ & Hids1 & Hch1 & Hsh1 & _).
  rewrite Hreply. cbn [closest parse]. unfold retry.
  cbn [center_history spread_history parse]. rewrite Hch1, Hsh1.
  destruct (center_history s) as [|c ch _] using rev_ind.
  - cbn in Hcount. rewrite decide_True by lia. cbn. eauto.
  - rewrite length_app in Hcount, Hlen. cbn in Hcount, Hlen.
    rewrite decide_False by lia.
    destruct (spread_history s) as [|sp sh _] using rev_ind; [cbn in Hlen; lia|].
    rewrite !py_pop_snoc. eexists. split; [reflexivity|].
    cbn [trace identified_locations parse]. rewrite retries_app, Ht1.
    change (retries [Retry _ _]) with 1%nat. split; [lia|done].
Qed.

End LoopB.

(** *** The colour that is returned *)
Section ColourBFacts.

Context (rng : Type) (seed : Z -> rng)
        (shuffle : list color -> rng -> list color * rng)
        (kmeans : Z -> Z -> list color -> option (list (Q * Q * Q)))
        (euclidean : color -> Q * Q * Q -> Q)
        (pixels : picture -> list color).

Local Abbreviation maximally_different_color :=
  (maximally_different_color rng seed shuffle kmeans euclidean pixels).



End ColourBFacts.

(** *** The rectangles of the cursors *)

(** The rectangle drawn for a cursor, lines 139-145. *)
Definition rect_of (rect_width rect_height : Z) (coords : position) : rect :=
  (pos_x coords - rect_width `div` 2, pos_y coords - rect_height `div` 2,
   pos_x coords + rect_width `div` 2, pos_y coords + rect_height `div` 2).

Lemma draw_cursors_rects textbbox o fs rw rh ic lc labels cs h rs h' :
  draw_cursors textbbox o fs rw rh ic lc labels cs h = Some (rs, h') ->
  rs = rect_of rw rh <$> cs.*2.
Proof.
  revert h rs h'. induction cs as [|[i coords] cs IH]; intros h rs h'; cbn.
  - by intros [= <- _].
  - destruct (label_of labels i) as [label|]; cbn; [|done].
    destruct (draw_cursors _ _ _ _ _ _ _ _ _ _) as [[rs' h'']|] eqn:Hrest; cbn; [|done].
    intros [= <- _]. f_equal. by apply IH in Hrest.
Qed.

Lemma draw_labelled_cursors_overlap textbbox o cs ic lc bg bt labels pad h img ov h' :
  draw_labelled_cursors textbbox o cs ic lc bg bt labels pad h = Some (img, ov, h') ->
  exists fs label,
    ov = compute_max_overlap
           (rect_of (bbox_w (textbbox fs label) + pad)
                    (bbox_h (textbbox fs label) + pad) <$> cs).
Proof.
  unfold draw_labelled_cursors.
  destruct (image_convert o h) as [o1 h1].
  destruct (image_new _ _ _ h1) as [o2 h2].
  destruct (alpha_composite o1 o2 h2) as [o3 h3].
  destruct (image_convert o3 h3) as [o4 h4].
  destruct (draw_cursors _ _ _ _ _ _ _ _ _ _) as [[rs h5]|] eqn:H5; cbn; [|done].
  intros [= _ <- _]. apply draw_cursors_rects in H5. subst rs.
  eexists _, _. f_equal. f_equal. unfold enumerate.
  apply snd_zip. by rewrite length_seq.
Qed.

(** *** Cursors that come close *)

Lemma py_int_zero q : (Qabs q < 1)%Q -> py_int q = 0.
Proof.
  intros Hq. pose proof (py_int_abs q) as Habs.
  assert (H : (Qabs (inject_Z (py_int q)) < 1)%Q) by lra.
  apply Qabs_Qlt_condition in H as [H1 H2].
  change (- (1))%Q with (inject_Z (-1)) in H1. change 1%Q with (inject_Z 1) in H2.
  rewrite <- Zlt_Qlt in H1, H2. lia.
Qed.

Lemma py_int_around q z d :
  (Qabs (q - inject_Z z) <= d)%Q -> (d < 1)%Q -> z - 1 <= py_int q <= z + 1.
Proof.
  intros Hq Hd. pose proof (py_int_near q) as Hnear.
  apply Qabs_Qle_condition in Hq as [Hq1 Hq2].
  apply Qabs_Qlt_condition in Hnear as [Hn1 Hn2].
  assert (H1 : (inject_Z (z - 2) < inject_Z (py_int q))%Q).
  { unfold Z.sub. rewrite inject_Z_plus. change (inject_Z (- (2))) with (-2)%Q. lra. }
  assert (H2 : (inject_Z (py_int q) < inject_Z (z + 2))%Q).
  { rewrite inject_Z_plus. change (inject_Z 2) with 2%Q. lra. }
  rewrite <- Zlt_Qlt in H1, H2. lia.
Qed.

(** Once the cells are at most half a pixel wide and high, the first and
    the third cursor are on the same line and at most two pixels apart. *)
Lemma cursors_close center spread width height rx ry rx' ry' :
  (0 <= inject_Z width * spread <= 1)%Q -> (0 <= inject_Z height * spread <= 1)%Q ->
  (0 <= rx <= 1)%Q -> (0 <= ry <= 1)%Q -> (0 <= rx' <= 1)%Q -> (0 <= ry' <= 1)%Q ->
  let c0 := cursor_at center spread width height default_jitter 0 0 rx ry in
  let c2 := cursor_at center spread width height default_jitter 1 0 rx' ry' in
  pos_y c0 = pos_y c2 /\ -2 <= pos_x c0 - pos_x c2 <= 2.
Proof.
  intros Hw Hh Hrx Hry Hrx' Hry'. cbn zeta. unfold cursor_at. cbn [pos_x pos_y].
  change (inject_Z grid_size) with 2%Q. change (inject_Z (grid_size - 1)) with 1%Q.
  change (inject_Z 0) with 0%Q. change (inject_Z 1) with 1%Q.
  unfold default_jitter.
  set (cw := (inject_Z width * spread / 2)%Q).
  set (ch := (inject_Z height * spread / 2)%Q).
  assert (Hcw : (0 <= cw <= 1 # 2)%Q).
  { unfold cw. split.
    - apply Qle_shift_div_l; lra.
    - apply Qle_shift_div_r; lra. }
  assert (Hch : (0 <= ch <= 1 # 2)%Q).
  { unfold ch. split.
    - apply Qle_shift_div_l; lra.
    - apply Qle_shift_div_r; lra. }
  assert (Hjit : forall r c, (0 <= r <= 1)%Q -> (0 <= c <= 1 # 2)%Q ->
    py_int ((r - (1 # 2)) * c * (1 # 100)) = 0).
  { intros r c Hr Hc. apply py_int_zero. apply Qabs_Qlt_condition.
    assert (Hrc : (- (1 # 4) <= (r - (1 # 2)) * c <= 1 # 4)%Q).
    { assert (0 <= r * c)%Q by (apply Qmult_le_0_compat; lra).
      assert (r * c <= 1 * c)%Q by (apply Qmult_le_compat_r; lra).
      assert ((r - (1 # 2)) * c == r * c - (1 # 2) * c)%Q by ring.
      lra. }
    lra. }
  rewrite !Hjit by done. rewrite !Z.add_0_r. split; [done|].
  assert (Hx0 : pos_x center - 1 <=
                py_int (inject_Z (pos_x center) - cw * 1 / 2 + 0 * cw) <=
                pos_x center + 1).
  { apply (py_int_around _ _ (1 # 4)); [|done]. apply Qabs_Qle_condition.
    assert (inject_Z (pos_x center) - cw * 1 / 2 + 0 * cw - inject_Z (pos_x center)
            == - (cw * (1 # 2)))%Q by field.
    rewrite H. lra. }
  assert (Hx1 : pos_x center - 1 <=
                py_int (inject_Z (pos_x center) - cw * 1 / 2 + 1 * cw) <=
                pos_x center + 1).
  { apply (py_int_around _ _ (1 # 4)); [|done]. apply Qabs_Qle_condition.
    assert (inject_Z (pos_x center) - cw * 1 / 2 + 1 * cw - inject_Z (pos_x center)
            == cw * (1 # 2))%Q by field.
    rewrite H. lra. }
  lia.
Qed.

(** Two rectangles of the same size on the same line, at most two pixels
    apart and at least ten wide, overlap by more than [MAX_OVERLAP_RATIO]. *)
Lemma overlap_pair_close rw rh c0 c2 :
  10 <= rw -> 10 <= rh ->
  pos_y c0 = pos_y c2 -> -2 <= pos_x c0 - pos_x c2 <= 2 ->
  (MAX_OVERLAP_RATIO < overlap_pair (rect_of rw rh c0) (rect_of rw rh c2) 0)%Q.
Proof.
  intros Hrw Hrh Hy Hx. unfold rect_of, overlap_pair. rewrite Hy.
  set (a := rw `div` 2). set (b := rh `div` 2).
  assert (5 <= a) by (apply Z.div_le_lower_bound; lia).
  assert (5 <= b) by (apply Z.div_le_lower_bound; lia).
  set (x0 := pos_x c0) in *. set (x2 := pos_x c2) in *. set (y := pos_y c2).
  set (ov := Z.max 0 (Z.min (x0 + a) (x2 + a) - Z.max (x0 - a) (x2 - a)) *
             Z.max 0 (Z.min (y + b) (y + b) - Z.max (y - b) (y - b))).
  set (area := (x0 + a - (x0 - a)) * (y + b - (y - b))).
  assert (Harea : 0 < area) by (unfold area; nia).
  assert (Hov : 2 * area < 10 * ov).
  { unfold area, ov.
    replace (Z.max 0 (Z.min (y + b) (y + b) - Z.max (y - b) (y - b))) with (2 * b) by lia.
    replace (x0 + a - (x0 - a)) with (2 * a) by lia.
    replace (y + b - (y - b)) with (2 * b) by lia.
    assert (2 * a - 2 <= Z.max 0 (Z.min (x0 + a) (x2 + a) - Z.max (x0 - a) (x2 - a)))
      by lia.
    nia. }
  destruct (Z.ltb_spec 0 area) as [_|]; [|lia].
  destruct (py_max_spec 0 (inject_Z ov / inject_Z area)) as (_ & H1 & _).
  match goal with
  | |- (_ < py_max ?m ?q)%Q => destruct (py_max_spec m q) as (H2 & _ & _)
  end.
  assert (Hq : (MAX_OVERLAP_RATIO < inject_Z ov / inject_Z area)%Q).
  { apply Qlt_shift_div_l.
    - change 0%Q with (inject_Z 0). by rewrite <- Zlt_Qlt.
    - assert (H10 : (inject_Z (2 * area) < inject_Z (10 * ov))%Q) by (by rewrite <- Zlt_Qlt).
      rewrite !inject_Z_mult in H10. change (inject_Z 2) with 2%Q in H10.
      change (inject_Z 10) with 10%Q in H10. unfold MAX_OVERLAP_RATIO. lra. }
  lra.
Qed.

(** *** The votes of an iteration *)

Lemma tally_cons label v votes :
  tally label (v :: votes) =
  if decide (v = label) then S (tally label votes) else tally label votes.
Proof. unfold tally. rewrite filter_cons. by case_decide. Qed.

Lemma tally_elem_of label votes : (0 < tally label votes)%nat -> label ∈ votes.
Proof.
  induction votes as [|v votes IH]; [cbn; lia|].
  rewrite tally_cons. case_decide as Hv.
  - subst. intros _. apply list_elem_of_here.
  - intros H. apply list_elem_of_further. auto.
Qed.

Lemma votes_length votes :
  Forall (fun z => 1 <= z <= NUM_CURSORS) votes ->
  length votes =
    (tally 1 votes + tally 2 votes + tally 3 votes + tally 4 votes)%nat.
Proof.
  induction 1 as [|v votes Hv _ IH]; [done|].
  rewrite !tally_cons. cbn [length]. rewrite IH.
  change NUM_CURSORS with 4 in Hv.
  assert (Hcases : v = 1 \/ v = 2 \/ v = 3 \/ v = 4) by lia.
  destruct Hcases as [-> | [-> | [-> | ->]]]; repeat case_decide; try lia.
Qed.


(** *** The spread *)

Lemma reduction_power n :
  (SPREAD_REDUCTION_FACTOR ^ Z.of_nat n * inject_Z (2 ^ Z.of_nat n) == 1)%Q.
Proof.
  induction n as [|n IH]; [reflexivity|].
  rewrite reduction_succ, Nat2Z.inj_succ, Z.pow_succ_r by lia.
  rewrite inject_Z_mult. change (inject_Z 2) with 2%Q.
  set (a := (SPREAD_REDUCTION_FACTOR ^ Z.of_nat n)%Q) in *.
  set (b := inject_Z (2 ^ Z.of_nat n)) in *.
  transitivity (a * b)%Q; [|done]. unfold SPREAD_REDUCTION_FACTOR. ring.
Qed.

(** The number of halvings after which a cell of a picture of the given
    extent is at most half a pixel. *)
Definition halvings (extent : Z) : nat := Z.to_nat (Z.log2_up extent).

Lemma reduction_small extent n :
  0 <= extent -> (halvings extent <= n)%nat ->
  (0 <= inject_Z extent * SPREAD_REDUCTION_FACTOR ^ Z.of_nat n <= 1)%Q.
Proof.
  intros He Hn. pose proof (reduction_pos n) as Hpos.
  pose proof (reduction_power n) as Hpow.
  assert (Hle : extent <= 2 ^ Z.of_nat n).
  { destruct (decide (extent = 0)) as [->|Hne]; [apply Z.pow_nonneg; lia|].
    destruct (Z.log2_log2_up_spec extent) as [_ Hup]; [lia|].
    etrans; [exact Hup|]. apply Z.pow_le_mono_r; [lia|].
    unfold halvings in Hn. pose proof (Z.log2_up_nonneg extent). lia. }
  assert (H0 : (0 <= inject_Z extent)%Q)
    by (change 0%Q with (inject_Z 0); by rewrite <- Zle_Qle).
  assert (H1 : (inject_Z extent <= inject_Z (2 ^ Z.of_nat n))%Q) by (by rewrite <- Zle_Qle).
  split; [apply Qmult_le_0_compat; lra|].
  rewrite <- Hpow. rewrite (Qmult_comm (_ ^ _)).
  apply Qmult_le_compat_r; lra.
Qed.

(** *** The loop ends *)

(** An answer of the model that names one of the cursors, with draws of
    [random.random()] in the unit interval. *)
Definition cooperative (inp : pass_input) : Prop :=
  (exists z, reply inp = Closest (PyNumber z) /\ 1 <= z <= NUM_CURSORS) /\
  forall k, (0 <= random inp k <= 1)%Q.

Section Termination.

Context (textbbox : Z -> string -> rect) (screenshot : picture)
        (inner_color : color).

Local Abbreviation render := (render textbbox screenshot inner_color).
Local Abbreviation inner_pass := (inner_pass textbbox screenshot inner_color).
Local Abbreviation run := (run textbbox screenshot inner_color None).
Local Abbreviation width := (width screenshot).
Local Abbreviation height := (height screenshot).
Local Abbreviation initial := (initial screenshot).

(** The metrics of the font: no text has a box of negative width or
    height. *)
Hypothesis font_metrics : forall size text,
  0 <= bbox_w (textbbox size text) /\ 0 <= bbox_h (textbbox size text).

Lemma render_overlap_close random s s1 :
  render random s = Some s1 ->
  (0 <= inject_Z width * spread s <= 1)%Q ->
  (0 <= inject_Z height * spread s <= 1)%Q ->
  (forall k, 0 <= random k <= 1)%Q ->
  (MAX_OVERLAP_RATIO < max_overlap_ratio s1)%Q.
Proof.
  unfold Sample.render. destruct (image_copy _ _) as [copy h].
  destruct (draw_labelled_cursors _ _ _ _ _ _ _ _ _ _) as [[[ci ov] h']|] eqn:Hdraw;
    [|done].
  cbn. intros [= <-] Hw Hh Hrandom. cbn [max_overlap_ratio].
  apply draw_labelled_cursors_overlap in Hdraw as (fs & label & ->).
  match goal with
  | |- (_ < py_max ?ov ?m)%Q => destruct (py_max_spec ov m) as (Hge & _ & _)
  end.
  eapply Qlt_le_trans; [|exact Hge].
  rewrite generate_cursors_cells.
  destruct (font_metrics fs label) as [Hbw Hbh].
  set (rw := bbox_w (textbbox fs label) + default_padding).
  set (rh := bbox_h (textbbox fs label) + default_padding).
  match goal with
  | |- (_ < compute_max_overlap (rect_of rw rh <$> [?c0; ?c1; ?c2; ?c3]))%Q =>
      destruct (compute_max_overlap_pairs (rect_of rw rh <$> [c0; c1; c2; c3]))
        as (Hpairs & _);
      specialize (Hpairs 0%nat 2%nat (rect_of rw rh c0) (rect_of rw rh c2)
                    ltac:(done) eq_refl eq_refl);
      eapply Qlt_le_trans; [|exact Hpairs];
      destruct (cursors_close (center s) (spread s) width height
                  (random 0%nat) (random 1%nat) (random 4%nat) (random 5%nat))
        as [Hy Hx]; [done..|]
  end.
  apply overlap_pair_close; [unfold rw, default_padding; lia|
                             unfold rh, default_padding; lia|done|done].
Qed.

Lemma run_exits (L : nat) inputs s :
  let d := length (identified_locations s) in
  (halvings width <= L)%nat -> (halvings height <= L)%nat ->
  0 <= width -> 0 <= height ->
  (spread s == SPREAD_REDUCTION_FACTOR ^ Z.of_nat d)%Q -> (d <= L)%nat ->
  (forall l, tally l (votes s) < CONSENSUS_THRESHOLD)%nat ->
  Forall (fun z => 1 <= z <= NUM_CURSORS) (votes s) ->
  Forall cooperative inputs ->
  (5 * (L + 1 - d) - length (votes s) <= length inputs)%nat ->
  exists s', run inputs s = Exited Overlap s' /\
    (d < length (identified_locations s') <= L + 1)%nat.
Proof.
  intros d HLw HLh Hw Hh. subst d. revert s.
  induction inputs as [|inp inputs IH]; intros s Hsp Hd Htally Hrange Hcoop Hlen.
  { exfalso. rewrite (votes_length _ Hrange) in Hlen. cbn [length] in Hlen.
    pose proof (Htally 1) as H1. pose proof (Htally 2) as H2.
    pose proof (Htally 3) as H3. pose proof (Htally 4) as H4.
    unfold CONSENSUS_THRESHOLD in *. lia. }
  apply Forall_cons in Hcoop as [[(z & Hreply & Hz) Hrandom] Hcoop].
  cbn [Sample.run]. unfold Sample.inner_pass.
  destruct (render_total textbbox screenshot inner_color (random inp) s) as [s1 Hr].
  rewrite Hr, Hreply. cbn [closest parse].
  set (s2 := parse (Closest (PyNumber z)) s1).
  pose proof Hr as Hfields.
  apply render_fields in Hfields
    as (_ & Hsp1 & _ & Hids1 & _ & _ & Hv1 & _ & _ & Hcs1).
  destruct (vote_cases z s2) as (mc & s3 & Hmc & Hcast & Hvote).
  destruct Hcast as (Hv3 & _ & Hsp3 & _ & Hids3 & _ & _ & Hcs3 & Hov3 & _).
  change (votes s2) with (votes s1) in Hv3.
  change (spread s2) with (spread s1) in Hsp3.
  change (identified_locations s2) with (identified_locations s1) in Hids3.
  change (cursors s2) with (cursors s1) in Hcs3.
  change (max_overlap_ratio s2) with (max_overlap_ratio s1) in Hov3.
  assert (Hrange3 : Forall (fun z => 1 <= z <= NUM_CURSORS) (votes s3)).
  { rewrite Hv3, Hv1. apply Forall_app. split; [done|]. by rewrite Forall_singleton. }
  destruct mc as [label n].
  apply most_common_1_Counter in Hmc as [Hn Hmost].
  cbn [fst snd] in Hvote.
  destruct Hvote as [[Hle ->]|[Hlt ->]].
  - assert (Hlabel : 1 <= label <= NUM_CURSORS).
    { rewrite Forall_forall in Hrange3. apply Hrange3, tally_elem_of.
      unfold CONSENSUS_THRESHOLD in Hle. lia. }
    destruct (iteration_end_cases (label, n) s3)
      as [[Hnone _]|(loc & s4 & Hloc & Href & Hend)].
    { exfalso. cbn [fst] in Hnone.
      destruct (py_index_in_range (cursors s3) (label - 1)) as [loc Hloc];
        [|congruence].
      rewrite Hcs3, Hcs1, generate_cursors_cells. cbn [length].
      change NUM_CURSORS with 4 in Hlabel. lia. }
    destruct Href as (_ & Hsp4 & Hids4 & _ & _ & Hv4 & _).
    destruct Hend as [(_ & _ & ->)|(Hunder & _ & ->)].
    + exists s4. split; [done|].
      rewrite Hids4, length_app, Hids3, Hids1. cbn [length]. lia.
    + assert (Hd' : (length (identified_locations s) < L)%nat).
      { destruct (decide (length (identified_locations s) = L)) as [HdL|]; [|lia].
        exfalso.
        assert (Hover : (MAX_OVERLAP_RATIO < max_overlap_ratio s1)%Q).
        { apply (render_overlap_close (random inp) s); [done| | |done].
          - rewrite Hsp. apply reduction_small; [done|lia].
          - rewrite Hsp. apply reduction_small; [done|lia]. }
        rewrite Hov3 in Hunder. lra. }
      destruct (iteration_begin_cases None s4)
        as [[_ (m & [=] & _)]|(s5 & -> & _ & Hsp5 & _ & Hids5 & _ & _ & Hv5 & _)].
      assert (Hlen5 : length (identified_locations s5) =
                      S (length (identified_locations s))).
      { rewrite Hids5, Hids4, length_app, Hids3, Hids1. cbn [length]. lia. }
      destruct (IH s5) as (s' & Hrun & Hbound); [| | | |done| |].
      6: { exists s'. split; [done|]. lia. }
      * rewrite Hlen5, reduction_succ, Hsp5, Hsp4, Hsp3, Hsp1, Hsp. reflexivity.
      * lia.
      * intros l. rewrite Hv5. unfold CONSENSUS_THRESHOLD. cbn. lia.
      * rewrite Hv5. apply Forall_nil_2.
      * rewrite Hv5, Hlen5. cbn [length] in *.
        rewrite (votes_length _ Hrange) in Hlen.
        pose proof (Htally 1) as H1. pose proof (Htally 2) as H2.
        pose proof (Htally 3) as H3. pose proof (Htally 4) as H4.
        unfold CONSENSUS_THRESHOLD in *. lia.
  - destruct (IH s3) as (s' & Hrun & Hbound); [| | | |done| |].
    6: { exists s'. split; [done|]. rewrite Hids3, Hids1 in Hbound. lia. }
    + by rewrite Hids3, Hids1, Hsp3, Hsp1.
    + by rewrite Hids3, Hids1.
    + intros l. specialize (Hmost l). lia.
    + done.
    + rewrite Hids3, Hids1, Hv3, Hv1, length_app. cbn [length] in *. lia.
Qed.

(** X5. The search ends when the model cooperates: if every answer names
    one of the cursors 1 .. [NUM_CURSORS] and the draws of
    [random.random()] are in the unit interval, then, for a font whose text
    boxes have no negative side, [main] leaves the outer loop through the
    test on the overlap after at most [5 * (L + 1)] answers and has then
    identified between 1 and [L + 1] locations, where [L] is the number of
    halvings that bring the width and the height under one pixel. *)
Theorem main_terminates inputs :
  0 <= width -> 0 <= height ->
  Forall cooperative inputs ->
  let L := Nat.max (halvings width) (halvings height) in
  (5 * (L + 1) <= length inputs)%nat ->
  exists s, main textbbox screenshot inner_color inputs = Exited Overlap s /\
    (1 <= length (identified_locations s) <= L + 1)%nat.
Proof.
  intros Hw Hh Hcoop L Hlen. unfold main, Sample.main_loop.
  change MAX_ITERATIONS with (@None Z).
  destruct (iteration_begin_cases None initial)
    as [[_ (m & [=] & _)]|(s0 & -> & _ & Hsp & _ & Hids & _ & _ & Hv & _)].
  destruct (run_exits L inputs s0) as (s & Hrun & Hbound); try done.
  - lia.
  - lia.
  - by rewrite Hids, Hsp.
  - rewrite Hids. cbn. lia.
  - intros l. rewrite Hv. unfold CONSENSUS_THRESHOLD. cbn. lia.
  - rewrite Hv. apply Forall_nil_2.
  - rewrite Hids, Hv. cbn [length identified_locations Sample.initial]. lia.
  - exists s. split; [done|]. rewrite Hids in Hbound. cbn in Hbound. lia.
Qed.

End Termination.

(** *** Runs on concrete answers *)

(** X2, after two iterations on a 1000 x 800 screenshot. *)
Lemma identified_locations_inside_witness :
  let o := main_loop fixed_font (blank 1000 800) grey None
             [says 1; says 1; says 4; says 4] in
  o = Running (state_of o) /\
  length (identified_locations (state_of o)) = 2%nat /\
  Forall (inside 1000 800) (identified_locations (state_of o)) /\
  inside 1000 800 (center (state_of o)).
Proof.
  intros o.
  assert (Ho : o = Running (state_of o)) by (vm_compute; reflexivity).
  split; [exact Ho|]. split; [vm_compute; reflexivity|].
  apply (identified_locations_inside fixed_font (blank 1000 800) grey None
           [says 1; says 1; says 4; says 4] (state_of o));
    [reflexivity|reflexivity|left; exact Ho].
Defined.

(** X3: the first [None] answer goes back to the initial region, the
    second one raises. *)
Lemma retry_budget_witness :
  let o := main_loop fixed_font (blank 1000 800) grey None [says_none] in
  (exists s', main_loop fixed_font (blank 1000 800) grey None ([] ++ [says_none])
              = Running s' /\ retries (trace s') = 1%nat) /\
  o = Running (state_of o) /\
  exists s', main_loop fixed_font (blank 1000 800) grey None ([says_none] ++ [says_none])
             = Raised IndexError s'.
Proof.
  intros o.
  assert (Ho : o = Running (state_of o)) by (vm_compute; reflexivity).
  split; [|split; [exact Ho|]].
  - destruct (retry_budget fixed_font (blank 1000 800) grey None [] says_none _
                eq_refl eq_refl) as [_ Hnext].
    rewrite decide_False in Hnext by (vm_compute; lia).
    destruct Hnext as (s' & Hs' & Hretries & _). exists s'. split; [exact Hs'|].
    rewrite Hretries. reflexivity.
  - destruct (retry_budget fixed_font (blank 1000 800) grey None [says_none] says_none
                (state_of o) Ho eq_refl) as [_ Hnext].
    rewrite decide_True in Hnext by (vm_compute; reflexivity).
    exact Hnext.
Defined.


(** X5, on a 1000 x 800 screenshot with 55 answers that name cursor 1. *)
Lemma main_terminates_witness :
  exists s,
    main fixed_font (blank 1000 800) grey (replicate 55 (says 1)) = Exited Overlap s /\
    (1 <= length (identified_locations s) <= 11)%nat.
Proof.
  apply (main_terminates fixed_font (blank 1000 800) grey).
  - intros size text. cbn. lia.
  - cbn. lia.
  - cbn. lia.
  - apply Forall_replicate. split.
    + exists 1. split; [reflexivity|]. unfold NUM_CURSORS. lia.
    + intros k. split; discriminate.
  - vm_compute. lia.
Defined.

End SampleRunFacts.


(** * experiments/cursor/sample.py: answers that cannot be parsed *)
Module SampleAnswersFacts.
Import Sample SampleFacts PyFacts SampleRunFacts.

Lemma tally_le_length label votes : (tally label votes <= length votes)%nat.
Proof. unfold tally. apply length_filter. Qed.

Section Unparsable.

Context (textbbox : Z -> string -> rect) (screenshot : picture)
        (inner_color : color) (max_iterations : option Z).

Local Abbreviation render := (render textbbox screenshot inner_color).
Local Abbreviation inner_pass := (inner_pass textbbox screenshot inner_color).
Local Abbreviation iteration_begin := (iteration_begin max_iterations).
Local Abbreviation run := (run textbbox screenshot inner_color max_iterations).
Local Abbreviation main_loop := (main_loop textbbox screenshot inner_color max_iterations).
Local Abbreviation width := (width screenshot).
Local Abbreviation height := (height screenshot).
Local Abbreviation initial := (initial screenshot).

(** X20. When the first answer of the model cannot be parsed, [closest] is
    not bound when the loop reads it and [main] raises [NameError],
    whatever the later answers are (unless [MAX_ITERATIONS] stops the loop
    before its first iteration). *)
Theorem first_answer_unparsable inp rest :
  reply inp = Unparsable ->
  (exists s, main_loop (inp :: rest) = Raised NameError s) \/
  main_loop (inp :: rest) = Exited MaxIterations initial /\
  exists m, max_iterations = Some m /\ m <> 0 /\ m < 1.
Proof.
  intros Hreply. unfold Sample.main_loop.
  destruct (iteration_begin_cases max_iterations initial)
    as [[-> Hmax]|(s0 & -> & _ & _ & _ & _ & _ & _ & _ & Hcl & _)]; [by right|].
  left. cbn [Sample.run]. unfold Sample.inner_pass.
  destruct (render_total textbbox screenshot inner_color (random inp) s0) as [s1 Hr].
  rewrite Hr, Hreply.
  apply render_fields in Hr as (_ & _ & _ & _ & _ & _ & _ & Hcl1 & _).
  cbn [closest parse]. rewrite Hcl1, Hcl. cbn [closest Sample.initial]. eauto.
Qed.

(** X21. An answer that cannot be parsed leaves [closest] as the answer
    before it had set it, and that value is voted again.  So at the start
    of an iteration one answer that names a cursor, followed by one answer
    that cannot be parsed, makes the consensus: the iteration ends and
    identifies that cursor among the cursors generated for the second
    answer. *)
Theorem unparsable_answer_votes_again inputs s answer failure z :
  main_loop inputs = Running s -> votes s = [] ->
  reply answer = Closest (PyNumber z) -> 1 <= z <= NUM_CURSORS ->
  reply failure = Unparsable ->
  exists loc s',
    py_index (generate_cursors (center s) (spread s) width height default_jitter
                (random failure)) (z - 1) = Some loc /\
    reaches (main_loop (inputs ++ [answer; failure])) s' /\
    identified_locations s' = identified_locations s ++ [loc].
Proof.
  intros Hrun Hvotes Hanswer Hz Hfailure.
  assert (Hmain : main_loop (inputs ++ [answer; failure]) = run [answer; failure] s).
  { revert Hrun. unfold Sample.main_loop.
    destruct (iteration_begin_cases max_iterations initial)
      as [[-> _]|(s0 & -> & _)]; [done|].
    apply run_running_app. }
  rewrite Hmain. cbn [Sample.run]. unfold Sample.inner_pass at 1.
  destruct (render_total textbbox screenshot inner_color (random answer) s) as [s1 Hr1].
  rewrite Hr1, Hanswer. cbn [closest parse].
  apply render_fields in Hr1 as (Hc1 & Hsp1 & _ & Hids1 & _ & _ & Hv1 & _).
  set (s2 := parse (Closest (PyNumber z)) s1).
  destruct (vote_cases z s2) as (mc & s3 & Hmc & Hcast & Hvote).
  destruct Hcast as (Hv3 & Hc3 & Hsp3 & _ & Hids3 & _ & _ & _ & _ & _ & _ & Hcl3).
  change (votes s2) with (votes s1) in Hv3. change (center s2) with (center s1) in Hc3.
  change (spread s2) with (spread s1) in Hsp3.
  change (identified_locations s2) with (identified_locations s1) in Hids3.
  change (closest s2) with (Some (PyNumber z)) in Hcl3.
  rewrite Hv1, Hvotes in Hv3. cbn [app] in Hv3.
  destruct mc as [label n]. rewrite Hv3 in Hmc.
  apply most_common_1_Counter in Hmc as [Hn _]. cbn [fst snd] in Hvote.
  destruct Hvote as [[Hle _]|[_ ->]].
  { exfalso. pose proof (tally_le_length label [z]) as Hone.
    unfold CONSENSUS_THRESHOLD in Hle. cbn [length] in Hone. lia. }
  unfold Sample.inner_pass.
  destruct (render_total textbbox screenshot inner_color (random failure) s3) as [s4 Hr4].
  rewrite Hr4, Hfailure. cbn [closest parse].
  apply render_fields in Hr4 as (_ & _ & _ & Hids4 & _ & _ & Hv4 & Hcl4 & _ & Hcs4).
  rewrite Hcl4, Hcl3.
  set (s5 := parse Unparsable s4).
  destruct (vote_cases z s5) as (mc & s6 & Hmc & Hcast & Hvote).
  destruct Hcast as (Hv6 & _ & _ & _ & Hids6 & _ & _ & Hcs6 & _).
  change (votes s5) with (votes s4) in Hv6.
  change (identified_locations s5) with (identified_locations s4) in Hids6.
  change (cursors s5) with (cursors s4) in Hcs6.
  rewrite Hv4, Hv3 in Hv6. cbn [app] in Hv6.
  destruct mc as [label' n']. rewrite Hv6 in Hmc.
  apply most_common_1_Counter in Hmc as [Hn' Hmost]. cbn [fst snd] in Hvote.
  assert (Htwo : tally z [z; z] = 2%nat).
  { unfold tally. rewrite !filter_cons, filter_nil. by rewrite !decide_True. }
  destruct Hvote as [[_ ->]|[Hlt _]].
  2: { exfalso. specialize (Hmost z). unfold CONSENSUS_THRESHOLD in Hlt. lia. }
  assert (Hlabel : label' = z).
  { assert (Hin : label' ∈ [z; z]).
    { apply tally_elem_of. specialize (Hmost z). lia. }
    rewrite !elem_of_cons, elem_of_nil in Hin. by destruct Hin as [?|[?|[]]]. }
  subst label'.
  rewrite Hc3, Hc1, Hsp3, Hsp1 in Hcs4.
  destruct (iteration_end_cases (z, n') s6)
    as [[Hnone _]|(loc & s7 & Hloc & Href & Hend)].
  { exfalso. cbn [fst] in Hnone.
    destruct (py_index_in_range (cursors s6) (z - 1)) as [loc Hloc]; [|congruence].
    rewrite Hcs6, Hcs4, generate_cursors_cells. cbn [length].
    change NUM_CURSORS with 4 in Hz. lia. }
  cbn [fst] in Hloc. rewrite Hcs6, Hcs4 in Hloc.
  destruct Href as (_ & _ & Hids7 & _).
  assert (Hids : identified_locations s7 = identified_locations s ++ [loc])
    by (by rewrite Hids7, Hids6, Hids4, Hids3, Hids1).
  exists loc.
  destruct Hend as [(_ & _ & ->)|(_ & _ & ->)].
  - exists s7. split; [done|]. split; [right; by exists Overlap|done].
  - destruct (iteration_begin_cases max_iterations s7)
      as [[-> _]|(s8 & -> & _ & _ & _ & Hids8 & _)].
    + exists s7. split; [done|]. split; [right; by exists MaxIterations|done].
    + exists s8. split; [done|]. split; [by left|by rewrite Hids8].
Qed.

End Unparsable.

Definition garbled : pass_input := PassInput (fun _ => 1 # 2) Unparsable.

(** X20, on a run whose second answer would have named a cursor. *)
Lemma first_answer_unparsable_witness :
  exists s, main fixed_font (blank 1000 800) grey [garbled; says 1] = Raised NameError s.
Proof.
  destruct (first_answer_unparsable fixed_font (blank 1000 800) grey None garbled
              [says 1] eq_refl) as [Hraised|(_ & m & Hm & _)];
    [exact Hraised|discriminate Hm].
Defined.

(** X21: cursor 3 is identified after one vote for it. *)
Lemma unparsable_answer_votes_again_witness :
  exists s',
    reaches (main_loop fixed_font (blank 1000 800) grey None ([] ++ [says 3; garbled])) s' /\
    identified_locations s' = [] ++ [Position 750 200].
Proof.
  destruct (unparsable_answer_votes_again fixed_font (blank 1000 800) grey None
              [] _ (says 3) garbled 3 eq_refl eq_refl eq_refl
              ltac:(unfold NUM_CURSORS; lia) eq_refl)
    as (loc & s' & Hloc & Hreach & Hids).
  exists s'. split; [exact Hreach|].
  assert (Heq : loc = Position 750 200).
  { vm_compute in Hloc. by injection Hloc as <-. }
  rewrite <- Heq. exact Hids.
Defined.

End SampleAnswersFacts.


(** * experiments/cursor/sample.py: what is drawn *)
Module SampleFinalFacts.
Import Sample SampleFacts PyFacts SampleRunFacts SampleFinal.

Lemma label_of_is_Some labels i :
  is_Some (label_of labels i) <-> labels = [] \/ (i < length labels)%nat.
Proof.
  unfold label_of. destruct labels as [|l labels].
  - split; [by left|eauto].
  - rewrite lookup_lt_is_Some. split; [by right|]. by intros [?|?].
Qed.

(** What the loop draws for cursor [i]: its rectangle, then its label. *)
Definition cursor_paints (textbbox : Z -> string -> rect)
    (fs rw rh : Z) (ic lc : color) (labels : list string)
    (cursor : nat * position) : list paint :=
  let '(i, coords) := cursor in
  match label_of labels i with
  | Some label =>
      [Rectangle (rect_of rw rh coords) ic;
       Text (inject_Z (pos_x coords) - inject_Z (bbox_w (textbbox fs label)) / 2)
            (inject_Z (pos_y coords) - inject_Z (bbox_h (textbbox fs label)) / 2)
            label lc]
  | None => []
  end.

Lemma draw_cursors_is_Some textbbox o fs rw rh ic lc labels cs h :
  is_Some (draw_cursors textbbox o fs rw rh ic lc labels cs h) <->
  labels = [] \/ Forall (fun c => (c.1 < length labels)%nat) cs.
Proof.
  transitivity (Forall (fun c : nat * position => is_Some (label_of labels c.1)) cs).
  - revert h. induction cs as [|[i coords] cs IH]; intros h; cbn.
    + split; [constructor|eauto].
    + rewrite Forall_cons. cbn [fst].
      destruct (label_of labels i) as [label|]; cbn.
      * match goal with
        | |- context [draw_cursors _ _ _ _ _ _ _ _ cs ?h1] =>
            rewrite <- (IH h1);
            destruct (draw_cursors textbbox o fs rw rh ic lc labels cs h1)
              as [[rs h2]|]
        end; cbn.
        -- split; [eauto|eauto].
        -- split; [by intros [? ?]|]. by intros [_ [? ?]].
      * split; [by intros [? ?]|]. by intros [[? ?] _].
  - destruct (decide (labels = [])) as [->|Hne].
    + split; [by left|]. intros _. apply Forall_forall. intros c _. by eexists.
    + split.
      * intros Hall. right. eapply Forall_impl; [exact Hall|].
        intros c Hc. apply label_of_is_Some in Hc as [?|?]; done.
      * intros [?|Hall]; [done|]. eapply Forall_impl; [exact Hall|].
        intros c Hc. apply label_of_is_Some. by right.
Qed.

Lemma enumerate_indices {A} (l : list A) n :
  Forall (fun c => (c.1 < n)%nat) (enumerate l) <-> (length l <= n)%nat.
Proof.
  rewrite Forall_forall. split.
  - intros Hall. destruct l as [|a l _] using rev_ind; [cbn; lia|].
    rewrite length_app. cbn [length].
    specialize (Hall (length l, a)). cbn in Hall.
    assert ((length l < n)%nat); [|lia]. apply Hall. apply elem_of_enumerate.
    by apply list_lookup_middle.
  - intros Hlen [i x] Hin. apply elem_of_enumerate, lookup_lt_Some in Hin. cbn. lia.
Qed.

Lemma alloc_spec content h o h' :
  alloc content h = (o, h') -> h !! o = None /\ h' = <[o := content]> h.
Proof.
  unfold alloc. intros [= <- <-]. split; [|done].
  apply not_elem_of_dom. apply is_fresh.
Qed.

Lemma draw_on_paints o p h size paints :
  h !! o = Some (Picture size paints) ->
  draw_on o p h !! o = Some (Picture size (paints ++ [p])).
Proof.
  intros Ho. unfold draw_on. rewrite lookup_insert_eq.
  by rewrite (lookup_total_correct _ _ _ Ho).
Qed.

Lemma draw_cursors_paints textbbox o fs rw rh ic lc labels cs h rs h' size paints :
  draw_cursors textbbox o fs rw rh ic lc labels cs h = Some (rs, h') ->
  h !! o = Some (Picture size paints) ->
  h' !! o =
    Some (Picture size
            (paints ++ flat_map (cursor_paints textbbox fs rw rh ic lc labels) cs)).
Proof.
  revert h rs h' paints.
  induction cs as [|[i coords] cs IH]; intros h rs h' paints;
    cbn [draw_cursors flat_map cursor_paints].
  - intros [= _ <-] Ho. by rewrite app_nil_r.
  - destruct (label_of labels i) as [label|]; cbn [mbind option_bind]; [|done].
    unfold draw_cursor.
    destruct (draw_cursors _ _ _ _ _ _ _ _ _ _) as [[rs' h'']|] eqn:Hrest;
      cbn [mbind option_bind]; [|done].
    intros [= _ <-] Ho.
    rewrite (IH _ _ _ _ Hrest (draw_on_paints _ _ _ _ _ (draw_on_paints _ _ _ _ _ Ho))).
    unfold rect_of. by rewrite <- !app_assoc.
Qed.

Section Drawn.

Context (textbbox : Z -> string -> rect).

(** X18. [draw_labelled_cursors] raises [IndexError] exactly when [labels]
    is given and is shorter than [cursors].  When it returns, the picture
    is a new object, every object that existed is as it was, the ratio is
    that of the rectangles of the cursors, and the picture is the one
    passed in with the overlay and then, for each cursor in order, its
    rectangle and its label. *)
Theorem draw_labelled_cursors_drawn image cursors ic lc bg bt labels pad h pic :
  h !! image = Some pic ->
  (is_Some (draw_labelled_cursors textbbox image cursors ic lc bg bt labels pad h) <->
   labels = [] \/ (length cursors <= length labels)%nat) /\
  forall img ov h',
    draw_labelled_cursors textbbox image cursors ic lc bg bt labels pad h
      = Some (img, ov, h') ->
    h !! img = None /\
    (forall k v, h !! k = Some v -> h' !! k = Some v) /\
    exists fs rw rh,
      ov = compute_max_overlap (rect_of rw rh <$> cursors) /\
      h' !! img =
        Some (Picture (pic_size pic)
                (pic_paints pic ++ Overlay bg (py_int (255 * bt)) ::
                 flat_map (cursor_paints textbbox fs rw rh ic lc labels)
                   (enumerate cursors))).
Proof.
  intros Himage. split.
  - unfold draw_labelled_cursors.
    destruct (image_convert image h) as [o1 h1].
    destruct (image_new _ _ _ h1) as [o2 h2].
    destruct (alpha_composite o1 o2 h2) as [o3 h3].
    destruct (image_convert o3 h3) as [o4 h4].
    rewrite <- (enumerate_indices cursors (length labels)).
    match goal with
    | |- is_Some (?d ≫= _) <-> _ =>
        match d with
        | draw_cursors _ ?o ?fs ?rw ?rh _ _ _ _ ?h0 =>
            rewrite <- (draw_cursors_is_Some textbbox o fs rw rh ic lc labels
                          (enumerate cursors) h0);
            destruct d as [[rs h5]|]
        end
    end; cbn.
    + split; eauto.
    + split; by intros [? ?].
  - intros img ov h' Hdraw.
    assert (Hframe : forall k v, h !! k = Some v -> h' !! k = Some v /\ img <> k).
    { intros k v Hk.
      by apply (draw_labelled_cursors_lookup _ _ _ _ _ _ _ _ _ _ _ _ _ _ _ Hdraw). }
    split.
    { destruct (h !! img) as [v|] eqn:Himg; [|done].
      by destruct (Hframe img v Himg). }
    split; [intros k v Hk; by apply Hframe|].
    revert Hdraw. unfold draw_labelled_cursors.
    assert (Hpic : h !!! image = pic) by (by apply lookup_total_correct).
    unfold image_convert at 1. rewrite Hpic.
    destruct (alloc pic h) as [o1 h1] eqn:H1.
    destruct (image_new (pic_size pic) bg (py_int (255 * bt)) h1) as [o2 h2] eqn:H2.
    destruct (alpha_composite o1 o2 h2) as [o3 h3] eqn:H3.
    destruct (image_convert o3 h3) as [o4 h4] eqn:H4.
    destruct (draw_cursors _ _ _ _ _ _ _ _ _ _) as [[rs h5]|] eqn:H5; cbn; [|done].
    intros [= <- <- <-].
    apply alloc_spec in H1 as [Hn1 ->].
    apply alloc_spec in H2 as [Hn2 ->].
    assert (Ho12 : o1 <> o2).
    { intros <-. by rewrite lookup_insert_eq in Hn2. }
    unfold alpha_composite in H3.
    assert (Hl1 : (<[o2:=Picture (pic_size pic) [Overlay bg (py_int (255 * bt))]]>
                     (<[o1:=pic]> h) : store) !!! o1 = pic).
    { apply lookup_total_correct. rewrite lookup_insert_ne by done.
      by rewrite lookup_insert_eq. }
    assert (Hl2 : (<[o2:=Picture (pic_size pic) [Overlay bg (py_int (255 * bt))]]>
                     (<[o1:=pic]> h) : store) !!! o2 =
                  Picture (pic_size pic) [Overlay bg (py_int (255 * bt))]).
    { apply lookup_total_correct. by rewrite lookup_insert_eq. }
    rewrite Hl1, Hl2 in H3. cbn [pic_paints pic_size] in H3.
    apply alloc_spec in H3 as [Hn3 ->].
    unfold image_convert in H4.
    match type of H4 with
    | alloc (?m !!! o3) _ = _ =>
        assert (Hl3 : m !!! o3 =
          Picture (pic_size pic) (pic_paints pic ++ [Overlay bg (py_int (255 * bt))]))
          by (apply lookup_total_correct; by rewrite lookup_insert_eq)
    end.
    rewrite Hl3 in H4. apply alloc_spec in H4 as [Hn4 ->].
    pose proof (draw_cursors_rects _ _ _ _ _ _ _ _ _ _ _ _ H5) as Hrs.
    eapply draw_cursors_paints in H5; [|by rewrite lookup_insert_eq].
    eexists _, _, _. split.
    + rewrite Hrs. f_equal. f_equal. unfold enumerate.
      apply snd_zip. by rewrite length_seq.
    + rewrite H5. f_equal. f_equal. by rewrite <- app_assoc.
Qed.

End Drawn.

(** *** The final picture *)

Lemma range_from_lookup a b i :
  (i < Z.to_nat (b - a))%nat -> range_from a b !! i = Some (a + Z.of_nat i).
Proof.
  intros Hi. unfold range_from, range. rewrite !list_lookup_fmap.
  by rewrite lookup_seq_lt.
Qed.

Lemma range_from_length a b : length (range_from a b) = Z.to_nat (b - a).
Proof. unfold range_from, range. by rewrite !length_fmap, length_seq. Qed.

Lemma flat_map_ext_in {A B} (f g : A -> list B) l :
  (forall x, x ∈ l -> f x = g x) -> flat_map f l = flat_map g l.
Proof.
  induction l as [|x l IH]; intros Hfg; cbn; [done|].
  rewrite (Hfg x) by apply list_elem_of_here.
  rewrite IH; [done|]. intros y Hy. apply Hfg. by apply list_elem_of_further.
Qed.

Section FinalFacts.

Context (textbbox : Z -> string -> rect) (screenshot : picture)
        (inner_color : color) (max_iterations : option Z).

Local Abbreviation main_loop := (main_loop textbbox screenshot inner_color max_iterations).
Local Abbreviation final_picture := (final_picture textbbox inner_color).

(** X19. Once the loop of [main] is left, the final picture is drawn
    without [IndexError]: there is one label per identified location.  It
    is a new object, the screenshot and every other object are as they
    were, and it shows the screenshot under the overlay with, for each
    identified location in order, its rectangle and its number, counted
    from 1. *)
Theorem final_picture_drawn inputs why s :
  main_loop inputs = Exited why s ->
  exists img h' fs rw rh,
    final_picture s = Some (img, h') /\
    heap s !! img = None /\
    (forall k v, heap s !! k = Some v -> h' !! k = Some v) /\
    h' !! image = Some screenshot /\
    h' !! img =
      Some (Picture (pic_size screenshot)
              (pic_paints screenshot ++
               Overlay default_bg_color (py_int (255 * default_bg_transparency)) ::
               flat_map (cursor_paints textbbox fs rw rh inner_color label_color [])
                 (enumerate (identified_locations s)))).
Proof.
  intros Hexit.
  pose proof (main_log textbbox screenshot inner_color max_iterations inputs) as Hlog.
  rewrite Hexit in Hlog. destruct Hlog as (Himage & _).
  unfold SampleFinal.final_picture, image_copy.
  assert (Hpic : heap s !!! image = screenshot) by (by apply lookup_total_correct).
  rewrite Hpic. destruct (alloc screenshot (heap s)) as [o h1] eqn:Halloc.
  apply alloc_spec in Halloc as [Hnew ->].
  assert (Hne : o <> image) by (intros ->; congruence).
  set (locs := identified_locations s).
  set (labels := pretty <$> range_from 1 (Z.of_nat (length locs) + 1)).
  assert (Hlen : length labels = length locs).
  { unfold labels. rewrite length_fmap, range_from_length. lia. }
  destruct (draw_labelled_cursors_drawn textbbox o locs inner_color label_color
              default_bg_color default_bg_transparency labels default_padding
              (<[o := screenshot]> (heap s)) screenshot)
    as [Hsome Hdrawn]; [by rewrite lookup_insert_eq|].
  destruct (proj2 Hsome) as [[[img ov] h'] Hdraw]; [right; lia|].
  rewrite Hdraw. cbn.
  destruct (Hdrawn img ov h' Hdraw) as (Hfresh & Hframe & fs & rw & rh & _ & Himg).
  exists img, h', fs, rw, rh. split; [done|]. split.
  { rewrite lookup_insert_ne in Hfresh; [done|]. intros ->.
    by rewrite lookup_insert_eq in Hfresh. }
  split.
  { intros k v Hk. apply Hframe. rewrite lookup_insert_ne; [done|]. intros ->. congruence. }
  split; [apply Hframe; by rewrite lookup_insert_ne|].
  rewrite Himg. f_equal. f_equal. f_equal. f_equal.
  apply flat_map_ext_in. intros [i coords] Hin.
  apply elem_of_enumerate, lookup_lt_Some in Hin.
  unfold cursor_paints.
  assert (label_of labels i = Some (pretty (Z.of_nat i + 1))) as ->.
  { unfold label_of. destruct labels as [|l ls] eqn:Hlabels; [cbn in Hlen; lia|].
    rewrite <- Hlabels. unfold labels. rewrite list_lookup_fmap.
    rewrite range_from_lookup by lia. cbn. by rewrite Z.add_comm. }
  done.
Qed.

End FinalFacts.

(** X18, on two cursors with one label and with two. *)
Lemma draw_labelled_cursors_drawn_witness :
  let h : store := {[ 0%nat := blank 100 80 ]} in
  let cursors := [Position 10 10; Position 50 40] in
  ~ is_Some (draw_labelled_cursors fixed_font 0%nat cursors grey (255, 255, 255)
               (0, 0, 0) (1 # 4) ["a"] 10 h) /\
  exists img ov h',
    draw_labelled_cursors fixed_font 0%nat cursors grey (255, 255, 255)
      (0, 0, 0) (1 # 4) ["a"; "b"] 10 h = Some (img, ov, h') /\
    h !! img = None /\ h' !! 0%nat = Some (blank 100 80).
Proof.
  intros h cursors.
  destruct (draw_labelled_cursors_drawn fixed_font 0%nat cursors grey (255, 255, 255)
              (0, 0, 0) (1 # 4) ["a"] 10 h (blank 100 80) eq_refl) as [Hshort _].
  destruct (draw_labelled_cursors_drawn fixed_font 0%nat cursors grey (255, 255, 255)
              (0, 0, 0) (1 # 4) ["a"; "b"] 10 h (blank 100 80) eq_refl)
    as [Hlong Hdrawn].
  split.
  - intros Hsome. apply Hshort in Hsome as [Hnil|Hlen]; [discriminate Hnil|].
    cbn in Hlen. lia.
  - destruct (proj2 Hlong) as [[[img ov] h'] Hdraw]; [right; cbn; lia|].
    destruct (Hdrawn img ov h' Hdraw) as (Hfresh & Hframe & _).
    exists img, ov, h'. split; [exact Hdraw|]. split; [exact Hfresh|].
    apply Hframe. reflexivity.
Defined.

(** X19, after the three iterations of a run on a 100 x 80 screenshot. *)
Lemma final_picture_drawn_witness :
  let o := main_loop fixed_font (blank 100 80) grey None
             [says 1; says 1; says 1; says 1; says 1; says 1] in
  o = Exited Overlap (state_of o) /\
  length (identified_locations (state_of o)) = 3%nat /\
  exists img h',
    final_picture fixed_font grey (state_of o) = Some (img, h') /\
    heap (state_of o) !! img = None /\
    h' !! image = Some (blank 100 80).
Proof.
  intros o.
  assert (E : o = Exited Overlap (state_of o)) by (vm_compute; reflexivity).
  split; [exact E|]. split; [vm_compute; reflexivity|].
  destruct (final_picture_drawn fixed_font (blank 100 80) grey None _ _ _ E)
    as (img & h' & fs & rw & rh & Hfinal & Hfresh & _ & Himage & _).
  exists img, h'. split; [exact Hfinal|]. split; [exact Hfresh|exact Himage].
Defined.

End SampleFinalFacts.


(** * experiments/cursor/grid.py: the pictures *)
Module GridDrawingFacts.
Import Grid GridDrawing SampleFacts.










Section FontSizeFacts.
Context (loads : Z -> bool) (textbbox : Z -> string -> Z * Z * Z * Z).

Local Abbreviation fits := (fits textbbox).
Local Abbreviation shrink := (shrink loads textbbox).
Local Abbreviation label_font_size := (label_font_size loads textbbox).

Lemma shrink_spec fuel width height grid_size font_size :
  (forall s, 0 < s -> loads s = true) ->
  font_size <= Z.of_nat fuel ->
  match shrink fuel width height grid_size font_size with
  | inr chosen =>
      chosen <= font_size /\ fits width height grid_size chosen = true /\
      (0 < chosen \/ chosen = font_size) /\
      forall s, chosen < s <= font_size -> fits width height grid_size s = false
  | inl _ =>
      forall s, 0 < s <= font_size -> fits width height grid_size s = false
  end.
Proof.
  intros Hloads. revert font_size.
  induction fuel as [|fuel IH]; intros font_size Hfuel; cbn [GridDrawing.shrink].
  - destruct (fits width height grid_size font_size) eqn:Hfit.
    + split; [lia|]. split; [done|]. split; [by right|]. intros s Hs. lia.
    + destruct (negb (loads (font_size - 1))); [intros s Hs; lia|].
      destruct (Z.leb_spec (font_size - 1) 0); intros s Hs; lia.
  - destruct (fits width height grid_size font_size) eqn:Hfit.
    + split; [lia|]. split; [done|]. split; [by right|]. intros s Hs. lia.
    + destruct (Z.leb_spec (font_size - 1) 0) as [Hle|Hgt].
      * destruct (negb (loads (font_size - 1))); intros s Hs;
          (replace s with font_size by lia); done.
      * rewrite (Hloads _ Hgt). cbn [negb].
        specialize (IH (font_size - 1) ltac:(lia)).
        destruct (shrink fuel width height grid_size (font_size - 1)) as [e|chosen].
        -- intros s Hs. destruct (decide (s = font_size)) as [->|]; [done|].
           apply IH. lia.
        -- destruct IH as (Hle & Hfits & Hpos & Hmax).
           split; [lia|]. split; [done|]. split; [left; lia|].
           intros s Hs. destruct (decide (s = font_size)) as [->|]; [done|].
           apply Hmax. lia.
Qed.

(** X8. When the font loads at every positive size and the largest size
    tried, [max_font_size], is positive, the search of [add_grid_labels]
    returns the largest size from 1 to [max_font_size] at which every label
    fits a cell, and raises exactly when no such size exists. *)
Theorem label_font_size_largest width height grid_size :
  (forall s, 0 < s -> loads s = true) ->
  let max_font_size :=
    Z.min ((height `div` grid_size) `div` 2) ((width `div` grid_size) `div` 2) in
  0 < max_font_size ->
  match label_font_size width height grid_size with
  | inr chosen =>
      0 < chosen <= max_font_size /\ fits width height grid_size chosen = true /\
      forall s, chosen < s <= max_font_size -> fits width height grid_size s = false
  | inl _ =>
      forall s, 0 < s <= max_font_size -> fits width height grid_size s = false
  end.
Proof.
  intros Hloads max_font_size Hmax. unfold GridDrawing.label_font_size.
  destruct (Z.eqb_spec grid_size 0) as [->|_].
  { exfalso. unfold max_font_size in Hmax. rewrite !Z.div_0_r in Hmax.
    change (0 `div` 2) with 0 in Hmax. lia. }
  fold max_font_size. rewrite (Hloads _ Hmax).
  pose proof (shrink_spec (Z.to_nat max_font_size) width height grid_size
                max_font_size Hloads ltac:(lia)) as Hspec.
  destruct (shrink _ _ _ _ _) as [e|chosen]; [done|].
  destruct Hspec as (Hle & Hfits & Hpos & Hlarger). split; [lia|]. by split.
Qed.

End FontSizeFacts.



(** A font that loads at the positive sizes, with glyphs as wide as they
    are high. *)
Definition loads_positive (size : Z) : bool := 0 <? size.
Definition square_glyphs (size : Z) (text : string) : Z * Z * Z * Z :=
  (0, 0, size * Z.of_nat (String.length text), size).

(** X8: on a 1000 x 800 picture the largest size tried fits the 25 labels;
    with 100 labels the search goes down by one. *)
Lemma label_font_size_largest_witness :
  label_font_size loads_positive square_glyphs 1000 800 25 = inr 16 /\
  fits square_glyphs 1000 800 25 16 = true /\
  label_font_size loads_positive square_glyphs 1000 800 100 = inr 3 /\
  fits square_glyphs 1000 800 100 4 = false.
Proof.
  pose proof (label_font_size_largest loads_positive square_glyphs 1000 800 25
                (fun s Hs => proj2 (Z.ltb_lt 0 s) Hs) ltac:(vm_compute; reflexivity))
    as H25.
  pose proof (label_font_size_largest loads_positive square_glyphs 1000 800 100
                (fun s Hs => proj2 (Z.ltb_lt 0 s) Hs) ltac:(vm_compute; reflexivity))
    as H100.
  assert (E25 : label_font_size loads_positive square_glyphs 1000 800 25 = inr 16)
    by (vm_compute; reflexivity).
  assert (E100 : label_font_size loads_positive square_glyphs 1000 800 100 = inr 3)
    by (vm_compute; reflexivity).
  rewrite E25 in H25. rewrite E100 in H100.
  destruct H25 as (_ & Hfits & _). destruct H100 as (_ & _ & Hlarger).
  split; [exact E25|]. split; [exact Hfits|]. split; [exact E100|].
  apply Hlarger. vm_compute. split; [reflexivity|discriminate].
Defined.

End GridDrawingFacts.


(** * openadapt/db/crud.py: stop sequences *)
Module StopSequencesFacts.
Import StopSequences PyFacts.


(** [pop_n] takes [n] elements off the end, or raises when there are fewer. *)
Lemma pop_n_app {A} (l k : list A) : pop_n (length k) (l ++ k) = inr l.
Proof.
  induction k as [|a k IH] using rev_ind; cbn; [by rewrite app_nil_r|].
  rewrite length_app, Nat.add_1_r, app_assoc. cbn. by rewrite py_pop_snoc.
Qed.

Lemma pop_n_inr {A} n (l l' : list A) :
  pop_n n l = inr l' -> exists k, l = l' ++ k /\ length k = n.
Proof.
  revert l. induction n as [|n IH]; intros l; cbn.
  - intros [= ->]. exists []. by rewrite app_nil_r.
  - destruct l as [|a l _] using rev_ind; [done|].
    rewrite py_pop_snoc. intros (k & -> & <-)%IH.
    exists (k ++ [a]). by rewrite app_assoc, length_app, Nat.add_1_r.
Qed.

(** X9. When [filter_stop_sequences] returns, the list of action events is
    a prefix of what it was: events are only ever removed from the end. *)
Theorem filter_stop_sequences_prefix STOP_SEQUENCES action_events kept :
  filter_stop_sequences STOP_SEQUENCES action_events = inr kept ->
  kept `prefix_of` action_events.
Proof.
  unfold filter_stop_sequences.
  destruct (ends_with_ctrl_c action_events).
  - intros (k & -> & _)%pop_n_inr. by exists k.
  - destruct (find_sequence _ _ _) as [e|[n|]]; [done| |].
    + intros (k & -> & _)%pop_n_inr. by exists k.
    + by intros [= ->].
Qed.

(** X10. A recording that ends with an event whose key name is ctrl
    followed by an event whose key character is c loses exactly these two
    events, whatever the stop sequences are. *)
Theorem filter_stop_sequences_ctrl_c STOP_SEQUENCES before ctrl c :
  canonical_key_name ctrl = Some "ctrl" ->
  canonical_key_char c = Some "c" ->
  filter_stop_sequences STOP_SEQUENCES (before ++ [ctrl; c]) = inr before.
Proof.
  intros Hctrl Hc. unfold filter_stop_sequences, ends_with_ctrl_c.
  rewrite reverse_app. cbn. unfold key_is.
  rewrite Hctrl, Hc, !bool_decide_eq_true_2 by done. cbn.
  apply (pop_n_app before [ctrl; c]).
Qed.

(** The two tests of the inner loop. *)
Definition is_press_of (e : action_event) (key : string) : bool :=
  (key_is (canonical_key_char e) key || key_is (canonical_key_name e) key)
  && bool_decide (name e = "press").

Definition is_release_in (e : action_event) (sequence : list string) : bool :=
  bool_decide (name e = "release")
  && (key_in (canonical_key_char e) sequence || key_in (canonical_key_name e) sequence).

(** An event at which the scan for [sequence] stops without a step: it is
    neither a press of the last key of the sequence nor the release of one
    of its keys. *)
Definition halts (sequence : list string) (e : action_event) : Prop :=
  exists key, last sequence = Some key /\
    is_press_of e key = false /\ is_release_in e sequence = false.


Lemma scan_halts sequence e rest index n :
  halts sequence e ->
  index = -1 \/ index = Z.of_nat (length sequence) - 1 ->
  scan sequence (e :: rest) index n = inr (index, n).
Proof.
  intros (key & Hlast & Hpress & Hrel) Hidx. cbn.
  assert (py_index sequence index = Some key) as ->.
  { destruct Hidx as [->| ->]; by rewrite ?py_index_last, ?py_index_end. }
  unfold is_press_of in Hpress. unfold is_release_in in Hrel.
  by rewrite Hpress, Hrel.
Qed.

(** X11. When the recording does not end with ctrl c and its last event is,
    for every stop sequence, neither a press of the last key of the
    sequence nor the release of one of its keys, nothing is removed. *)
Theorem filter_stop_sequences_kept STOP_SEQUENCES action_events :
  ends_with_ctrl_c action_events = false ->
  (forall e, last action_events = Some e ->
     forall sequence, sequence ∈ STOP_SEQUENCES -> halts sequence e) ->
  Forall (fun sequence => sequence <> []) STOP_SEQUENCES ->
  filter_stop_sequences STOP_SEQUENCES action_events = inr action_events.
Proof.
  intros Hcc Hlast Hne. unfold filter_stop_sequences. rewrite Hcc.
  assert (find_sequence STOP_SEQUENCES (reverse action_events) 0 = inr None) as ->; [|done].
  generalize 0%nat.
  induction STOP_SEQUENCES as [|sequence seqs IH]; intros n; cbn; [done|].
  apply Forall_cons in Hne as [Hseq Hne].
  assert (scan sequence (reverse action_events)
            (Z.of_nat (length sequence) - 1) n
          = inr (Z.of_nat (length sequence) - 1, n)) as ->.
  { destruct action_events as [|e evs _] using rev_ind; [done|].
    rewrite reverse_snoc. apply scan_halts; [|by right].
    apply (Hlast e); [by rewrite last_snoc|apply list_elem_of_here]. }
  assert ((Z.of_nat (length sequence) - 1 =? -1) = false) as ->.
  { apply Z.eqb_neq. destruct sequence; [done|]. cbn. lia. }
  apply IH; [|done]. intros e He seq Hin. apply (Hlast e He). by apply list_elem_of_further.
Qed.

(** [events] spell [keys]: they press the keys in order, with releases of
    keys of the stop sequence [whole] anywhere in between. *)
Inductive spelled (whole : list string) : list string -> list action_event -> Prop :=
| spelled_nil : spelled whole [] []
| spelled_release keys events e :
    is_release_in e whole = true -> spelled whole keys events ->
    spelled whole keys (events ++ [e])
| spelled_press keys key events e :
    is_press_of e key = true -> spelled whole keys events ->
    spelled whole (keys ++ [key]) (events ++ [e]).

Lemma scan_spelled whole front keys back events rest n :
  spelled whole keys events -> whole = front ++ keys ++ back -> whole <> [] ->
  scan whole (reverse events ++ rest) (Z.of_nat (length (front ++ keys)) - 1) n =
  scan whole rest (Z.of_nat (length front) - 1) (n + length events).
Proof.
  intros Hsp. revert back rest n.
  induction Hsp as [|keys events e Hrel Hsp IH|keys key events e Hpress Hsp IH];
    intros back rest n Hwhole Hne.
  - rewrite app_nil_r, Nat.add_0_r. done.
  - rewrite reverse_snoc. cbn [app scan].
    assert (is_Some (py_index whole (Z.of_nat (length (front ++ keys)) - 1))) as [k ->].
    { destruct (decide (front ++ keys = [])) as [->|Hpos].
      - cbn [length]. change (Z.of_nat 0 - 1) with (-1).
        rewrite py_index_last. by apply last_is_Some.
      - unfold py_index. subst whole.
        assert (0 < Z.of_nat (length (front ++ keys)))
          by (destruct (front ++ keys); [done|cbn; lia]).
        rewrite (app_assoc front keys back), (length_app (front ++ keys)).
        replace (0 <=? Z.of_nat (length (front ++ keys)) - 1) with true
          by (symmetry; apply Z.leb_le; lia).
        replace (Z.of_nat (length (front ++ keys)) - 1 <?
                 Z.of_nat (length (front ++ keys) + length back)) with true
          by (symmetry; apply Z.ltb_lt; lia).
        cbn [andb]. apply lookup_lt_is_Some_2. rewrite !length_app in *. lia. }
    unfold is_release_in in Hrel. apply andb_prop in Hrel as [Hname Hkeys].
    assert (bool_decide (name e = "press") = false) as ->.
    { apply bool_decide_eq_true in Hname. apply bool_decide_eq_false. by rewrite Hname. }
    rewrite andb_false_r, Hname, Hkeys. cbn [andb].
    replace (n + length (events ++ [e]))%nat with (S n + length events)%nat
      by (rewrite length_app; cbn; lia).
    by apply (IH back).
  - rewrite reverse_snoc. cbn [app scan].
    assert (py_index whole (Z.of_nat (length (front ++ keys ++ [key])) - 1) = Some key) as ->.
    { unfold py_index. subst whole. rewrite !length_app. cbn [length].
      replace (0 <=? Z.of_nat (length front + (length keys + 1)) - 1) with true
        by (symmetry; apply Z.leb_le; lia).
      replace (Z.of_nat (length front + (length keys + 1)) - 1 <?
               Z.of_nat (length front + (length keys + 1 + length back))) with true
        by (symmetry; apply Z.ltb_lt; lia).
      cbn [andb].
      replace (Z.to_nat (Z.of_nat (length front + (length keys + 1)) - 1))
        with (length (front ++ keys)) by (rewrite length_app; lia).
      replace (front ++ (keys ++ [key]) ++ back) with ((front ++ keys) ++ key :: back)
        by (by rewrite <- !app_assoc).
      by apply list_lookup_middle. }
    unfold is_press_of in Hpress. rewrite Hpress.
    replace (Z.of_nat (length (front ++ keys ++ [key])) - 1 - 1)
      with (Z.of_nat (length (front ++ keys)) - 1)
      by (rewrite !length_app; cbn; lia).
    replace (n + length (events ++ [e]))%nat with (S n + length events)%nat
      by (rewrite length_app; cbn; lia).
    apply (IH ([key] ++ back) rest (S n)); [by rewrite Hwhole, <- !app_assoc|done].
Qed.


(** X12. When the recording does not end with ctrl c, its end spells the
    first stop sequence -- its keys pressed in order, with releases of its
    keys in between -- and the event before that is neither a press of the
    last key of the sequence nor a release of one of its keys, exactly the
    events that spell the sequence are removed. *)
Theorem filter_stop_sequences_removes STOP_SEQUENCES sequence before typed :
  sequence <> [] ->
  spelled sequence sequence typed ->
  (forall e, last before = Some e -> halts sequence e) ->
  ends_with_ctrl_c (before ++ typed) = false ->
  filter_stop_sequences (sequence :: STOP_SEQUENCES) (before ++ typed) = inr before.
Proof.
  intros Hne Hsp Hhalt Hcc. unfold filter_stop_sequences. rewrite Hcc. cbn.
  rewrite reverse_app.
  pose proof (scan_spelled sequence [] sequence [] typed (reverse before) 0 Hsp)
    as Hscan.
  cbn [app length] in Hscan. rewrite Hscan by (by rewrite ?app_nil_r).
  change (Z.of_nat 0 - 1) with (-1). cbn [Nat.add].
  assert (scan sequence (reverse before) (-1) (length typed) = inr (-1, length typed)) as ->.
  { destruct before as [|e before _] using rev_ind; [done|].
    rewrite reverse_snoc. apply scan_halts; [|by left].
    apply Hhalt. by rewrite last_snoc. }
  cbn. apply pop_n_app.
Qed.

(** X13. The scan does not stop when the sequence is complete: with the
    index at -1 it compares the events before with the last key again.  So,
    with one stop sequence of two keys or more, when the event before the
    typed sequence is a press of its last key and the event before that
    does not go on with the match, the sequence is not found and the
    recording is left as it is. *)
Theorem filter_stop_sequences_missed keys key' key before e typed :
  let sequence := keys ++ [key'; key] in
  spelled sequence sequence typed ->
  is_press_of e key = true ->
  (forall e', last before = Some e' ->
     is_press_of e' key' = false /\ is_release_in e' sequence = false) ->
  ends_with_ctrl_c (before ++ [e] ++ typed) = false ->
  filter_stop_sequences [sequence] (before ++ [e] ++ typed)
  = inr (before ++ [e] ++ typed).
Proof.
  intros sequence Hsp Hpress Hhalt Hcc. unfold filter_stop_sequences. rewrite Hcc.
  cbn [find_sequence].
  assert (Hne : sequence <> []) by (unfold sequence; by destruct keys).
  rewrite reverse_app. change ([e] ++ typed) with (e :: typed).
  rewrite reverse_cons, <- app_assoc.
  pose proof (scan_spelled sequence [] sequence [] typed
                ([e] ++ reverse before) 0 Hsp) as Hscan.
  cbn [app length] in Hscan. cbn [app]. rewrite Hscan by (by rewrite ?app_nil_r).
  change (Z.of_nat 0 - 1) with (-1). cbn [Nat.add scan].
  assert (py_index sequence (-1) = Some key) as ->.
  { rewrite py_index_last. unfold sequence.
    replace (keys ++ [key'; key]) with ((keys ++ [key']) ++ [key])
      by (by rewrite <- app_assoc).
    by rewrite last_snoc. }
  unfold is_press_of in Hpress. rewrite Hpress. change (-1 - 1) with (-2).
  assert (scan sequence (reverse before) (-2) (S (length typed))
          = inr (-2, S (length typed))) as ->; [|done].
  destruct before as [|e' before _] using rev_ind; [done|].
  rewrite reverse_snoc. cbn [scan].
  unfold sequence at 1. rewrite py_index_before_last.
  destruct (Hhalt e') as [Hp Hr]; [by rewrite last_snoc|].
  unfold is_press_of in Hp. unfold is_release_in in Hr. by rewrite Hp, Hr.
Qed.

(** *** Recordings to run the filter on *)

Definition press (key : string) : action_event := ActionEvent "press" (Some key) None.
Definition release (key : string) : action_event := ActionEvent "release" (Some key) None.
Definition press_named (key : string) : action_event := ActionEvent "press" None (Some key).

(** X9, on a recording that ends with the stop sequence a b. *)
Lemma filter_stop_sequences_prefix_witness :
  [press "x"] `prefix_of` [press "x"; press "a"; release "a"; press "b"].
Proof.
  apply (filter_stop_sequences_prefix [["a"; "b"]]). vm_compute. reflexivity.
Defined.

(** X10, on a recording of three events. *)
Lemma filter_stop_sequences_ctrl_c_witness :
  filter_stop_sequences [["a"; "b"]] ([press "x"] ++ [press_named "ctrl"; press "c"])
  = inr [press "x"].
Proof. apply filter_stop_sequences_ctrl_c; reflexivity. Defined.

(** X11: the stop sequence a b followed by another key is kept. *)
Lemma filter_stop_sequences_kept_witness :
  filter_stop_sequences [["a"; "b"]] [press "a"; press "b"; press "y"]
  = inr [press "a"; press "b"; press "y"].
Proof.
  apply filter_stop_sequences_kept.
  - reflexivity.
  - intros e [= <-] sequence Hin. apply list_elem_of_singleton in Hin as ->.
    exists "b". split; [reflexivity|]. split; vm_compute; reflexivity.
  - repeat constructor. discriminate.
Defined.

(** X12, with a release between the two presses. *)
Lemma filter_stop_sequences_removes_witness :
  filter_stop_sequences [["a"; "b"]; ["q"]]
    ([press "x"] ++ [press "a"; release "a"; press "b"])
  = inr [press "x"].
Proof.
  apply filter_stop_sequences_removes.
  - discriminate.
  - apply (spelled_press _ ["a"] "b" [press "a"; release "a"] (press "b"));
      [vm_compute; reflexivity|].
    apply (spelled_release _ ["a"] [press "a"] (release "a"));
      [vm_compute; reflexivity|].
    apply (spelled_press _ [] "a" [] (press "a")); [vm_compute; reflexivity|].
    apply spelled_nil.
  - intros e [= <-]. exists "b". split; [reflexivity|]. split; vm_compute; reflexivity.
  - reflexivity.
Defined.

(** X13: the stop sequence a b typed right after a press of b. *)
Lemma filter_stop_sequences_missed_witness :
  filter_stop_sequences [["a"; "b"]]
    ([press "x"] ++ [press "b"] ++ [press "a"; release "a"; press "b"])
  = inr ([press "x"] ++ [press "b"] ++ [press "a"; release "a"; press "b"]).
Proof.
  apply (filter_stop_sequences_missed [] "a" "b").
  - apply (spelled_press _ ["a"] "b" [press "a"; release "a"] (press "b"));
      [vm_compute; reflexivity|].
    apply (spelled_release _ ["a"] [press "a"] (release "a"));
      [vm_compute; reflexivity|].
    apply (spelled_press _ [] "a" [] (press "a")); [vm_compute; reflexivity|].
    apply spelled_nil.
  - vm_compute. reflexivity.
  - intros e' [= <-]. split; vm_compute; reflexivity.
  - reflexivity.
Defined.
End StopSequencesFacts.


(** * openadapt/db/crud.py: statistics, post-processing, sessions *)
Module CrudEventsFacts.
Import Crud CrudFacts CrudEvents.

Section PostProcessFacts.
Context {K : Type} `{Countable K}.




End PostProcessFacts.

(** *** The recorders together *)

Definition buffers_empty (st : state) : Prop := forall b, buffers st b = [].

Lemma insert_buffered_at_once event_data t b st st' :
  buffers_empty st -> _insert event_data t (Some b) st = inr st' ->
  buffers_empty st' /\ lock st' = lock st /\ db st' = db st /\ closed st' = closed st /\
  exists row, inserted st' = inserted st ++ [(t, row)] /\ row_of event_data t row.
Proof.
  intros Hempty Hins.
  destruct (insert_cases event_data t (Some b) st)
    as [[_ Hraise]|[_ (row & st0 & Hok & Hrow & Hst)]]; [congruence|].
  rewrite Hins in Hok. injection Hok as <-.
  destruct Hst as (Hi & Hb & Hl & Hd & Hc).
  split; [|split; [done|split; [done|split; [done|]]]].
  - intros b'. rewrite Hb. by case_decide.
  - exists row. split; [|done]. by rewrite Hi, Hempty.
Qed.

Section CallsFacts.

Context (ActionEvent Screenshot WindowEvent PerformanceStat MemoryStat : table).

Local Abbreviation perform :=
  (perform ActionEvent Screenshot WindowEvent PerformanceStat MemoryStat).
Local Abbreviation perform_all :=
  (perform_all ActionEvent Screenshot WindowEvent PerformanceStat MemoryStat).
Local Abbreviation table_of :=
  (table_of ActionEvent Screenshot WindowEvent PerformanceStat MemoryStat).

Definition perf_keys : list string :=
  ["recording_timestamp"; "recording_id"; "event_type"; "start_time"; "end_time"].
Definition memory_keys : list string :=
  ["recording_timestamp"; "recording_id"; "memory_usage_bytes"; "timestamp"].

Lemma event_perf_stat_keys r e s f k :
  is_Some (event_perf_stat r e s f !! k) <-> k ∈ perf_keys.
Proof.
  unfold event_perf_stat, perf_keys.
  rewrite !lookup_insert_is_Some', lookup_singleton_is_Some.
  rewrite !elem_of_cons, elem_of_nil. intuition congruence.
Qed.

Lemma memory_stat_keys r m t k :
  is_Some (memory_stat r m t !! k) <-> k ∈ memory_keys.
Proof.
  unfold memory_stat, memory_keys.
  rewrite !lookup_insert_is_Some', lookup_singleton_is_Some.
  rewrite !elem_of_cons, elem_of_nil. intuition congruence.
Qed.

(** X15. [insert_perf_stat] and [insert_memory_stat] return exactly when
    the five, respectively four, keys of the dictionary they build are
    columns of their table, and raise [AssertionError] otherwise; the row
    they insert holds the recording's timestamp and id and the values
    passed, and [None] in every other column. *)
Theorem stats_recorded recording event_type start_time end_time
    memory_usage_bytes timestamp' st :
  ((exists st', insert_perf_stat PerformanceStat recording event_type start_time
                  end_time st = inr st') <->
   perf_keys ⊆ columns PerformanceStat) /\
  ((exists st', insert_memory_stat MemoryStat recording memory_usage_bytes
                  timestamp' st = inr st') <->
   memory_keys ⊆ columns MemoryStat) /\
  (forall st', insert_perf_stat PerformanceStat recording event_type start_time
                 end_time st = inr st' ->
     exists row, stored PerformanceStat (Some performance_stats) row st st' /\
       row !! "recording_timestamp" = Some (VFloat (timestamp recording)) /\
       row !! "recording_id" = Some (VInt (id recording)) /\
       row !! "event_type" = Some event_type /\
       row !! "start_time" = Some start_time /\
       row !! "end_time" = Some end_time /\
       forall k, k ∉ perf_keys ->
         row !! k = if decide (k ∈ columns PerformanceStat) then Some VNone else None) /\
  (forall st', insert_memory_stat MemoryStat recording memory_usage_bytes
                 timestamp' st = inr st' ->
     exists row, stored MemoryStat (Some memory_stats) row st st' /\
       row !! "recording_timestamp" = Some (VFloat (timestamp recording)) /\
       row !! "recording_id" = Some (VInt (id recording)) /\
       row !! "memory_usage_bytes" = Some memory_usage_bytes /\
       row !! "timestamp" = Some timestamp' /\
       forall k, k ∉ memory_keys ->
         row !! k = if decide (k ∈ columns MemoryStat) then Some VNone else None).
Proof.
  assert (Hiff : forall data t b keys,
    (forall k, is_Some (data !! k) <-> k ∈ keys) ->
    (exists st', _insert data t b st = inr st') <-> keys ⊆ columns t).
  { intros data t b keys Hkeys.
    destruct (insert_cases data t b st)
      as [[(k & Hk & Hnot) Hraise]|[Hall (row & st0 & Hok & _)]].
    - rewrite Hraise. split; [by intros [? ?]|]. intros Hsub. exfalso.
      apply Hnot, Hsub, Hkeys, Hk.
    - split; [|by eauto]. intros _ k Hk. by apply Hall, Hkeys. }
  assert (Hrow : forall data t b st',
    _insert data t b st = inr st' ->
    exists row, stored t b row st st' /\ row_of data t row).
  { intros data t b st' Hins.
    destruct (insert_cases data t b st)
      as [[_ Hraise]|[_ (row & st0 & Hok & Hr & Hst)]]; [congruence|].
    rewrite Hins in Hok. injection Hok as <-. eauto. }
  split; [apply Hiff, event_perf_stat_keys|].
  split; [apply Hiff, memory_stat_keys|]. split.
  - intros st' Hins.
    assert (Hsub : perf_keys ⊆ columns PerformanceStat).
    { apply (Hiff _ PerformanceStat (Some performance_stats) _
               (event_perf_stat_keys recording event_type start_time end_time)).
      eauto. }
    destruct (Hrow _ _ _ _ Hins) as (row & Hst & Hr). exists row. split; [done|].
    repeat split.
    1-5: rewrite (Hr _), decide_True
      by (apply Hsub; unfold perf_keys; rewrite !elem_of_cons; tauto);
      unfold event_perf_stat;
      repeat (rewrite lookup_insert_ne by discriminate);
      by rewrite ?lookup_insert_eq, ?lookup_singleton_eq.
    intros k Hk. rewrite (Hr k).
    destruct (event_perf_stat recording event_type start_time end_time !! k) eqn:E; [|done].
    exfalso. apply Hk.
    apply (proj1 (event_perf_stat_keys recording event_type start_time end_time k)).
    by rewrite E.
  - intros st' Hins.
    assert (Hsub : memory_keys ⊆ columns MemoryStat).
    { apply (Hiff _ MemoryStat (Some memory_stats) _
               (memory_stat_keys recording memory_usage_bytes timestamp')).
      eauto. }
    destruct (Hrow _ _ _ _ Hins) as (row & Hst & Hr). exists row. split; [done|].
    repeat split.
    1-4: rewrite (Hr _), decide_True
      by (apply Hsub; unfold memory_keys; rewrite !elem_of_cons; tauto);
      unfold memory_stat;
      repeat (rewrite lookup_insert_ne by discriminate);
      by rewrite ?lookup_insert_eq, ?lookup_singleton_eq.
    intros k Hk. rewrite (Hr k).
    destruct (memory_stat recording memory_usage_bytes timestamp' !! k) eqn:E; [|done].
    exfalso. apply Hk.
    apply (proj1 (memory_stat_keys recording memory_usage_bytes timestamp' k)).
    by rewrite E.
Qed.

Local Abbreviation perform_on :=
  (perform_on ActionEvent Screenshot WindowEvent PerformanceStat MemoryStat).
Local Abbreviation data_of := (@data_of).

(** On a session that stores, [_insert_on] is [_insert], and a call is the
    recorder. *)
Lemma insert_on_stores event_data t b st :
  _insert_on Stores event_data t b st =
  match _insert event_data t b st with
  | inl _ => Asserted
  | inr st' => Returned st'
  end.
Proof.
  unfold _insert_on, _insert.
  destruct (fold_left take_column (columns t) (empty_row t, event_data))
    as [db_obj rest].
  destruct (decide (rest = ∅)); [|done]. by destruct b as [b|]; repeat case_match.
Qed.

Lemma perform_on_stores c st :
  perform_on Stores c st =
  match perform c st with
  | inl _ => Asserted
  | inr st' => Returned st'
  end.
Proof. unfold perform_on. rewrite insert_on_stores. by destruct c. Qed.

(** The effect of a call in which the session raises: the row waits at the
    end of the buffer and nothing is inserted. *)
Definition kept (b : buffer) (row : record) (st st' : state) : Prop :=
  inserted st' = inserted st /\
  (forall b', buffers st' b' =
     if decide (b' = b) then buffers st b ++ [row] else buffers st b') /\
  lock st' = lock st /\ db st' = db st /\ closed st' = closed st.

Lemma insert_on_raises event_data t b st :
  match _insert_on Raises event_data t (Some b) st with
  | Returned _ => False
  | Asserted => exists k, is_Some (event_data !! k) /\ k ∉ columns t
  | Refused st' => exists row, row_of event_data t row /\ kept b row st st'
  end.
Proof.
  unfold _insert_on.
  pose proof (take_columns (columns t) (empty_row t) event_data) as Hcols.
  destruct (fold_left take_column (columns t) (empty_row t, event_data))
    as [db_obj rest].
  destruct (decide (rest = ∅)) as [->|Hrest].
  - rewrite decide_True by done.
    assert ((BATCH_SIZE <=? length (buffers st b ++ [db_obj]))%nat = true) as ->.
    { apply Nat.leb_le. rewrite length_app. unfold BATCH_SIZE. cbn. lia. }
    exists db_obj. split; [|by repeat split].
    intros k. destruct (Hcols k) as [Hdb Hev]. rewrite Hdb, empty_row_lookup.
    rewrite lookup_empty in Hev.
    destruct (decide (k ∈ columns t)); [|by rewrite <- Hev].
    by destruct (event_data !! k).
  - apply map_choose in Hrest as (k & v & Hk). exists k.
    destruct (Hcols k) as [_ Hev]. rewrite Hk in Hev.
    destruct (decide (k ∈ columns t)); [done|]. split; [|done]. by rewrite <- Hev.
Qed.

(** The ways in which a call ends. *)
Lemma perform_on_cases answer c st :
  match perform_on answer c st with
  | Returned st' =>
      answer = Stores /\
      exists row, row_of (data_of c) (table_of c) row /\
        stored (table_of c) (Some (buffer_of c)) row st st'
  | Refused st' =>
      answer = Raises /\
      exists row, row_of (data_of c) (table_of c) row /\
        kept (buffer_of c) row st st'
  | Asserted => exists k, is_Some (data_of c !! k) /\ k ∉ columns (table_of c)
  end.
Proof.
  destruct answer.
  - unfold perform_on. rewrite insert_on_stores.
    destruct (insert_cases (data_of c) (table_of c) (Some (buffer_of c)) st)
      as [[Hk ->]|[_ (row & st' & -> & Hrow & Hst)]]; [done|].
    split; [done|]. by exists row.
  - pose proof (insert_on_raises (data_of c) (table_of c) (buffer_of c) st) as Hr.
    unfold perform_on.
    destruct (_insert_on Raises _ _ _ _) as [st'| |st']; [done|done|by split].
Qed.

(** The row that a call inserts: its table, and the values of its
    dictionary with [None] for the other columns. *)
Definition row_of_call (c : call) (entry : table * record) : Prop :=
  entry.1 = table_of c /\ row_of (data_of c) (table_of c) entry.2.

Lemma perform_all_returned calls st st' done :
  perform_all calls st = (st', done) ->
  lock st' = lock st /\ db st' = db st /\ closed st' = closed st /\
  done `sublist_of` calls.*1 /\ inserted st `prefix_of` inserted st'.
Proof.
  revert st st' done. induction calls as [|[c answer] calls IH]; intros st st' done; cbn.
  - by intros [= <- <-].
  - pose proof (perform_on_cases answer c st) as Hc.
    destruct (perform_on answer c st) as [st1| |st1].
    + destruct (perform_all calls st1) as [st2 done'] eqn:Hall. intros [= <- <-].
      destruct Hc as (_ & row & _ & Hi & _ & Hl & Hd & Hcl).
      destruct (IH _ _ _ Hall) as (? & ? & ? & ? & Hpre).
      split; [congruence|]. split; [congruence|]. split; [congruence|].
      split; [by apply sublist_skip|].
      etrans; [|exact Hpre]. rewrite Hi. by apply prefix_app_r.
    + intros Hall. destruct (IH _ _ _ Hall) as (? & ? & ? & ? & ?).
      repeat split; try done. by apply sublist_cons.
    + intros Hall. destruct Hc as (_ & row & _ & Hi & _ & Hl & Hd & Hcl).
      destruct (IH _ _ _ Hall) as (? & ? & ? & ? & Hpre).
      split; [congruence|]. split; [congruence|]. split; [congruence|].
      split; [by apply sublist_cons|]. by rewrite <- Hi.
Qed.

Lemma perform_all_stores calls st st' done :
  buffers_empty st -> Forall (fun x => x.2 = Stores) calls ->
  perform_all calls st = (st', done) ->
  buffers_empty st' /\
  exists rows, inserted st' = inserted st ++ rows /\ Forall2 row_of_call done rows.
Proof.
  intros Hempty Hall. revert st st' done Hempty.
  induction Hall as [|[c answer] calls Hc _ IH]; intros st st' done Hempty; cbn.
  - intros [= <- <-]. split; [done|]. exists []. by rewrite app_nil_r.
  - cbn in Hc. subst answer.
    pose proof (perform_on_cases Stores c st) as Hc.
    destruct (perform_on Stores c st) as [st1| |st1].
    + destruct (perform_all calls st1) as [st2 done'] eqn:Hrest. intros [= <- <-].
      destruct Hc as (_ & row & Hrow & Hi & Hb & _).
      assert (He1 : buffers_empty st1).
      { intros b'. rewrite Hb. by case_decide. }
      destruct (IH _ _ _ He1 Hrest) as (He2 & rows & Hi2 & Ht).
      split; [done|]. exists ((table_of c, row) :: rows). split.
      * by rewrite Hi2, Hi, Hempty, <- app_assoc.
      * by constructor.
    + by apply IH.
    + by destruct Hc.
Qed.

(** X16. A call of one of the five recorders ends in one of three ways.
    It returns, on a session that stores: with [BATCH_SIZE] = 1 it leaves
    its buffer empty and has inserted into its table the rows that were
    waiting in its buffer, followed by its own row.  Or [db.execute] or
    [db.commit] raises: the row of the call stays at the end of its buffer
    and nothing is inserted.  Or the assertion fails.  No call touches the
    lock, the session or another buffer, and none takes back a row that has
    been inserted.  After a history of calls that starts with empty
    buffers and in which the session never raises, the buffers are empty
    again and the calls that returned have each inserted one row into their
    own table, in the order of the calls. *)
Theorem recorders_commit_at_once :
  (forall answer c st,
     match perform_on answer c st with
     | Returned st' =>
         answer = Stores /\
         exists row, row_of (data_of c) (table_of c) row /\
           stored (table_of c) (Some (buffer_of c)) row st st'
     | Refused st' =>
         answer = Raises /\
         exists row, row_of (data_of c) (table_of c) row /\
           kept (buffer_of c) row st st'
     | Asserted => exists k, is_Some (data_of c !! k) /\ k ∉ columns (table_of c)
     end) /\
  (forall calls st st' done,
     perform_all calls st = (st', done) ->
     lock st' = lock st /\ db st' = db st /\ closed st' = closed st /\
     done `sublist_of` calls.*1 /\ inserted st `prefix_of` inserted st') /\
  (forall calls st st' done,
     buffers_empty st -> Forall (fun x => x.2 = Stores) calls ->
     perform_all calls st = (st', done) ->
     buffers_empty st' /\
     exists rows, inserted st' = inserted st ++ rows /\ Forall2 row_of_call done rows).
Proof.
  split; [exact perform_on_cases|].
  split; [exact perform_all_returned|exact perform_all_stores].
Qed.

End CallsFacts.

(** *** Sessions *)

Definition is_release (a : action) : bool :=
  match a with Release => true | Acquire _ | Resume _ => false end.

(** The number of calls of [release_db_lock] among the actions. *)
Definition releases (l : list action) : nat := length (filter is_release l).

Lemma steps_sessions l w0 w :
  closed (module w0) = seq 0 (db (module w0)) ->
  steps l w0 = Some w ->
  closed (module w) = seq 0 (db (module w)) /\
  db (module w) = (db (module w0) + releases l)%nat.
Proof.
  revert w0. induction l as [|a l IH]; intros w0 Hw0; cbn [steps].
  - intros [= <-]. split; [done|]. unfold releases. cbn. lia.
  - destruct (step a w0) as [w1|] eqn:Hstep; cbn [mbind option_bind]; [|done].
    intros Hsteps.
    assert (H1 : closed (module w1) = seq 0 (db (module w1)) /\
                 db (module w1) =
                   (db (module w0) + if is_release a then 1 else 0)%nat).
    { destruct a as [who|who|]; cbn in Hstep.
      - unfold acquire_db_lock in Hstep. destruct (lock (module w0));
          injection Hstep as <-; cbn; (split; [done|lia]).
      - destruct (decide ((who, true) ∈ waiting w0)); [|done].
        injection Hstep as <-. cbn. split; [done|lia].
      - injection Hstep as <-. unfold release_db_lock, new_session.
        cbn [module closed db is_release]. rewrite Hw0. split; [|lia].
        by rewrite seq_S. }
    destruct H1 as [Hc1 Hd1].
    destruct (IH w1 Hc1 Hsteps) as [Hc Hd]. split; [done|].
    rewrite Hd, Hd1. unfold releases. rewrite filter_cons.
    destruct (is_release a);
      [rewrite decide_True by done|rewrite decide_False by (intros [])];
      cbn [length]; lia.
Qed.

(** X17. After any sequence of calls of [acquire_db_lock], resumptions of
    suspended callers and calls of [release_db_lock], the sessions that
    have been closed are exactly those created before the current one,
    each closed once and in the order of their creation, one per call of
    [release_db_lock]; the session in use is not closed. *)
Theorem sessions_closed_once l w :
  steps l (World initial [] []) = Some w ->
  db (module w) = releases l /\
  closed (module w) = seq 0 (releases l) /\
  NoDup (closed (module w)) /\
  db (module w) ∉ closed (module w).
Proof.
  intros Hsteps.
  destruct (steps_sessions l (World initial [] []) w eq_refl Hsteps) as [Hc Hd].
  cbn in Hd. rewrite Hc, Hd. split; [done|]. split; [done|].
  split; [apply NoDup_seq|]. rewrite elem_of_seq. lia.
Qed.

(** X17, on two callers of which the second is suspended until the first
    releases, and releases in its turn. *)
Lemma sessions_closed_once_witness :
  exists w,
    steps [Acquire 1; Acquire 2; Release; Resume 2; Release]%nat
      (World initial [] []) = Some w /\
    db (module w) = 2%nat /\ closed (module w) = [0; 1]%nat.
Proof.
  eexists. split; [reflexivity|].
  destruct (sessions_closed_once
              [Acquire 1; Acquire 2; Release; Resume 2; Release]%nat _ eq_refl)
    as (Hdb & Hclosed & _).
  split; [exact Hdb|exact Hclosed].
Defined.

(** *** Calls on concrete tables *)


Definition perf_table : table :=
  Table "performance_stat"
    ["id"; "recording_timestamp"; "recording_id"; "event_type"; "start_time"; "end_time"].
Definition memory_table : table :=
  Table "memory_stat" ["id"; "recording_timestamp"; "recording_id"; "memory_usage_bytes"].

(** X15, on a table with the columns of the dictionary and on one that
    lacks the column [timestamp]. *)
Lemma stats_recorded_witness :
  (exists st', insert_perf_stat perf_table a_recording (VStr "action") (VFloat 1)
                 (VFloat 2) initial = inr st') /\
  ~ (exists st', insert_memory_stat memory_table a_recording (VInt 1024) (VFloat 3)
                   initial = inr st').
Proof.
  destruct (stats_recorded perf_table memory_table a_recording (VStr "action")
              (VFloat 1) (VFloat 2) (VInt 1024) (VFloat 3) initial)
    as (Hperf & Hmemory & _).
  split.
  - apply Hperf. intros k Hk. unfold perf_keys in Hk. cbn [columns perf_table].
    rewrite !elem_of_cons in *. tauto.
  - intros Hins. apply Hmemory in Hins.
    assert (Hin : "timestamp" ∈ columns memory_table).
    { apply Hins. unfold memory_keys. rewrite !elem_of_cons. tauto. }
    cbn [columns memory_table] in Hin. rewrite !elem_of_cons, elem_of_nil in Hin.
    destruct Hin as [Hin|[Hin|[Hin|[Hin|[]]]]]; discriminate Hin.
Defined.

(** X16, on a click in which the session raises, an event with an unknown
    key and a key press: the row of the click waits in the buffer and is
    inserted, before the row of the key press, by the call that returns. *)
Lemma recorders_commit_at_once_witness :
  let click := ActionCall a_recording (VFloat 1) {[ "name" := VStr "click" ]} in
  let bogus := WindowCall a_recording (VFloat 1) {[ "bogus" := VInt 1 ]} in
  let press := ActionCall a_recording (VFloat 2) {[ "name" := VStr "press" ]} in
  exists st1 st2 row1 row2,
    perform_on small_table small_table small_table perf_table memory_table
      Raises click initial = Refused st1 /\
    buffers st1 action_events = [row1] /\ inserted st1 = [] /\
    perform_on small_table small_table small_table perf_table memory_table
      Stores bogus st1 = Asserted /\
    perform_on small_table small_table small_table perf_table memory_table
      Stores press st1 = Returned st2 /\
    buffers st2 action_events = [] /\
    inserted st2 = [(small_table, row1); (small_table, row2)] /\
    row1 !! "name" = Some (VStr "click") /\ row2 !! "name" = Some (VStr "press") /\
    perform_all small_table small_table small_table perf_table memory_table
      [(click, Raises); (bogus, Stores); (press, Stores)] initial = (st2, [press]).
Proof.
  intros click bogus press.
  destruct (recorders_commit_at_once small_table small_table small_table perf_table
              memory_table) as (Hcall & _ & _).
  assert (B :
    match perform_on small_table small_table small_table perf_table memory_table
            Raises click initial with
    | Refused st1 =>
        match perform_on small_table small_table small_table perf_table memory_table
                Stores bogus st1,
              perform_on small_table small_table small_table perf_table memory_table
                Stores press st1 with
        | Asserted, Returned _ => true
        | _, _ => false
        end
    | _ => false
    end = true) by (vm_compute; reflexivity).
  pose proof (Hcall Raises click initial) as H1.
  destruct (perform_on _ _ _ _ _ Raises click initial) as [st1| |st1] eqn:E1;
    [discriminate B|discriminate B|].
  destruct H1 as (_ & row1 & Hrow1 & Hi1 & Hb1 & _).
  pose proof (Hcall Stores press st1) as H2.
  destruct (perform_on _ _ _ _ _ Stores bogus st1) as [st| |st] eqn:E3;
    [discriminate B| |discriminate B].
  destruct (perform_on _ _ _ _ _ Stores press st1) as [st2| |st2] eqn:E2;
    [|discriminate B|discriminate B].
  destruct H2 as (_ & row2 & Hrow2 & Hi2 & Hb2 & _).
  assert (Hbuf : buffers st1 action_events = [row1]).
  { rewrite Hb1. by rewrite decide_True. }
  exists st1, st2, row1, row2. split; [reflexivity|]. split; [exact Hbuf|].
  split; [exact Hi1|]. split; [exact E3|]. split; [exact E2|].
  split; [by rewrite Hb2, decide_True|].
  split; [by rewrite Hi2, Hi1; cbn [buffer_of press]; rewrite Hbuf|].
  split; [rewrite (Hrow1 "name"); vm_compute; reflexivity|].
  split; [rewrite (Hrow2 "name"); vm_compute; reflexivity|].
  cbn [perform_all]. by rewrite E1, E3, E2.
Defined.

End CrudEventsFacts.
